(** * Kinetic parameter estimation: a shallow embedding of
      [dynamo/tools/estimation_kinetic.py]

    Numbers.  The program computes on IEEE doubles held in numpy arrays.
    Here a double is NaN, an infinity, or a real number: rounding, the
    overflow of numpy's operations (which give an infinity and go on) and
    the sign of zero are abstracted, the special values and their
    arithmetic are kept, since the program tests for them (the NaN sentinel
    of [fixed_parameters], the NaN scrub of [f_lsq], [sig == 0]).  A power
    of Python floats does not go on when it overflows, it raises: that one
    is kept, with the largest double as its limit.  A statement about the
    last place of a result (a sample against the upper end of its range)
    cannot be read off this model and is not made.

    Arrays.  A one-dimensional array is a list, a two-dimensional one the
    list of its rows; elementwise operations follow numpy's broadcasting
    and raise on incompatible shapes.

    Effects.  A method is a function of the object's state that returns or
    raises, leaves a new state, and emits warnings.  The simulators, the
    optimiser, the random source and the chi-square distribution are
    outside the file and enter as parameters. *)

From Stdlib Require Import Reals Lra Lia ZArith Bool String Arith List.
Import ListNotations.

Open Scope R_scope.

(** ** Doubles with their special values *)

Inductive float64 : Type :=
| NaN
| NInf
| PInf
| Fin (r : R).

Definition Reqb (a b : R) : bool := if Req_dec_T a b then true else false.
Definition Rltb (a b : R) : bool := if Rlt_dec a b then true else false.
Definition Rleb (a b : R) : bool := if Rle_dec a b then true else false.

Module F.

(** [np.isnan] *)
Definition isnan (x : float64) : bool :=
  match x with NaN => true | _ => false end.

(** [==] on doubles: NaN differs from everything, itself included. *)
Definition eqb (x y : float64) : bool :=
  match x, y with
  | Fin a, Fin b => Reqb a b
  | PInf, PInf => true
  | NInf, NInf => true
  | _, _ => false
  end.

(** [<=] on doubles: false as soon as one side is NaN. *)
Definition leb (x y : float64) : bool :=
  match x, y with
  | NaN, _ | _, NaN => false
  | NInf, _ => true
  | _, PInf => true
  | Fin a, Fin b => Rleb a b
  | _, _ => false
  end.

Definition add (x y : float64) : float64 :=
  match x, y with
  | NaN, _ | _, NaN => NaN
  | PInf, NInf | NInf, PInf => NaN
  | PInf, _ | _, PInf => PInf
  | NInf, _ | _, NInf => NInf
  | Fin a, Fin b => Fin (a + b)
  end.

Definition opp (x : float64) : float64 :=
  match x with
  | NaN => NaN
  | PInf => NInf
  | NInf => PInf
  | Fin a => Fin (- a)
  end.

Definition sub (x y : float64) : float64 :=
  match x, y with
  | Fin a, Fin b => Fin (a - b)
  | _, _ => add x (opp y)
  end.

(** An infinity times a finite factor. *)
Definition scale_inf (negative_inf : bool) (a : R) : float64 :=
  if Reqb a 0 then NaN
  else if xorb negative_inf (Rltb a 0) then NInf else PInf.

Definition mul (x y : float64) : float64 :=
  match x, y with
  | NaN, _ | _, NaN => NaN
  | Fin a, Fin b => Fin (a * b)
  | Fin a, PInf | PInf, Fin a => scale_inf false a
  | Fin a, NInf | NInf, Fin a => scale_inf true a
  | PInf, PInf | NInf, NInf => PInf
  | PInf, NInf | NInf, PInf => NInf
  end.

(** Division; a zero divisor is read as +0.0. *)
Definition div (x y : float64) : float64 :=
  match x, y with
  | NaN, _ | _, NaN => NaN
  | Fin a, Fin b =>
      if Reqb b 0
      then (if Reqb a 0 then NaN else if Rltb a 0 then NInf else PInf)
      else Fin (a / b)
  | Fin _, _ => Fin 0
  | PInf, Fin b => if Rltb b 0 then NInf else PInf
  | NInf, Fin b => if Rltb b 0 then PInf else NInf
  | _, _ => NaN
  end.

(** [np.log]: NaN below zero, minus infinity at zero. *)
Definition log (x : float64) : float64 :=
  match x with
  | NaN => NaN
  | NInf => NaN
  | PInf => PInf
  | Fin a => if Rltb a 0 then NaN else if Reqb a 0 then NInf else Fin (ln a)
  end.

Definition exp (x : float64) : float64 :=
  match x with
  | NaN => NaN
  | NInf => Fin 0
  | PInf => PInf
  | Fin a => Fin (Rtrigo_def.exp a)
  end.

Definition sqrt (x : float64) : float64 :=
  match x with
  | NaN => NaN
  | NInf => NaN
  | PInf => PInf
  | Fin a => if Rltb a 0 then NaN else Fin (R_sqrt.sqrt a)
  end.

(** [x ** n] for a non-negative integer exponent. *)
Fixpoint pow (x : float64) (n : nat) : float64 :=
  match n with
  | O => Fin 1
  | S n' => mul x (pow x n')
  end.

(** [np.maximum] and [np.minimum]: NaN wins. *)
Definition maximum (x y : float64) : float64 :=
  match x, y with
  | NaN, _ | _, NaN => NaN
  | _, _ => if leb x y then y else x
  end.

Definition minimum (x y : float64) : float64 :=
  match x, y with
  | NaN, _ | _, NaN => NaN
  | _, _ => if leb x y then x else y
  end.

(** [np.clip(x, lo, hi)] *)
Definition clip (x lo hi : float64) : float64 :=
  minimum (maximum x lo) hi.

(** [np.sum] and [np.prod] of a flat array. *)
Definition sum (l : list float64) : float64 := fold_left add l (Fin 0).
Definition prod (l : list float64) : float64 := fold_left mul l (Fin 1).

(** [a.dot(b)] on one-dimensional arrays of equal length. *)
Definition dot (a b : list float64) : float64 :=
  sum (map (fun xy => mul (fst xy) (snd xy)) (combine a b)).

End F.

Definition vec := list float64.
Definition matrix := list (list float64).

(** ** Python exceptions, warnings and effects *)

Inductive exn : Type :=
| IndexError
| ValueError
| TypeError
| AttributeError
| OverflowError.

(** A computation without side effects: a value or an exception. *)
Inductive result (A : Type) : Type :=
| Ok (a : A)
| Raise (e : exn).
Arguments Ok {A} a.
Arguments Raise {A} e.

Definition bind {A B} (m : result A) (k : A -> result B) : result B :=
  match m with
  | Ok a => k a
  | Raise e => Raise e
  end.

Notation "x <- m ;; k" := (bind m (fun x => k))
  (at level 61, m at next level, right associativity).

Fixpoint sequence {A} (l : list (result A)) : result (list A) :=
  match l with
  | [] => Ok []
  | m :: l' => x <- m ;; xs <- sequence l' ;; Ok (x :: xs)
  end.

(** ** Powers of Python floats *)

(** The largest double, [(2 - 2^-52) * 2^1023]. *)
Definition float_max : R := IZR (2 ^ 1024 - 2 ^ 971).

(** [x ** n] for a Python float [x] and a non-negative [int] [n]: a finite
    result out of the range of doubles raises OverflowError; infinities and
    NaN pass through. *)
Definition float_pow (x : float64) (n : nat) : result float64 :=
  match F.pow x n with
  | Fin r => if Rltb float_max (Rabs r) then Raise OverflowError else Ok (Fin r)
  | y => Ok y
  end.

(** A method of an object of state [St]: it may mutate the object and
    emit warnings (the text given to [warnings.warn]) before it returns or
    raises. *)
Inductive outcome (St A : Type) : Type :=
| Returns (a : A) (s : St) (w : list string)
| Raises (e : exn) (s : St) (w : list string).
Arguments Returns {St A} a s w.
Arguments Raises {St A} e s w.

Definition Py (St A : Type) : Type := St -> outcome St A.

Module PyM.

Definition ret {St A} (a : A) : Py St A := fun s => Returns a s [].

Definition bind {St A B} (m : Py St A) (k : A -> Py St B) : Py St B :=
  fun s =>
    match m s with
    | Returns a s' w =>
        match k a s' with
        | Returns b s'' w' => Returns b s'' (w ++ w')
        | Raises e s'' w' => Raises e s'' (w ++ w')
        end
    | Raises e s' w => Raises e s' w
    end.

Definition lift {St A} (r : result A) : Py St A :=
  fun s => match r with Ok a => Returns a s [] | Raise e => Raises e s [] end.

Definition get {St} : Py St St := fun s => Returns s s [].
Definition put {St} (s' : St) : Py St unit := fun _ => Returns tt s' [].
Definition warn {St} (msg : string) : Py St unit :=
  fun s => Returns tt s [msg].

End PyM.

Notation "x <~ m ;; k" := (PyM.bind m (fun x => k))
  (at level 61, m at next level, right associativity).
Notation "m ;;; k" := (PyM.bind m (fun _ => k))
  (at level 61, right associativity).

(** ** numpy broadcasting of an elementwise binary operation *)

(** One axis: equal lengths pair up, a length-one side is repeated, anything
    else is a shape error. *)
Definition bcast1 {A B C} (f : A -> B -> C) (xs : list A) (ys : list B)
  : result (list C) :=
  if Nat.eqb (length xs) (length ys)
  then Ok (map (fun xy => f (fst xy) (snd xy)) (combine xs ys))
  else match xs, ys with
       | [x], _ => Ok (map (f x) ys)
       | _, [y] => Ok (map (fun x => f x y) xs)
       | _, _ => Raise ValueError
       end.

(** Two axes, arrays as lists of rows.  An array without rows does not
    record its number of columns: the empty list stands for the shapes
    [(0, k)] with [k > 0]; the shape [(0, 0)] has no representation. *)
Definition bcast2 {A B C} (f : A -> B -> C)
    (X : list (list A)) (Y : list (list B)) : result (list (list C)) :=
  rows <- bcast1 (bcast1 f) X Y ;; sequence rows.

(** A two-dimensional array against a one-dimensional one: the vector is
    aligned with the last axis, i.e. with every row. *)
Definition bcast_rows {A B C} (f : A -> B -> C)
    (X : list (list A)) (y : list B) : result (list (list C)) :=
  sequence (map (fun row => bcast1 f row y) X).

(** [a.flatten()] *)
Definition flatten {A} (X : list (list A)) : list A := concat X.

(** [a.T] on a two-dimensional array: the next row is laid in front of
    the columns already built. *)
Fixpoint zip_cons {A} (row : list A) (cols : list (list A)) : list (list A) :=
  match row, cols with
  | [], _ => []
  | x :: row', [] => [x] :: zip_cons row' []
  | x :: row', c :: cols' => (x :: c) :: zip_cons row' cols'
  end.

Fixpoint transpose {A} (X : list (list A)) : list (list A) :=
  match X with
  | [] => []
  | row :: X' => zip_cons row (transpose X')
  end.

(** ** numpy indexing on one-dimensional arrays *)

(** [a[i]] for a non-negative index. *)
Definition getitem {A} (a : list A) (i : nat) : result A :=
  match nth_error a i with
  | Some x => Ok x
  | None => Raise IndexError
  end.

(** [a[:n]] and [a[n:]] for a non-negative bound (slices never raise). *)
Definition slice_to {A} (n : nat) (a : list A) : list A := firstn n a.
Definition slice_from {A} (n : nat) (a : list A) : list A := skipn n a.

(** Number of [True] entries of the mask [np.isnan(p)]. *)
Definition count_nan (p : vec) : nat := length (filter F.isnan p).

(** Walk of [p[np.isnan(p)] = vals] once the sizes agree: each NaN slot
    takes the next value. *)
Fixpoint fill_nan (p : vec) (vals : vec) : vec :=
  match p with
  | [] => []
  | x :: p' =>
      if F.isnan x then
        match vals with
        | v :: vals' => v :: fill_nan p' vals'
        | [] => x :: fill_nan p' []
        end
      else x :: fill_nan p' vals
  end.

(** [p[np.isnan(p)] = vals]: a single value is broadcast to every selected
    slot; otherwise the number of values must equal the number of selected
    slots, or numpy raises ValueError. *)
Definition assign_where_nan (p : vec) (vals : vec) : result vec :=
  match vals with
  | [v] => Ok (map (fun x => if F.isnan x then v else x) p)
  | _ =>
      if Nat.eqb (length vals) (count_nan p)
      then Ok (fill_nan p vals)
      else Raise ValueError
  end.

(** ** [kinetic_estimation]: the parameter/bound manager *)

(** A range is a row [[low, high]]. *)
Definition range := (float64 * float64)%type.

Definition is_fixed (r : range) : bool := F.eqb (fst r) (snd r).

(** One pass of the constructor's loops: the fixed slots receive the low
    end, the others keep the NaN they were initialised with. *)
Definition fixed_slots (rs : list range) : vec :=
  map (fun r => if is_fixed r then fst r else NaN) rs.

(** The ranges appended to [self.ranges] by one loop, in order. *)
Definition free_ranges (rs : list range) : list range :=
  filter (fun r => negb (is_fixed r)) rs.

(** ** The simulator capability

    The ODE and moment simulators live in [utils_kinetic]; the estimator
    uses them through this interface only. *)

Class Simulator (Sim : Type) : Type := {
  (** [set_params], called with the kinetic parameters unpacked *)
  set_params : vec -> Sim -> Sim;
  (** [integrate(t, x0=None, method=None)], which fills [.t] and [.x] *)
  integrate : vec -> option vec -> option string -> Sim -> Sim;
  (** [.x], time by species *)
  sim_x : Sim -> matrix;
  (** assignment into the buffer behind [.x] *)
  set_x : matrix -> Sim -> Sim;
  sim_t : Sim -> vec;
  methods : Sim -> list string;
  default_method : Sim -> string
}.

(** [extract_data_from_simulator] is dispatched on the instance.  Besides
    the array it returns, what matters is whether that array shares memory
    with the simulator: [write_through] is what an in-place write into the
    returned array does to the simulator. *)
Record extractor (Sim : Type) : Type := {
  extract : Sim -> matrix;
  write_through : matrix -> Sim -> Sim
}.
Arguments extract {Sim} _ _.
Arguments write_through {Sim} _ _ _.

(** [kinetic_estimation.extract_data_from_simulator]: [simulator.x.T], a
    view on [simulator.x]. *)
Definition extract_data_from_simulator {Sim} `{Simulator Sim}
  : extractor Sim :=
  {| extract := fun s => transpose (sim_x s);
     write_through := fun m s => set_x (transpose m) s |}.

(** [normalize_data]: [np.log(X + 1)] *)
Definition log1p (x : float64) : float64 := F.log (F.add x (Fin 1)).
Definition normalize_data (X : matrix) : matrix := map (map log1p) X.

(** [ret[np.isnan(ret)] = 0] *)
Definition nan_to_zero (x : float64) : float64 :=
  if F.isnan x then Fin 0 else x.
Definition scrub_nan (X : matrix) : matrix := map (map nan_to_zero) X.

(** [np.argmin]: the first smallest entry, a NaN counting as smallest. *)
Definition better (x best : float64) : bool :=
  match x, best with
  | _, NaN => false
  | NaN, _ => true
  | _, _ => negb (F.leb best x)
  end.

Fixpoint argmin_from (best_i : nat) (best : float64) (i : nat)
    (l : list float64) : nat :=
  match l with
  | [] => best_i
  | x :: l' =>
      if better x best then argmin_from i x (S i) l'
      else argmin_from best_i best (S i) l'
  end.

Definition argmin (l : list float64) : result nat :=
  match l with
  | [] => Raise ValueError
  | x :: l' => Ok (argmin_from 0%nat x 1%nat l')
  end.

(** [np.max(X, 1)]: the maximum of every row; an empty row has none.  On
    the empty list this is [np.max] on the shape [(0, k)], [k > 0], an
    empty vector; on the shape [(0, 0)], which a list of rows cannot
    tell apart, numpy raises ValueError. *)
Definition row_max (row : vec) : result float64 :=
  match row with
  | [] => Raise ValueError
  | x :: row' => Ok (fold_left F.maximum row' x)
  end.

Definition max_axis1 (X : matrix) : result vec := sequence (map row_max X).

(** [np.unique(t)], up to order: entries are compared with [==], so that
    every NaN stays apart. *)
Fixpoint unique (t : vec) : vec :=
  match t with
  | [] => []
  | x :: t' => x :: filter (fun y => negb (F.eqb x y)) (unique t')
  end.

(** The argument [p0] of [fit_lsq]: one start (a one-dimensional array) or
    a stack of them. *)
Inductive starts : Type :=
| One (p : vec)
| Many (ps : list vec).

(** The argument [x_data] of [test_chi2]. *)
Inductive ndarray : Type :=
| Arr1 (v : vec)
| Arr2 (X : matrix).

(** [x_data[None]] when [x_data.ndim == 1] *)
Definition atleast_2d (a : ndarray) : matrix :=
  match a with
  | Arr1 v => [v]
  | Arr2 X => X
  end.

Section Estimator.

Context {Sim : Type} `{Simulator Sim}.

Record kinetic_estimation : Type := mk_estimation {
  simulator : Sim;
  ranges : list range;
  fixed_parameters : vec;
  n_tot_kin_params : nat;
  n_kin_params : nat;
  n_params : nat;
  popt : option vec;
  cost : option float64
}.

Definition with_simulator (sim : Sim) (self : kinetic_estimation)
  : kinetic_estimation :=
  {| simulator := sim;
     ranges := ranges self;
     fixed_parameters := fixed_parameters self;
     n_tot_kin_params := n_tot_kin_params self;
     n_kin_params := n_kin_params self;
     n_params := n_params self;
     popt := popt self;
     cost := cost self |}.

Definition with_fit (x : vec) (c : float64) (self : kinetic_estimation)
  : kinetic_estimation :=
  {| simulator := simulator self;
     ranges := ranges self;
     fixed_parameters := fixed_parameters self;
     n_tot_kin_params := n_tot_kin_params self;
     n_kin_params := n_kin_params self;
     n_params := n_params self;
     popt := Some x;
     cost := Some c |}.

(** [kinetic_estimation.__init__] *)
Definition init (param_ranges x0_ranges : list range) (sim : Sim)
  : kinetic_estimation :=
  let kin_free := free_ranges param_ranges in
  let all_free := kin_free ++ free_ranges x0_ranges in
  {| simulator := sim;
     ranges := all_free;
     fixed_parameters := fixed_slots param_ranges ++ fixed_slots x0_ranges;
     n_tot_kin_params := length param_ranges;
     n_kin_params := length kin_free;
     n_params := length all_free;
     popt := None;
     cost := None |}.

(** [self.ranges[i][axis]]; a row has two entries, which Python also
    counts from the end. *)
Definition range_axis (r : range) (axis : Z) : result float64 :=
  match axis with
  | 0%Z | (-2)%Z => Ok (fst r)
  | 1%Z | (-1)%Z => Ok (snd r)
  | _ => Raise IndexError
  end.

(** The loop of [get_bound] over [i in range(n)], reading
    [self.ranges[i]]. *)
Fixpoint get_bound_loop (rs : list range) (n : nat) (axis : Z)
  : result vec :=
  match n with
  | O => Ok []
  | S n' =>
      match rs with
      | [] => Raise IndexError
      | r :: rs' =>
          b <- range_axis r axis ;;
          bs <- get_bound_loop rs' n' axis ;;
          Ok (b :: bs)
      end
  end.

(** [get_bound] *)
Definition get_bound (self : kinetic_estimation) (axis : Z) : result vec :=
  get_bound_loop (ranges self) (n_params self) axis.

(** [assemble_kin_params] *)
Definition assemble_kin_params (self : kinetic_estimation)
    (unfixed_params : vec) : result vec :=
  let p := slice_to (n_tot_kin_params self) (fixed_parameters self) in
  assign_where_nan p (slice_to (n_kin_params self) unfixed_params).

(** [assemble_x0] *)
Definition assemble_x0 (self : kinetic_estimation)
    (unfixed_params : vec) : result vec :=
  let p := slice_from (n_tot_kin_params self) (fixed_parameters self) in
  assign_where_nan p (slice_from (n_kin_params self) unfixed_params).

(** [get_opt_kin_params] and [get_opt_x0_params]; [None] is Python's. *)
Definition get_opt_kin_params (self : kinetic_estimation)
  : result (option vec) :=
  match popt self with
  | Some x => p <- assemble_kin_params self x ;; Ok (Some p)
  | None => Ok None
  end.

Definition get_opt_x0_params (self : kinetic_estimation)
  : result (option vec) :=
  match popt self with
  | Some x => p <- assemble_x0 self x ;; Ok (Some p)
  | None => Ok None
  end.

Abbreviation M := (Py kinetic_estimation).

Definition update_simulator (f : Sim -> Sim) : M unit :=
  fun self => Returns tt (with_simulator (f (simulator self)) self) [].

(** [set_params] *)
Definition set_params_m (params : vec) : M unit :=
  self <~ PyM.get ;;
  p <~ PyM.lift (assemble_kin_params self params) ;;
  update_simulator (set_params p).

Definition unsupported_method_warning (method fallback : string) : string :=
  ("The simulator does not support method '" ++ method
     ++ "'. Using method '" ++ fallback ++ "' instead.")%string.

(** The first two statements of [f_lsq]: the method actually used.  The
    warning names [methods[0]], which must exist, and the default method
    is the one taken. *)
Definition resolve_method (method : option string) : M string :=
  self <~ PyM.get ;;
  let sim := simulator self in
  let m := match method with None => default_method sim | Some m => m end in
  if existsb (String.eqb m) (methods sim) then PyM.ret m
  else
    m0 <~ PyM.lift (getitem (methods sim) 0) ;;
    PyM.warn (unsupported_method_warning m m0) ;;;
    PyM.ret (default_method sim).

Section Dispatch.

(** The [extract_data_from_simulator] of the instance's class. *)
Variable ex : extractor Sim.

(** [f_lsq].  The residual is computed on [ret]; without
    normalisation [ret] is the extracted array itself, so the NaN scrub
    writes through to whatever it shares memory with. *)
Definition f_lsq (params t : vec) (x_data : matrix)
    (method : option string) (normalize : bool) : M vec :=
  m <~ resolve_method method ;;
  set_params_m params ;;;
  self <~ PyM.get ;;
  x0 <~ PyM.lift (assemble_x0 self params) ;;
  update_simulator (integrate t (Some x0) (Some m)) ;;;
  self' <~ PyM.get ;;
  let ret := extract ex (simulator self') in
  ret' <~ (if normalize
           then PyM.ret (scrub_nan (normalize_data ret))
           else
             update_simulator (write_through ex (scrub_nan ret)) ;;;
             PyM.ret (scrub_nan ret)) ;;
  PyM.lift (r <- bcast2 F.sub ret' x_data ;; Ok (flatten r)).

(** *** Sampling of starting points *)

(** [utils.lhsclassic(samples, n)]: a random Latin hypercube design,
    one row per sample. *)
Variable lhsclassic : nat -> nat -> matrix.

(** [np.random.rand()], by rank of the draw within one call of
    [sample_p0]. *)
Variable rand : nat -> float64.

(** [x * (high - low) + low], in exact arithmetic: in doubles the
    last place of the result may differ. *)
Definition rescale (r : range) (x : float64) : float64 :=
  F.add (F.mul x (F.sub (snd r) (fst r))) (fst r).

(** The 'lhs' loop [ret[:, i] = ret[:, i] * ... + ...] seen from one row:
    the first [n_params] columns are rescaled, each must exist. *)
Fixpoint rescale_row (rs : list range) (n : nat) (row : vec) : result vec :=
  match n with
  | O => Ok row
  | S n' =>
      match rs, row with
      | r :: rs', x :: row' =>
          row'' <- rescale_row rs' n' row' ;;
          Ok (rescale r x :: row'')
      | _, _ => Raise IndexError
      end
  end.

(** The inner loop of the other branch: row [n] starts at draw [k]. *)
Fixpoint random_row (rs : list range) (n : nat) (k : nat) : result vec :=
  match n with
  | O => Ok []
  | S n' =>
      match rs with
      | r :: rs' =>
          row <- random_row rs' n' (S k) ;;
          Ok (rescale r (rand k) :: row)
      | [] => Raise IndexError
      end
  end.

(** [sample_p0] *)
Definition sample_p0 (self : kinetic_estimation) (samples : nat)
    (method : string) : result matrix :=
  if String.eqb method "lhs"
  then
    sequence (map (rescale_row (ranges self) (n_params self))
                  (lhsclassic samples (n_params self)))
  else
    sequence (map (fun n => random_row (ranges self) (n_params self)
                              (n * n_params self))
                  (seq 0 samples)).

(** *** Least-squares fit *)

(** [scipy.optimize.least_squares(fun, x0, bounds=bounds)], giving
    [(ret.x, ret.cost)].  It reaches the estimator through [fun]
    only. *)
Variable least_squares :
  (vec -> M vec) -> vec -> vec * vec -> M (vec * float64).

(** The loop of [fit_lsq] over [i in range(n_p0)], reading [p0[i]]. *)
Fixpoint fit_loop (f : vec -> M vec) (bounds : vec * vec)
    (p0 : list vec) (i : nat) (n : nat) : M (list (vec * float64)) :=
  match n with
  | O => PyM.ret []
  | S n' =>
      start <~ PyM.lift (getitem p0 i) ;;
      r <~ least_squares f start bounds ;;
      rs <~ fit_loop f bounds p0 (S i) n' ;;
      PyM.ret (r :: rs)
  end.

(** [x_data_norm] of [fit_lsq] *)
Definition fit_target (x_data : matrix) (normalize : bool) : matrix :=
  if normalize then normalize_data x_data else x_data.

(** The function [fit_lsq] hands to the optimiser. *)
Definition fit_objective (t : vec) (x_data : matrix)
    (method : option string) (normalize : bool) : vec -> M vec :=
  fun p => f_lsq p t (fit_target x_data normalize) method normalize.

(** [fit_lsq] *)
Definition fit_lsq (t : vec) (x_data : matrix) (p0 : option starts)
    (n_p0 : nat) (bounds : option (vec * vec)) (sample_method : string)
    (method : option string) (normalize : bool) : M (vec * float64) :=
  self <~ PyM.get ;;
  p0n <~ PyM.lift
           (match p0 with
            | None =>
                ps <- sample_p0 self n_p0 sample_method ;; Ok (ps, n_p0)
            | Some (One p) => Ok ([p], 1%nat)
            | Some (Many ps) => Ok (ps, length ps)
            end) ;;
  bnds <~ PyM.lift
            (match bounds with
             | Some b => Ok b
             | None =>
                 lo <- get_bound self 0 ;;
                 hi <- get_bound self 1 ;;
                 Ok (lo, hi)
             end) ;;
  fits <~ fit_loop (fit_objective t x_data method normalize) bnds
            (fst p0n) 0 (snd p0n) ;;
  i_min <~ PyM.lift (argmin (map snd fits)) ;;
  best <~ PyM.lift (getitem fits i_min) ;;
  (fun s => Returns tt (with_fit (fst best) (snd best) s) []) ;;;
  PyM.ret best.

(** [get_SSE] *)
Definition get_SSE (self : kinetic_estimation) : option float64 :=
  cost self.

(** *** Chi-square test *)

(** [scipy.stats.chi2.cdf(c2, df)] *)
Variable chi2_cdf : float64 -> Z -> float64.

(** [(X.T / scale).T] *)
Definition scale_rows (X : matrix) (scale : vec) : result matrix :=
  Xn <- bcast_rows F.div (transpose X) scale ;; Ok (transpose Xn).

Definition square (x : float64) : float64 := F.pow x 2.

(** [np.sum((O - E)**2 / E)] *)
Definition pearson_statistic (O E : matrix) : result float64 :=
  d <- bcast2 F.sub O E ;;
  q <- bcast2 F.div (map (map square) d) E ;;
  Ok (F.sum (flatten q)).

(** [x_model[species]] for an array of row indices. *)
Definition take_rows (X : matrix) (species : list nat) : result matrix :=
  sequence (map (getitem X) species).

(** [x_model[species]] when [species] is given. *)
Definition select_species (x_model : matrix)
    (species : option (list nat)) : result matrix :=
  match species with
  | Some sp => take_rows x_model sp
  | None => Ok x_model
  end.

(** [x_data_norm] and [x_model_norm] of [test_chi2]. *)
Definition chi2_arrays (x_data x_model : matrix) (normalize : bool)
  : result (matrix * matrix) :=
  if normalize
  then
    scale <- max_axis1 x_data ;;
    d <- scale_rows x_data scale ;;
    m <- scale_rows x_model scale ;;
    Ok (d, m)
  else Ok (x_data, x_model).

(** [test_chi2]; [method] defaults to 'matrix' at the call site. *)
Definition test_chi2 (t : vec) (x_data : ndarray)
    (species : option (list nat)) (method : string) (normalize : bool)
  : M (float64 * float64 * Z) :=
  let x_data := atleast_2d x_data in
  update_simulator (integrate t None (Some method)) ;;;
  self <~ PyM.get ;;
  let x_model := transpose (sim_x (simulator self)) in
  x_model <~ PyM.lift (select_species x_model species) ;;
  norm <~ PyM.lift (chi2_arrays x_data x_model normalize) ;;
  c2 <~ PyM.lift (pearson_statistic (fst norm) (snd norm)) ;;
  let df := (Z.of_nat (length (unique t)) - Z.of_nat (n_params self) - 1)%Z in
  let p := F.sub (Fin 1) (chi2_cdf c2 df) in
  PyM.ret (p, c2, df).

End Dispatch.

End Estimator.

Arguments kinetic_estimation Sim : clear implicits.

(** ** Guess heuristics *)

(** [a[-1]] *)
Definition last_item {A} (a : list A) : result A :=
  match rev a with
  | x :: _ => Ok x
  | [] => Raise IndexError
  end.

(** [np.argmax]: the first largest entry, a NaN counting as largest. *)
Definition larger (x best : float64) : bool :=
  match x, best with
  | _, NaN => false
  | NaN, _ => true
  | _, _ => negb (F.leb x best)
  end.

Fixpoint argmax_from (best_i : nat) (best : float64) (i : nat)
    (l : list float64) : nat :=
  match l with
  | [] => best_i
  | x :: l' =>
      if larger x best then argmax_from i x (S i) l'
      else argmax_from best_i best (S i) l'
  end.

Definition argmax (l : list float64) : result nat :=
  match l with
  | [] => Raise ValueError
  | x :: l' => Ok (argmax_from 0%nat x 1%nat l')
  end.

(** [guestimate_alpha] *)
Definition guestimate_alpha (x_data time : vec) : result float64 :=
  imax <- argmax x_data ;;
  x <- getitem x_data imax ;;
  t <- getitem time imax ;;
  Ok (F.div x t).

(** [guestimate_gamma] *)
Definition guestimate_gamma (x_data time : vec) : result float64 :=
  x_first <- getitem x_data 0 ;;
  x_last <- last_item x_data ;;
  t_last <- last_item time ;;
  Ok (F.clip
        (F.div (F.log (F.div x_first (F.add x_last (Fin 1e-6)))) t_last)
        (Fin 1e-3) (Fin 1e3)).

(** [guestimate_init_cond] *)
Definition guestimate_init_cond (x_data : matrix) : result vec :=
  m <- max_axis1 x_data ;;
  Ok (map (fun x => F.clip x (Fin 1e-4) PInf) m).

(** ** The degradation estimators *)

(** A constructor argument that is either a scalar (a pinned value) or a
    [[low, high]] pair. *)
Inductive bound_arg : Type :=
| Scalar (x : float64)
| Bounds (low high : float64).

(** [x * np.ones(2) if np.isscalar(x) else x] *)
Definition as_range (b : bound_arg) : range :=
  match b with
  | Scalar x => (F.mul x (Fin 1), F.mul x (Fin 1))
  | Bounds low high => (low, high)
  end.

Section Degradation.

Context {Sim : Type} `{Simulator Sim}.

Record Estimation_Degradation : Type := {
  kin_param_keys : list string;
  estimation : kinetic_estimation Sim
}.

(** [Estimation_Degradation.__init__]: a row of zeros, the pinned alpha,
    is stacked on top of the ranges. *)
Definition Estimation_Degradation_init (rs x0 : list range) (sim : Sim)
  : Estimation_Degradation :=
  {| kin_param_keys := ["alpha"; "gamma"]%string;
     estimation := init ((Fin 0, Fin 0) :: rs) x0 sim |}.

(** [Estimation_DeterministicDeg._initialize] and
    [Estimation_MomentDeg._initialize] *)
Definition DeterministicDeg_initialize (beta gamma : bound_arg)
    (x0 : list range) (sim : Sim) : Estimation_Degradation :=
  Estimation_Degradation_init [as_range beta; as_range gamma] x0 sim.

(** [Estimation_DeterministicDegNosp._initialize] and
    [Estimation_MomentDegNosp._initialize] *)
Definition DeterministicDegNosp_initialize (gamma : bound_arg)
    (x0 : list range) (sim : Sim) : Estimation_Degradation :=
  Estimation_Degradation_init [as_range gamma] x0 sim.

(** [np.where(keys == key)[0][0]] *)
Fixpoint first_index (keys : list string) (key : string) (i : nat)
  : result nat :=
  match keys with
  | [] => Raise IndexError
  | k :: keys' =>
      if String.eqb k key then Ok i else first_index keys' key (S i)
  end.

(** [get_param] *)
Definition get_param (self : Estimation_Degradation) (key : string)
  : result float64 :=
  i <- first_index (kin_param_keys self) key 0 ;;
  match popt (estimation self) with
  | None => Raise TypeError
  | Some x => getitem x i
  end.

(** [calc_half_life] *)
Definition calc_half_life (self : Estimation_Degradation) (key : string)
  : result float64 :=
  x <- get_param self key ;;
  Ok (F.div (F.log (Fin 2)) x).

End Degradation.

Arguments Estimation_Degradation Sim : clear implicits.

(** ** The kinetics estimators on moments *)

Section MomentKin.

Context {Sim : Type} `{Simulator Sim}.

(** [simulator.fbar(x_a, x_i)], a method of the moment simulators of
    [utils_kinetic], taken as a parameter: looking it up succeeds, calling
    it gives a number. *)
Variable fbar : Sim -> float64 -> float64 -> float64.

Definition pinned (n : nat) : list range := repeat (Fin 0, Fin 0) n.

(** [Estimation_MomentKin.__init__] *)
Definition Estimation_MomentKin_init (a b alpha_a alpha_i beta gamma : bound_arg)
    (sim : Sim) : kinetic_estimation Sim :=
  init (map as_range [a; b; alpha_a; alpha_i; beta; gamma]) (pinned 7) sim.

(** [Estimation_MomentKinNosp.__init__] *)
Definition Estimation_MomentKinNosp_init (a b alpha_a alpha_i gamma : bound_arg)
    (sim : Sim) : kinetic_estimation Sim :=
  init (map as_range [a; b; alpha_a; alpha_i; gamma]) (pinned 5) sim.

(** [self.popt[i]] *)
Definition popt_item (self : kinetic_estimation Sim) (i : nat)
  : result float64 :=
  match popt self with
  | None => Raise TypeError
  | Some x => getitem x i
  end.

Definition get_alpha_a (self : kinetic_estimation Sim) := popt_item self 2.
Definition get_alpha_i (self : kinetic_estimation Sim) := popt_item self 3.

(** [Estimation_MomentKin.get_alpha] *)
Definition MomentKin_get_alpha (self : kinetic_estimation Sim)
  : result float64 :=
  x_a <- get_alpha_a self ;;
  x_i <- get_alpha_i self ;;
  Ok (fbar (simulator self) x_a x_i).

(** [x.self] for a numpy scalar [x]: the scalar types define no attribute
    of that name, so the lookup has no value to give. *)
Definition float64_attr_self (x : float64) : result Empty_set :=
  Raise AttributeError.

(** [Estimation_MomentKinNosp.get_alpha]: the callee [simulator.fbar]
    is looked up, then the argument list, which reads
    [self.get_alpha_a(). self.get_alpha_i()], is evaluated: an attribute
    lookup on the value of [get_alpha_a()]. *)
Definition MomentKinNosp_get_alpha (self : kinetic_estimation Sim)
  : result float64 :=
  let callee := fbar (simulator self) in
  x_a <- get_alpha_a self ;;
  o <- float64_attr_self x_a ;;
  match o return result float64 with end.

End MomentKin.

(** ** Goodness of fit *)

Section Goodness.

Context {Sim : Type} `{Simulator Sim}.

Record GoodnessOfFit : Type := {
  gof_simulator : Sim;
  mean : option matrix;
  sigm : option matrix;
  pred : option matrix
}.

(** [GoodnessOfFit.normalize] *)
Definition normalize (x_data x_model : matrix) (scale : option vec)
  : result (matrix * matrix) :=
  scale <- match scale with
           | Some sc => Ok sc
           | None => max_axis1 x_data
           end ;;
  d <- (Xn <- bcast_rows F.div (transpose x_data) scale ;; Ok (transpose Xn)) ;;
  m <- (Xn <- bcast_rows F.div (transpose x_model) scale ;; Ok (transpose Xn)) ;;
  Ok (d, m).

Definition zero_sigma_warning : string :=
  "Some standard deviations are 0; Set to 1 instead.".

Definition is_zero (x : float64) : bool := F.eqb x (Fin 0).

(** [sig[sig == 0] = 1] *)
Definition zero_to_one (x : float64) : float64 :=
  if is_zero x then Fin 1 else x.

(** An attribute still [None] cannot enter the arithmetic. *)
Definition prepared (a : option matrix) : result matrix :=
  match a with
  | Some X => Ok X
  | None => Raise TypeError
  end.

(** The first four statements shared by both likelihood methods:
    [sig] and [err]. *)
Definition sig_and_err : Py GoodnessOfFit (matrix * vec) :=
  self <~ PyM.get ;;
  sig0 <~ PyM.lift (prepared (sigm self)) ;;
  sig <~ (if existsb is_zero (flatten sig0)
          then PyM.warn zero_sigma_warning ;;;
               PyM.ret (map (map zero_to_one) sig0)
          else PyM.ret sig0) ;;
  p <~ PyM.lift (prepared (pred self)) ;;
  m <~ PyM.lift (prepared (mean self)) ;;
  d <~ PyM.lift (bcast2 F.sub p m) ;;
  e <~ PyM.lift (bcast2 F.div d sig) ;;
  PyM.ret (sig, flatten e).

(** [2*np.pi], a Python float *)
Definition two_pi : float64 := F.mul (Fin 2) (Fin PI).

(** [1/(np.sqrt(p)*np.prod(sig)) * np.exp(-0.5*(err).dot(err))], where
    [p] is the value of the power. *)
Definition likelihood_from (p : float64) (sig : matrix) (err : vec)
  : float64 :=
  F.mul
    (F.div (Fin 1) (F.mul (F.sqrt p) (F.prod (flatten sig))))
    (F.exp (F.mul (Fin (-0.5)) (F.dot err err))).

(** The last statement of [calc_gaussian_likelihood], from [sig] and
    [err]: the power [(2*np.pi)**len(err)] is one of Python floats and
    comes first. *)
Definition gaussian_likelihood (sig : matrix) (err : vec)
  : result float64 :=
  p <- float_pow two_pi (length err) ;;
  Ok (likelihood_from p sig err).

(** The value returned by [calc_gaussian_loglikelihood]. *)
Definition gaussian_loglikelihood (sig : matrix) (err : vec) : float64 :=
  F.sub
    (F.sub
       (F.mul (F.div (Fin (- INR (length err))) (Fin 2)) (F.log two_pi))
       (F.sum (map F.log (flatten sig))))
    (F.mul (Fin 0.5) (F.dot err err)).

(** [calc_gaussian_likelihood] *)
Definition calc_gaussian_likelihood : Py GoodnessOfFit float64 :=
  se <~ sig_and_err ;;
  PyM.lift (gaussian_likelihood (fst se) (snd se)).

(** [calc_gaussian_loglikelihood] *)
Definition calc_gaussian_loglikelihood : Py GoodnessOfFit float64 :=
  se <~ sig_and_err ;;
  PyM.ret (gaussian_loglikelihood (fst se) (snd se)).

End Goodness.

Arguments GoodnessOfFit Sim : clear implicits.

(** ** Life of an estimator *)

(** The object a method leaves behind, whether it returned or raised. *)
Definition final {St A} (o : outcome St A) : St :=
  match o with
  | Returns _ s _ => s
  | Raises _ s _ => s
  end.

(** The warnings a method emitted. *)
Definition warnings {St A} (o : outcome St A) : list string :=
  match o with
  | Returns _ _ w => w
  | Raises _ _ w => w
  end.

(** A method keeps a property of the object. *)
Definition preserves {St A} (I : St -> Prop) (m : Py St A) : Prop :=
  forall s, I s -> I (final (m s)).

(** What the constructor decides about fixed and free parameters. *)
Definition partition {Sim} (s : kinetic_estimation Sim)
  : list range * vec * nat * nat * nat :=
  (ranges s, fixed_parameters s, n_tot_kin_params s, n_kin_params s,
   n_params s).

Section Life.

Context {Sim : Type} `{Simulator Sim}.

Abbreviation M := (Py (kinetic_estimation Sim)).

(** An optimiser is a client of the residual function: what the residual
    function keeps, the optimiser keeps. *)
Definition client
    (ls : (vec -> M vec) -> vec -> vec * vec -> M (vec * float64)) : Prop :=
  forall (I : kinetic_estimation Sim -> Prop) f x0 b,
    (forall p, preserves I (f p)) -> preserves I (ls f x0 b).

(** One call of a state-changing method of [kinetic_estimation]. *)
Inductive call : kinetic_estimation Sim -> kinetic_estimation Sim -> Prop :=
| call_set_params s params :
    call s (final (set_params_m params s))
| call_f_lsq s ex params t x_data method normalize :
    call s (final (f_lsq ex params t x_data method normalize s))
| call_fit_lsq s ex lhs rand ls t x_data p0 n_p0 bounds sample_method
    method normalize :
    client ls ->
    call s (final (fit_lsq ex lhs rand ls t x_data p0 n_p0 bounds
                     sample_method method normalize s))
| call_test_chi2 s cdf t x_data species method normalize :
    call s (final (test_chi2 cdf t x_data species method normalize s)).

(** The states an estimator goes through after its construction. *)
Inductive reachable (s0 : kinetic_estimation Sim)
  : kinetic_estimation Sim -> Prop :=
| reach_init : reachable s0 s0
| reach_call s s' : reachable s0 s -> call s s' -> reachable s0 s'.

End Life.

(** ** Bounds *)

(** A free value lies in its declared interval. *)
Definition within (r : range) (x : float64) : Prop :=
  F.leb (fst r) x = true /\ F.leb x (snd r) = true.

(** Pointwise [<=] of two full parameter vectors. *)
Definition pointwise_le (a b : vec) : Prop :=
  Forall2 (fun x y => F.leb x y = true) a b.

(** ** A simulator to run the estimator on

    The model [dx/dt = 0]: the trajectory stays at the initial condition
    (at the stored one when [integrate] receives none), whatever the
    kinetic parameters. *)

Record constant_model : Type := {
  cm_params : vec;
  cm_x0 : vec;
  cm_t : vec;
  cm_x : matrix
}.

#[export] Instance constant_model_simulator : Simulator constant_model := {
  set_params := fun p s =>
    {| cm_params := p; cm_x0 := cm_x0 s; cm_t := cm_t s; cm_x := cm_x s |};
  integrate := fun t x0 _ s =>
    let x0' := match x0 with Some x => x | None => cm_x0 s end in
    {| cm_params := cm_params s; cm_x0 := x0'; cm_t := t;
       cm_x := map (fun _ => x0') t |};
  sim_x := cm_x;
  set_x := fun X s =>
    {| cm_params := cm_params s; cm_x0 := cm_x0 s; cm_t := cm_t s; cm_x := X |};
  sim_t := cm_t;
  methods := fun _ => ["matrix"; "numerical"]%string;
  default_method := fun _ => "matrix"%string
}.

(** Its [fbar], for equal switching rates: the mean of the two rates. *)
Definition constant_model_fbar (s : constant_model) (x_a x_i : float64)
  : float64 :=
  F.div (F.add x_a x_i) (Fin 2).

Definition constant_model_at (x0 : vec) : constant_model :=
  {| cm_params := []; cm_x0 := x0; cm_t := []; cm_x := [] |}.

(** ** Reading the residual entry by entry *)

(** The method [f_lsq] integrates with: the requested one when the
    simulator supports it, its default otherwise. *)
Definition chosen_method {Sim} `{Simulator Sim} (sim : Sim)
    (method : option string) : string :=
  let m := match method with None => default_method sim | Some m => m end in
  if existsb (String.eqb m) (methods sim) then m else default_method sim.

(** Entry by entry combination of two arrays of one shape, flattened row
    after row. *)
Definition entrywise {A B C} (f : A -> B -> C)
    (X : list (list A)) (Y : list (list B)) : list C :=
  concat (map (fun rows =>
                 map (fun xy => f (fst xy) (snd xy))
                     (combine (fst rows) (snd rows)))
              (combine X Y)).

(** Two arrays have the same shape. *)
Definition same_shape {A B} (X : list (list A)) (Y : list (list B)) : Prop :=
  Forall2 (fun r r' => length r = length r') X Y.

(** One residual, as the specification words it: the simulated value
    goes through [log(x + 1)], a NaN becomes zero, and the datum is
    subtracted. *)
Definition residual (simulated datum : float64) : float64 :=
  match F.log (F.add simulated (Fin 1)) with
  | NaN => F.sub (Fin 0) datum
  | y => F.sub y datum
  end.

(** The target of the fit, as the specification words it: [log(x + 1)]
    of the datum. *)
Definition normalised_datum (datum : float64) : float64 :=
  F.log (F.add datum (Fin 1)).

(** Entry by entry combination of two arrays of one shape, shape kept. *)
Definition pairwise {A B C} (f : A -> B -> C)
    (X : list (list A)) (Y : list (list B)) : list (list C) :=
  map (fun rows =>
         map (fun xy => f (fst xy) (snd xy)) (combine (fst rows) (snd rows)))
      (combine X Y).

(** ** The Gaussian density over the reals *)

Definition Rsum (l : list R) : R := fold_right Rplus 0 l.




(** A deviation with zero replaced by one. *)
Definition nonzero_sigma (s : R) : R := if Req_dec_T s 0 then 1 else s.

(** The same on doubles, as the specification words it: the value 1 in
    place of a zero, anything else as it is. *)
Definition one_for_zero (s : float64) : float64 :=
  match s with
  | Fin r => Fin (nonzero_sigma r)
  | _ => s
  end.

(** ** The chi-square statistic over the reals *)

Definition float64_eq_dec (x y : float64) : {x = y} + {x <> y}.
Proof. decide equality. apply Req_dec_T. Defined.

(** Number of distinct values in a time vector. *)
Definition distinct_count (t : vec) : nat :=
  length (nodup float64_eq_dec t).

(** Every row has [k] entries. *)
Definition rectangular {A} (k : nat) (X : list (list A)) : Prop :=
  Forall (fun row => length row = k) X.

(** Largest entry of a row. *)
Definition row_maximum (row : list R) : R :=
  fold_left Rmax (tl row) (hd 0 row).

(** Every row divided by its own scale. *)
Definition rescaled (X : list (list R)) (scale : list R) : list (list R) :=
  map (fun rs => map (fun x => x / snd rs) (fst rs)) (combine X scale).

(** Pearson's statistic: the sum over entries of
    [(observed - expected)^2 / expected]. *)
Definition chi_square (O E : list (list R)) : R :=
  Rsum (entrywise (fun o e => (o - e) ^ 2 / e) O E).

(** A column of the transposed array divided entry by entry by the
    scales. *)
Definition column_over (scale col : list R) : list R :=
  map (fun xy => fst xy / snd xy) (combine col scale).

(** ** Reading an assembled vector back *)

(** The entries of a full vector at the positions whose range is free, in
    order. *)
Definition free_values (rs : list range) (full : vec) : vec :=
  map snd (filter (fun rx => negb (is_fixed (fst rx))) (combine rs full)).

(** ** Contracts of methods *)

(** Started in a state where [P] holds, the method returns a value and a
    state related by [Q], or raises in a state where [E] holds. *)
Definition triple {St A} (P : St -> Prop) (m : Py St A)
    (Q : A -> St -> Prop) (E : St -> Prop) : Prop :=
  forall s, P s ->
    match m s with
    | Returns a s' _ => Q a s'
    | Raises _ s' _ => E s'
    end.

(** What [fit_lsq] stores on the object. *)
Definition stored_fit {Sim} (s : kinetic_estimation Sim)
  : option vec * option float64 :=
  (popt s, cost s).

(** ** Sampling from the declared ranges *)

(** A draw of [np.random.rand], from the interval [[0, 1)]. *)
Definition unit_draw (x : float64) : Prop :=
  exists r, x = Fin r /\ 0 <= r < 1.

(** A value is not below the low end of its range. *)
Definition at_least_low (r : range) (x : float64) : Prop :=
  F.leb (fst r) x = true.

(** A range of finite ends, the low one first. *)
Definition finite_range (r : range) : Prop :=
  exists lo hi, r = (Fin lo, Fin hi) /\ lo <= hi.

(** ** An optimiser to run [fit_lsq] with

    It evaluates the residual at the start and stays there; the cost is
    half the sum of squares, as [least_squares] reports it. *)
Definition stay_put {Sim}
    (f : vec -> Py (kinetic_estimation Sim) vec) (x0 : vec)
    (bounds : vec * vec) : Py (kinetic_estimation Sim) (vec * float64) :=
  r <~ f x0 ;;
  PyM.ret (x0, F.mul (Fin 0.5) (F.dot r r)).

(** ** The warning of [f_lsq] *)

(** The warnings [f_lsq] emits on a simulator that declares its methods:
    one when the requested method is not among them, naming the first
    declared method. *)
Definition method_warnings {Sim} `{Simulator Sim} (sim : Sim)
    (method : option string) : list string :=
  let m := match method with None => default_method sim | Some m => m end in
  if existsb (String.eqb m) (methods sim) then []
  else [unsupported_method_warning m (hd EmptyString (methods sim))].

(** ** Accessors of the kinetics estimators *)

Section Kinetics.

Context {Sim : Type} `{Simulator Sim}.

(** [np.log(2) / x] *)
Definition half_life (x : float64) : float64 := F.div (F.log (Fin 2)) x.

(** [Estimation_MomentKin]: [get_beta], [get_gamma] and the half-lives *)
Definition MomentKin_get_beta (self : kinetic_estimation Sim) :=
  popt_item self 4.
Definition MomentKin_get_gamma (self : kinetic_estimation Sim) :=
  popt_item self 5.
Definition MomentKin_calc_spl_half_life (self : kinetic_estimation Sim)
  : result float64 :=
  x <- MomentKin_get_beta self ;; Ok (half_life x).
Definition MomentKin_calc_deg_half_life (self : kinetic_estimation Sim)
  : result float64 :=
  x <- MomentKin_get_gamma self ;; Ok (half_life x).

(** The argument [x0] of [Estimation_DeterministicKinNosp]: a scalar, or
    an array of ranges. *)
Inductive x0_arg : Type :=
| X0_scalar (x : float64)
| X0_ranges (rs : list range).

(** [Estimation_DeterministicKinNosp.__init__]: a scalar [x0] becomes
    the single row [np.ones((1, 2)) * x0]. *)
Definition Estimation_DeterministicKinNosp_init (alpha gamma : bound_arg)
    (x0 : x0_arg) (sim : Sim) : kinetic_estimation Sim :=
  init (map as_range [alpha; gamma])
    (match x0 with
     | X0_scalar x => [(F.mul (Fin 1) x, F.mul (Fin 1) x)]
     | X0_ranges rs => rs
     end)
    sim.

Definition DeterministicKinNosp_get_alpha (self : kinetic_estimation Sim) :=
  popt_item self 0.
Definition DeterministicKinNosp_get_gamma (self : kinetic_estimation Sim) :=
  popt_item self 1.
Definition DeterministicKinNosp_calc_half_life
    (self : kinetic_estimation Sim) : result float64 :=
  x <- DeterministicKinNosp_get_gamma self ;; Ok (half_life x).

End Kinetics.

(** ** [Estimation_MomentDegNosp.auto_fit] *)

Section AutoFit.

Context {Sim : Type} `{Simulator Sim}.

(** [Moments_NoSwitchingNoSplicing()], a fresh simulator *)
Variable fresh : Sim.

(** A row [[0, 1e2 * x]] *)
Definition hundredfold (x : float64) : range := (Fin 0, F.mul (Fin 1e2) x).

(** The statements of [auto_fit] before the fit: the guesses, the bounds
    built from them, the estimator initialised anew, and the start
    [np.hstack((ga0, x0))]. *)
Definition MomentDegNosp_auto_fit_setup (time : vec) (x_data : matrix)
  : result (Estimation_Degradation Sim * vec) :=
  row0 <- getitem x_data 0 ;;
  ga0 <- guestimate_gamma row0 time ;;
  x0 <- guestimate_init_cond x_data ;;
  let gamma_bound := Bounds (Fin 0) (F.mul (Fin 1e2) ga0) in
  let x0_bound := map hundredfold x0 in
  Ok (DeterministicDegNosp_initialize gamma_bound x0_bound fresh,
      ga0 :: x0).

Variable lhsclassic : nat -> nat -> matrix.
Variable rand : nat -> float64.
Variable least_squares :
  (vec -> Py (kinetic_estimation Sim) vec) -> vec -> vec * vec ->
  Py (kinetic_estimation Sim) (vec * float64).

(** [auto_fit]: the object is initialised anew, then fitted from the
    guessed start. *)
Definition MomentDegNosp_auto_fit (time : vec) (x_data : matrix)
    (sample_method : string) (method : option string) (normalize : bool)
  : Py (Estimation_Degradation Sim) (vec * float64) :=
  fun self =>
    match MomentDegNosp_auto_fit_setup time x_data with
    | Raise e => Raises e self []
    | Ok (self', p0) =>
        match fit_lsq extract_data_from_simulator lhsclassic rand
                least_squares time x_data (Some (One p0)) 1 None
                sample_method method normalize (estimation self') with
        | Returns r s w =>
            Returns r {| kin_param_keys := kin_param_keys self';
                         estimation := s |} w
        | Raises e s w =>
            Raises e {| kin_param_keys := kin_param_keys self';
                        estimation := s |} w
        end
    end.

End AutoFit.

(** ** [Mixture_KinDeg_NoSwitching._initialize] *)

Section Mixture.

Context {Sim : Type} `{Simulator Sim}.

(** [ranges[i] = x]: numpy copies a pair and repeats a scalar. *)
Definition as_row (b : bound_arg) : range :=
  match b with
  | Scalar x => (x, x)
  | Bounds low high => (low, high)
  end.

(** [_initialize]; [n_species] is [model1.n_species] and [model] the
    [MixtureModels] simulator built from the two models.  Row 1 of
    [ranges] is never assigned and keeps its zeros; the initial
    conditions of the first model are stacked as rows of zeros on top of
    [x0]. *)
Definition Mixture_KinDeg_NoSwitching_initialize (n_species : nat)
    (alpha gamma : bound_arg) (x0 : list range) (beta : option bound_arg)
    (model : Sim) : kinetic_estimation Sim :=
  let ranges :=
    match beta with
    | None => [as_row alpha; (Fin 0, Fin 0); as_row gamma]
    | Some b => [as_row alpha; (Fin 0, Fin 0); as_row b; as_row gamma]
    end in
  init ranges (pinned n_species ++ x0) model.

End Mixture.

(** * Properties *)

(** ** Comparisons of reals *)

Lemma Reqb_true (a b : R) : Reqb a b = true <-> a = b.
Proof. unfold Reqb; destruct (Req_dec_T a b); split; congruence. Qed.

Lemma Reqb_refl (a : R) : Reqb a a = true.
Proof. now apply Reqb_true. Qed.

Lemma Reqb_false (a b : R) : Reqb a b = false <-> a <> b.
Proof. unfold Reqb; destruct (Req_dec_T a b); split; congruence. Qed.

Lemma Rltb_true (a b : R) : Rltb a b = true <-> a < b.
Proof. unfold Rltb; destruct (Rlt_dec a b); split; congruence. Qed.

Lemma Rltb_false (a b : R) : Rltb a b = false <-> b <= a.
Proof.
  unfold Rltb; destruct (Rlt_dec a b); split; try congruence; lra.
Qed.

Lemma Rleb_true (a b : R) : Rleb a b = true <-> a <= b.
Proof. unfold Rleb; destruct (Rle_dec a b); split; congruence. Qed.

Lemma Rleb_false (a b : R) : Rleb a b = false <-> b < a.
Proof.
  unfold Rleb; destruct (Rle_dec a b); split; try congruence; lra.
Qed.

(** Decides the comparisons of real constants met while evaluating. *)
Ltac Rdecide :=
  unfold Reqb, Rltb, Rleb;
  repeat match goal with
    | |- context [Req_dec_T ?a ?b] => destruct (Req_dec_T a b); try lra
    | |- context [Rlt_dec ?a ?b] => destruct (Rlt_dec a b); try lra
    | |- context [Rle_dec ?a ?b] => destruct (Rle_dec a b); try lra
    end.

(** ** Effects *)

Section Preservation.

Context {St : Type} (I : St -> Prop).

Lemma preserves_ret {A} (a : A) : preserves I (PyM.ret a).
Proof. intros s Hs; exact Hs. Qed.

Lemma preserves_lift {A} (r : result A) : preserves I (PyM.lift r).
Proof. intros s Hs; destruct r; exact Hs. Qed.

Lemma preserves_get : preserves I PyM.get.
Proof. intros s Hs; exact Hs. Qed.

Lemma preserves_warn msg : preserves I (PyM.warn msg).
Proof. intros s Hs; exact Hs. Qed.

Lemma preserves_bind {A B} (m : Py St A) (k : A -> Py St B) :
  preserves I m -> (forall a, preserves I (k a)) -> preserves I (PyM.bind m k).
Proof.
  intros Hm Hk s Hs. unfold PyM.bind.
  specialize (Hm s Hs). destruct (m s) as [a s' w | e s' w]; simpl in *.
  - specialize (Hk a s' Hm). destruct (k a s'); exact Hk.
  - exact Hm.
Qed.

End Preservation.

Create HintDb effects.

#[export] Hint Resolve preserves_ret preserves_lift preserves_get
  preserves_warn : effects.

(** Splits a chain of binds into its steps, closing each with the lemmas
    already known. *)
Ltac chain :=
  first
    [ solve [ auto with effects ]
    | apply preserves_bind; [ chain | intro; chain ]
    | match goal with
      | |- preserves _ (match ?x with _ => _ end) => destruct x; chain
      end
    | progress cbv zeta; chain
    | idtac ].

(** ** The partition is settled by the constructor *)

Section PartitionKept.

Context {Sim : Type} `{Simulator Sim}.

Variable c : list range * vec * nat * nat * nat.

Let I (s : kinetic_estimation Sim) : Prop := partition s = c.

Lemma update_simulator_keeps f : preserves I (update_simulator f).
Proof. intros s Hs; exact Hs. Qed.

Lemma with_fit_keeps x y :
  preserves I (fun s : kinetic_estimation Sim =>
                 Returns tt (with_fit x y s) []).
Proof. intros s Hs; exact Hs. Qed.

Hint Resolve update_simulator_keeps with_fit_keeps : effects.

Lemma set_params_keeps params : preserves I (set_params_m params).
Proof. unfold set_params_m; chain. Qed.

Lemma resolve_method_keeps method : preserves I (resolve_method method).
Proof. unfold resolve_method; chain. Qed.

Hint Resolve set_params_keeps resolve_method_keeps : effects.

Lemma f_lsq_keeps ex params t x_data method normalize :
  preserves I (f_lsq ex params t x_data method normalize).
Proof. unfold f_lsq; chain. Qed.

Lemma fit_loop_keeps ls f bounds p0 n :
  client ls -> (forall p, preserves I (f p)) ->
  forall i, preserves I (fit_loop ls f bounds p0 i n).
Proof.
  intros Hls Hf; induction n as [| n IH]; intro i; simpl.
  - auto with effects.
  - chain.
Qed.

Lemma fit_lsq_keeps ex lhs rand ls t x_data p0 n_p0 bounds sample_method
    method normalize :
  client ls ->
  preserves I (fit_lsq ex lhs rand ls t x_data p0 n_p0 bounds sample_method
                 method normalize).
Proof.
  intro Hls; unfold fit_lsq.
  assert (Hloop : forall b p0 i n,
             preserves I (fit_loop ls (fit_objective ex t x_data method
                                         normalize) b p0 i n)).
  { intros; apply fit_loop_keeps; [ exact Hls | ].
    intro p; apply f_lsq_keeps. }
  chain.
Qed.

Lemma test_chi2_keeps cdf t x_data species method normalize :
  preserves I (test_chi2 cdf t x_data species method normalize).
Proof.
  unfold test_chi2; chain.
Qed.

End PartitionKept.

Lemma call_keeps_partition {Sim} `{Simulator Sim}
    (s s' : kinetic_estimation Sim) :
  call s s' -> partition s' = partition s.
Proof.
  intro Hc; destruct Hc as [ s ? | s ? ? ? ? ? ? | s ? ? ? ? ? ? ? ? ? ? ? ? Hls | s ? ? ? ? ? ? ].
  - now apply (set_params_keeps (partition s)).
  - now apply (f_lsq_keeps (partition s)).
  - now apply (fit_lsq_keeps (partition s)).
  - now apply (test_chi2_keeps (partition s)).
Qed.

Lemma reachable_keeps_partition {Sim} `{Simulator Sim}
    (s0 s : kinetic_estimation Sim) :
  reachable s0 s -> partition s = partition s0.
Proof.
  induction 1 as [| s s' _ IH Hc].
  - reflexivity.
  - rewrite (call_keeps_partition _ _ Hc). exact IH.
Qed.

(** ** Fixed slots and free slots *)

Lemma float_eqb_eq (x y : float64) :
  F.eqb x y = true -> x = y /\ F.isnan x = false.
Proof.
  destruct x, y; simpl; try discriminate; auto.
  intro E; apply Reqb_true in E; subst; auto.
Qed.

Lemma fixed_slot_at (rs : list range) i lo hi :
  nth_error rs i = Some (lo, hi) -> F.eqb lo hi = true ->
  nth_error (fixed_slots rs) i = Some lo.
Proof.
  intros Hi E. unfold fixed_slots.
  rewrite nth_error_map, Hi; simpl.
  unfold is_fixed; simpl. now rewrite E.
Qed.

Lemma fixed_slots_length rs : length (fixed_slots rs) = length rs.
Proof. apply length_map. Qed.

Lemma count_nan_fixed_slots rs :
  count_nan (fixed_slots rs) = length (free_ranges rs).
Proof.
  unfold count_nan, fixed_slots, free_ranges.
  induction rs as [| r rs IH]; simpl; [ reflexivity | ].
  destruct (is_fixed r) eqn:E; simpl.
  - unfold is_fixed in E. apply float_eqb_eq in E as [_ ->]. exact IH.
  - now rewrite IH.
Qed.

Lemma fill_nan_length p : forall vals, length (fill_nan p vals) = length p.
Proof.
  induction p as [| x p IH]; intro vals; simpl; [ reflexivity | ].
  destruct (F.isnan x); [ destruct vals | ]; simpl; now rewrite IH.
Qed.

Lemma fill_nan_keeps p : forall vals i x,
  nth_error p i = Some x -> F.isnan x = false ->
  nth_error (fill_nan p vals) i = Some x.
Proof.
  induction p as [| y p IH]; intros vals i x Hi Hx.
  - destruct i; discriminate.
  - destruct i as [| i]; simpl in *.
    + injection Hi as ->. now rewrite Hx.
    + destruct (F.isnan y); [ destruct vals | ]; simpl; now apply IH.
Qed.

Lemma assign_where_nan_keeps p vals q i x :
  assign_where_nan p vals = Ok q ->
  nth_error p i = Some x -> F.isnan x = false ->
  nth_error q i = Some x.
Proof.
  unfold assign_where_nan. intros Hq Hi Hx.
  assert (Hfill : forall l, (if Nat.eqb (length l) (count_nan p)
                             then Ok (fill_nan p l) else Raise ValueError)
                            = Ok q -> nth_error q i = Some x).
  { intros l Hl. destruct (Nat.eqb (length l) (count_nan p)); [ | discriminate ].
    injection Hl as <-. now apply fill_nan_keeps. }
  destruct vals as [| v [| v' vals]]; try (now apply Hfill in Hq).
  injection Hq as <-. rewrite nth_error_map, Hi. simpl. now rewrite Hx.
Qed.

Lemma assign_where_nan_total p vals :
  length vals = count_nan p ->
  exists q, assign_where_nan p vals = Ok q /\ length q = length p.
Proof.
  intro Hlen. unfold assign_where_nan.
  destruct vals as [| v [| v' vals]].
  - rewrite <- Hlen. simpl. eexists; split; [ reflexivity | apply fill_nan_length ].
  - eexists; split; [ reflexivity | apply length_map ].
  - rewrite <- Hlen, Nat.eqb_refl.
    eexists; split; [ reflexivity | apply fill_nan_length ].
Qed.

Section Assembly.

Context {Sim : Type} `{Simulator Sim}.

Lemma assemble_kin_params_partition (s s' : kinetic_estimation Sim) v :
  partition s = partition s' ->
  assemble_kin_params s v = assemble_kin_params s' v.
Proof.
  unfold partition, assemble_kin_params. intro E.
  injection E as _ -> -> -> _. reflexivity.
Qed.

Lemma assemble_x0_partition (s s' : kinetic_estimation Sim) v :
  partition s = partition s' ->
  assemble_x0 s v = assemble_x0 s' v.
Proof.
  unfold partition, assemble_x0. intro E.
  injection E as _ -> -> -> _. reflexivity.
Qed.

Variables (param_ranges x0_ranges : list range) (sim : Sim).

Lemma init_kin_slots :
  slice_to (n_tot_kin_params (init param_ranges x0_ranges sim))
    (fixed_parameters (init param_ranges x0_ranges sim))
  = fixed_slots param_ranges.
Proof.
  simpl. unfold slice_to.
  rewrite firstn_app, fixed_slots_length, Nat.sub_diag, firstn_O, app_nil_r.
  apply firstn_all2. now rewrite fixed_slots_length.
Qed.

Lemma init_x0_slots :
  slice_from (n_tot_kin_params (init param_ranges x0_ranges sim))
    (fixed_parameters (init param_ranges x0_ranges sim))
  = fixed_slots x0_ranges.
Proof.
  simpl. unfold slice_from.
  rewrite skipn_app, fixed_slots_length, Nat.sub_diag, skipn_O.
  rewrite skipn_all2; [ reflexivity | now rewrite fixed_slots_length ].
Qed.

Lemma init_kin_values (v : vec) :
  length v = n_params (init param_ranges x0_ranges sim) ->
  length (slice_to (n_kin_params (init param_ranges x0_ranges sim)) v)
  = count_nan (fixed_slots param_ranges).
Proof.
  simpl. intro Hv. unfold slice_to.
  rewrite length_firstn, Hv, length_app, count_nan_fixed_slots. lia.
Qed.

Lemma init_x0_values (v : vec) :
  length v = n_params (init param_ranges x0_ranges sim) ->
  length (slice_from (n_kin_params (init param_ranges x0_ranges sim)) v)
  = count_nan (fixed_slots x0_ranges).
Proof.
  simpl. intro Hv. unfold slice_from.
  rewrite length_skipn, Hv, length_app, count_nan_fixed_slots. lia.
Qed.

End Assembly.

(** C1.  Whatever happens to an estimator after its construction, the
    partition into fixed and free parameters is the one the constructor
    computed; and for every free-parameter vector of the right length both
    [assemble_kin_params] and [assemble_x0] return a full vector that
    carries, at each position whose range has [low == high], exactly that
    value. *)
Theorem fixed_parameters_returned_exactly
    {Sim : Type} `{Simulator Sim}
    (param_ranges x0_ranges : list range) (sim : Sim)
    (s : kinetic_estimation Sim) (v : vec) :
  reachable (init param_ranges x0_ranges sim) s ->
  length v = n_params s ->
  partition s = partition (init param_ranges x0_ranges sim)
  /\ (exists p,
         assemble_kin_params s v = Ok p
         /\ length p = length param_ranges
         /\ forall i low high,
              nth_error param_ranges i = Some (low, high) ->
              F.eqb low high = true ->
              nth_error p i = Some low)
  /\ (exists q,
         assemble_x0 s v = Ok q
         /\ length q = length x0_ranges
         /\ forall i low high,
              nth_error x0_ranges i = Some (low, high) ->
              F.eqb low high = true ->
              nth_error q i = Some low).
Proof.
  intros Hreach Hv.
  pose proof (reachable_keeps_partition _ _ Hreach) as Hpart.
  assert (Hv0 : length v = n_params (init param_ranges x0_ranges sim)).
  { rewrite Hv. unfold partition in Hpart. now injection Hpart. }
  split; [ exact Hpart | split ].
  - rewrite (assemble_kin_params_partition _ _ v Hpart).
    unfold assemble_kin_params. rewrite init_kin_slots.
    destruct (assign_where_nan_total (fixed_slots param_ranges)
                (slice_to (n_kin_params (init param_ranges x0_ranges sim)) v))
      as (p & Hp & Hlen).
    { now apply init_kin_values. }
    exists p. split; [ exact Hp | split ].
    + now rewrite Hlen, fixed_slots_length.
    + intros i low high Hi E.
      apply (assign_where_nan_keeps _ _ _ _ _ Hp).
      * now apply fixed_slot_at with high.
      * now apply float_eqb_eq in E.
  - rewrite (assemble_x0_partition _ _ v Hpart).
    unfold assemble_x0. rewrite init_x0_slots.
    destruct (assign_where_nan_total (fixed_slots x0_ranges)
                (slice_from (n_kin_params (init param_ranges x0_ranges sim)) v))
      as (q & Hq & Hlen).
    { now apply init_x0_values. }
    exists q. split; [ exact Hq | split ].
    + now rewrite Hlen, fixed_slots_length.
    + intros i low high Hi E.
      apply (assign_where_nan_keeps _ _ _ _ _ Hq).
      * now apply fixed_slot_at with high.
      * now apply float_eqb_eq in E.
Qed.

Lemma fixed_parameters_returned_exactly_witness :
  let s0 := init [(Fin 0, Fin 0); (Fin 0, Fin 1)] [(Fin 10, Fin 10)]
              (constant_model_at [Fin 10]) in
  let s := final (set_params_m [Fin 0.5] s0) in
  (reachable s0 s /\ length [Fin 0.5] = n_params s)
  /\ exists p, assemble_kin_params s [Fin 0.5] = Ok p
               /\ nth_error p 0 = Some (Fin 0).
Proof.
  intros s0 s.
  assert (Hr : reachable s0 s).
  { apply reach_call with s0; [ apply reach_init | apply call_set_params ]. }
  assert (Hn : length [Fin 0.5] = n_params s).
  { pose proof (reachable_keeps_partition _ _ Hr) as E.
    unfold partition in E. injection E as _ _ _ _ ->.
    simpl. unfold is_fixed; simpl. Rdecide. reflexivity. }
  split; [ now split | ].
  destruct (fixed_parameters_returned_exactly
              [(Fin 0, Fin 0); (Fin 0, Fin 1)] [(Fin 10, Fin 10)]
              (constant_model_at [Fin 10]) s [Fin 0.5] Hr Hn)
    as (_ & (p & Hp & _ & Hfix) & _).
  exists p. split; [ exact Hp | ].
  apply (Hfix 0%nat (Fin 0) (Fin 0)); [ reflexivity | ].
  simpl. apply Reqb_refl.
Defined.

(** ** Bounds and assembled vectors *)

Lemma leb_refl (x : float64) : F.isnan x = false -> F.leb x x = true.
Proof.
  destruct x; simpl; try reflexivity; try discriminate.
  intros _. apply Rleb_true. lra.
Qed.

Lemma get_bound_loop_low (rs : list range) :
  get_bound_loop rs (length rs) 0 = Ok (map fst rs).
Proof.
  induction rs as [| r rs IH]; simpl; [ reflexivity | ].
  now rewrite IH.
Qed.

Lemma get_bound_loop_high (rs : list range) :
  get_bound_loop rs (length rs) 1 = Ok (map snd rs).
Proof.
  induction rs as [| r rs IH]; simpl; [ reflexivity | ].
  now rewrite IH.
Qed.

Section Related.

(** Two value lists related entry by entry give related assembled
    vectors, as long as the relation holds of every kept entry with
    itself. *)
Variable Rel : float64 -> float64 -> Prop.
Hypothesis Rel_kept : forall x, F.isnan x = false -> Rel x x.

Lemma fill_nan_related p : forall a b,
  Forall2 Rel a b -> length a = count_nan p ->
  Forall2 Rel (fill_nan p a) (fill_nan p b).
Proof.
  unfold count_nan.
  induction p as [| x p IH]; intros a b Hab Hlen; simpl; [ constructor | ].
  simpl in Hlen. destruct (F.isnan x) eqn:Ex; simpl in Hlen.
  - revert Hlen. destruct Hab as [| u v a b Huv Hab]; intro Hlen;
      [ discriminate | ].
    constructor; [ exact Huv | ].
    apply IH; [ exact Hab | ]. simpl in Hlen. lia.
  - constructor; [ now apply Rel_kept | now apply IH ].
Qed.

Lemma assign_where_nan_related p a b qa qb :
  Forall2 Rel a b ->
  assign_where_nan p a = Ok qa -> assign_where_nan p b = Ok qb ->
  Forall2 Rel qa qb.
Proof.
  intros Hab. unfold assign_where_nan.
  destruct Hab as [| u v a b Huv Hab]; intros Ha Hb.
  - cbn [length] in *.
    destruct (Nat.eqb 0 (count_nan p)) eqn:E; [ | discriminate ].
    injection Ha as <-. injection Hb as <-.
    apply fill_nan_related; [ constructor | ].
    apply Nat.eqb_eq in E. exact E.
  - revert Ha Hb. destruct Hab as [| u' v' a b Huv' Hab]; intros Ha Hb.
    + injection Ha as <-. injection Hb as <-.
      induction p as [| x p IH]; simpl; constructor; [ | exact IH ].
      destruct (F.isnan x) eqn:Ex; [ exact Huv | now apply Rel_kept ].
    + destruct (Nat.eqb (length (u :: u' :: a)) (count_nan p)) eqn:E;
        [ | discriminate ].
      destruct (Nat.eqb (length (v :: v' :: b)) (count_nan p));
        [ | discriminate ].
      injection Ha as <-. injection Hb as <-.
      apply fill_nan_related.
      * repeat constructor; assumption.
      * now apply Nat.eqb_eq in E.
Qed.

End Related.

Lemma fixed_slots_of_free (rs : list range) :
  count_nan (fixed_slots rs) = length (map fst (free_ranges rs)).
Proof. now rewrite length_map, count_nan_fixed_slots. Qed.

Lemma within_split (rs1 rs2 : list range) (v : vec) :
  Forall2 within (rs1 ++ rs2) v ->
  Forall2 within rs1 (firstn (length rs1) v).
Proof.
  intro Hv. apply Forall2_app_inv_l in Hv as (v1 & v2 & H1 & _ & ->).
  rewrite (Forall2_length H1), firstn_app, Nat.sub_diag, firstn_O, app_nil_r.
  now rewrite firstn_all.
Qed.

Lemma Forall2_map_l {A B C} (P : B -> C -> Prop) (f : A -> B) l l' :
  Forall2 (fun x y => P (f x) y) l l' -> Forall2 P (map f l) l'.
Proof. induction 1; simpl; constructor; assumption. Qed.

Lemma Forall2_map_r {A B C} (P : C -> B -> Prop) (f : A -> B) l l' :
  Forall2 (fun y x => P y (f x)) l' l -> Forall2 P l' (map f l).
Proof. induction 1; simpl; constructor; assumption. Qed.

Section BoundsAtInit.

Context {Sim : Type} `{Simulator Sim}.

Lemma get_bound_partition (s s' : kinetic_estimation Sim) axis :
  partition s = partition s' -> get_bound s axis = get_bound s' axis.
Proof.
  unfold partition, get_bound. intro E.
  injection E as -> _ _ _ ->. reflexivity.
Qed.

Variables (param_ranges x0_ranges : list range) (sim : Sim).

Let s0 := init param_ranges x0_ranges sim.

Lemma init_get_bound_low : get_bound s0 0 = Ok (map fst (ranges s0)).
Proof. apply get_bound_loop_low. Qed.

Lemma init_get_bound_high : get_bound s0 1 = Ok (map snd (ranges s0)).
Proof. apply get_bound_loop_high. Qed.

Lemma init_assemble_kin (vals : vec) :
  assemble_kin_params s0 vals
  = assign_where_nan (fixed_slots param_ranges)
      (firstn (length (free_ranges param_ranges)) vals).
Proof.
  unfold assemble_kin_params. unfold s0 at 1 2. now rewrite init_kin_slots.
Qed.

Lemma init_kin_prefix {A} (f : range -> A) :
  firstn (length (free_ranges param_ranges)) (map f (ranges s0))
  = map f (free_ranges param_ranges).
Proof.
  simpl.
  rewrite map_app, firstn_app, length_map, Nat.sub_diag, firstn_O, app_nil_r.
  apply firstn_all2. now rewrite length_map.
Qed.

End BoundsAtInit.

(** C9, as amended.  The full vector assembled from the lower bounds is
    pointwise below the one assembled from any free-parameter vector lying
    within the bounds, which is in turn pointwise below the one assembled
    from the upper bounds. *)
Theorem bounds_enclose_assembled_parameters
    {Sim : Type} `{Simulator Sim}
    (param_ranges x0_ranges : list range) (sim : Sim)
    (s : kinetic_estimation Sim) (v : vec) :
  reachable (init param_ranges x0_ranges sim) s ->
  Forall2 within (ranges s) v ->
  exists blo bhi lo p hi,
    get_bound s 0 = Ok blo /\ get_bound s 1 = Ok bhi
    /\ assemble_kin_params s blo = Ok lo
    /\ assemble_kin_params s v = Ok p
    /\ assemble_kin_params s bhi = Ok hi
    /\ pointwise_le lo p /\ pointwise_le p hi.
Proof.
  intros Hreach Hv.
  pose proof (reachable_keeps_partition _ _ Hreach) as Hpart.
  assert (Hr : ranges s = ranges (init param_ranges x0_ranges sim)).
  { unfold partition in Hpart. now injection Hpart. }
  rewrite Hr in Hv.
  rewrite !(get_bound_partition _ _ _ Hpart).
  rewrite init_get_bound_low, init_get_bound_high.
  pose proof (within_split _ _ _ Hv) as Hkin.
  set (kin := free_ranges param_ranges) in *.
  set (vk := firstn (length kin) v) in *.
  destruct (assign_where_nan_total (fixed_slots param_ranges) (map fst kin))
    as (lo & Elo & _).
  { rewrite length_map. symmetry. apply count_nan_fixed_slots. }
  destruct (assign_where_nan_total (fixed_slots param_ranges) (map snd kin))
    as (hi & Ehi & _).
  { rewrite length_map. symmetry. apply count_nan_fixed_slots. }
  destruct (assign_where_nan_total (fixed_slots param_ranges) vk)
    as (p & Ep & _).
  { rewrite <- (Forall2_length Hkin). symmetry. apply count_nan_fixed_slots. }
  exists (map fst (ranges (init param_ranges x0_ranges sim))),
         (map snd (ranges (init param_ranges x0_ranges sim))), lo, p, hi.
  rewrite !(assemble_kin_params_partition _ _ _ Hpart).
  rewrite !init_assemble_kin, !init_kin_prefix.
  fold kin vk.
  repeat split; try assumption.
  - apply (assign_where_nan_related _ leb_refl _ _ _ _ _) with (3 := Ep) (2 := Elo).
    apply Forall2_map_l.
    eapply Forall2_impl; [ | exact Hkin ]. intros r x [Hl _]. exact Hl.
  - apply (assign_where_nan_related _ leb_refl _ _ _ _ _) with (2 := Ep) (3 := Ehi).
    apply Forall2_map_r. apply Forall2_flip.
    eapply Forall2_impl; [ | exact Hkin ]. intros r x [_ Hh]. exact Hh.
Qed.

Lemma bounds_enclose_assembled_parameters_witness :
  let s := init [(Fin 2, Fin 2); (Fin 0, Fin 1)] []
             (constant_model_at []) in
  (reachable s s /\ Forall2 within (ranges s) [Fin 0.5])
  /\ exists lo p hi,
       assemble_kin_params s [Fin 0.5] = Ok p
       /\ pointwise_le lo p /\ pointwise_le p hi.
Proof.
  intro s.
  assert (Hin : Forall2 within (ranges s) [Fin 0.5]).
  { unfold s, init, free_ranges, is_fixed; simpl. Rdecide. simpl.
    repeat constructor; simpl; apply Rleb_true; lra. }
  split; [ split; [ apply reach_init | exact Hin ] | ].
  destruct (bounds_enclose_assembled_parameters
              [(Fin 2, Fin 2); (Fin 0, Fin 1)] [] (constant_model_at [])
              s [Fin 0.5] (reach_init _) Hin)
    as (blo & bhi & lo & p & hi & _ & _ & _ & Hp & _ & Hlo & Hhi).
  exists lo, p, hi. auto.
Defined.

(** C9 as stated fails: with the single free range [[0, 1]] and the sample
    0.5, the vector assembled from the lower bounds is [[0]], which is
    not pointwise above the assembled sample [[0.5]]. *)
Lemma lower_bound_vector_not_above_sample :
  let s := init [(Fin 0, Fin 1)] [] (constant_model_at []) in
  Forall2 within (ranges s) [Fin 0.5]
  /\ get_bound s 0 = Ok [Fin 0]
  /\ assemble_kin_params s [Fin 0] = Ok [Fin 0]
  /\ assemble_kin_params s [Fin 0.5] = Ok [Fin 0.5]
  /\ ~ pointwise_le [Fin 0.5] [Fin 0].
Proof.
  intro s.
  assert (Hfree : free_ranges [(Fin 0, Fin 1)] = [(Fin 0, Fin 1)]).
  { unfold free_ranges, is_fixed; simpl. Rdecide. reflexivity. }
  assert (Hslots : fixed_slots [(Fin 0, Fin 1)] = [NaN]).
  { unfold fixed_slots, is_fixed; simpl. Rdecide. reflexivity. }
  repeat split.
  - unfold s; cbn [init ranges]. rewrite Hfree.
    repeat constructor; simpl; apply Rleb_true; lra.
  - unfold s, get_bound; cbn [init ranges n_params]. rewrite Hfree.
    reflexivity.
  - unfold s. rewrite init_assemble_kin, Hfree, Hslots. reflexivity.
  - unfold s. rewrite init_assemble_kin, Hfree, Hslots. reflexivity.
  - intro Hle. inversion Hle as [| ? ? ? ? H1 _]; subst.
    simpl in H1. apply Rleb_true in H1. lra.
Qed.

(** ** Named accessors *)

Lemma ln_2_pos : 0 < ln 2.
Proof. pose proof ln_lt_2. lra. Qed.

Lemma log_2 : F.log (Fin 2) = Fin (ln 2).
Proof. simpl. Rdecide. reflexivity. Qed.

(** C2.  On a no-splicing degradation estimator with a free gamma in
    [[0, 1]] and a free initial condition in [[0, 10]], whose fit stored
    [[0.5, 7]]: the fitted gamma, as [get_opt_kin_params] assembles it, is
    0.5, yet [get_param('gamma')] indexes the free vector with gamma's rank
    among the keys and reads 7, the initial condition, while
    [get_param('alpha')] reads gamma; so [calc_half_life('gamma')] is
    [ln 2 / 7], not [ln 2 / 0.5]. *)
Theorem half_life_of_gamma_reads_the_initial_condition
    {Sim : Type} `{Simulator Sim} (sim : Sim) (c : float64) :
  let est := DeterministicDegNosp_initialize (Bounds (Fin 0) (Fin 1))
               [(Fin 0, Fin 10)] sim in
  let fitted := {| kin_param_keys := kin_param_keys est;
                   estimation := with_fit [Fin 0.5; Fin 7] c (estimation est) |} in
  n_params (estimation fitted) = 2%nat
  /\ get_opt_kin_params (estimation fitted) = Ok (Some [Fin 0; Fin 0.5])
  /\ get_param fitted "alpha" = Ok (Fin 0.5)
  /\ get_param fitted "gamma" = Ok (Fin 7)
  /\ calc_half_life fitted "gamma" = Ok (Fin (ln 2 / 7))
  /\ ln 2 / 7 <> ln 2 / 0.5.
Proof.
  intros est fitted.
  assert (Hget : get_param fitted "gamma" = Ok (Fin 7)) by reflexivity.
  split; [ | split; [ | split; [ reflexivity | split; [ | split ] ] ] ].
  - unfold fitted, est, DeterministicDegNosp_initialize,
      Estimation_Degradation_init.
    cbn [estimation with_fit n_params init as_range].
    unfold free_ranges, is_fixed; simpl. Rdecide. reflexivity.
  - unfold get_opt_kin_params, assemble_kin_params.
    unfold fitted, est, DeterministicDegNosp_initialize,
      Estimation_Degradation_init.
    cbn [estimation with_fit popt n_tot_kin_params n_kin_params
           fixed_parameters init as_range].
    unfold free_ranges, fixed_slots, is_fixed; simpl. Rdecide. reflexivity.
  - exact Hget.
  - unfold calc_half_life. rewrite Hget. cbn [bind]. rewrite log_2.
    simpl. Rdecide. reflexivity.
  - pose proof ln_2_pos. intro E.
    assert (E' : ln 2 * (/ 7) = ln 2 * (/ 0.5)) by exact E.
    apply Rmult_eq_reg_l in E'; lra.
Qed.

(** ** The alpha accessor of [Estimation_MomentKinNosp] *)

(** C10, as amended.  [get_alpha] never returns a value.  Without a stored
    fit it raises a type error; with one it raises an attribute error when
    the stored vector has at least three entries, and otherwise the index
    error of [get_alpha_a], before the attribute lookup is reached. *)
Theorem get_alpha_never_returns
    {Sim : Type} (fbar : Sim -> float64 -> float64 -> float64)
    (self : kinetic_estimation Sim) :
  MomentKinNosp_get_alpha fbar self
  = Raise (match popt self with
           | None => TypeError
           | Some x => if Nat.leb 3 (length x) then AttributeError
                       else IndexError
           end).
Proof.
  unfold MomentKinNosp_get_alpha, get_alpha_a, popt_item.
  destruct (popt self) as [x |]; [ | reflexivity ].
  destruct x as [| x0 [| x1 [| x2 x]]]; reflexivity.
Qed.

(** C10 as stated fails: an estimator whose only free parameter is gamma
    stores a one-entry fit, and [get_alpha] then raises an index error, not
    an attribute error. *)
Lemma get_alpha_index_error_on_short_fit :
  let self := with_fit [Fin 0.3] (Fin 0)
                (Estimation_MomentKinNosp_init
                   (Scalar (Fin 1)) (Scalar (Fin 1)) (Scalar (Fin 2))
                   (Scalar (Fin 0)) (Bounds (Fin 0) (Fin 1))
                   (constant_model_at [])) in
  n_params self = 1%nat
  /\ popt self = Some [Fin 0.3]
  /\ MomentKinNosp_get_alpha constant_model_fbar self = Raise IndexError
  /\ MomentKinNosp_get_alpha constant_model_fbar self
     <> Raise AttributeError.
Proof.
  intro self.
  assert (Hn : n_params self = 1%nat).
  { unfold self, Estimation_MomentKinNosp_init.
    cbn [with_fit n_params init]. unfold free_ranges, is_fixed, pinned.
    simpl. Rdecide. reflexivity. }
  split; [ exact Hn | ].
  split; [ reflexivity | ].
  split; [ reflexivity | discriminate ].
Qed.

(** ** Arithmetic on finite doubles *)

Lemma div_fin (a b : R) : b <> 0 -> F.div (Fin a) (Fin b) = Fin (a / b).
Proof. intro Hb. simpl. now rewrite (proj2 (Reqb_false b 0) Hb). Qed.

Lemma log_fin (a : R) : 0 < a -> F.log (Fin a) = Fin (ln a).
Proof.
  intro Ha. simpl.
  rewrite (proj2 (Rltb_false a 0)) by lra.
  rewrite (proj2 (Reqb_false a 0)) by lra. reflexivity.
Qed.


Lemma maximum_fin (a b : R) : F.maximum (Fin a) (Fin b) = Fin (Rmax a b).
Proof. simpl. unfold Rleb, Rmax. now destruct (Rle_dec a b). Qed.

Lemma minimum_fin (a b : R) : F.minimum (Fin a) (Fin b) = Fin (Rmin a b).
Proof. simpl. unfold Rleb, Rmin. now destruct (Rle_dec a b). Qed.

Lemma clip_fin (a lo hi : R) :
  F.clip (Fin a) (Fin lo) (Fin hi) = Fin (Rmin (Rmax a lo) hi).
Proof. unfold F.clip. now rewrite maximum_fin, minimum_fin. Qed.

Lemma clip_range (a lo hi : R) :
  lo <= hi -> lo <= Rmin (Rmax a lo) hi <= hi.
Proof.
  intro H. split.
  - apply Rmin_glb; [ apply Rmax_r | exact H ].
  - apply Rmin_r.
Qed.

(** ** Guess heuristics *)

Lemma getitem_first_fin (xs : list R) :
  xs <> [] -> getitem (map Fin xs) 0 = Ok (Fin (hd 0 xs)).
Proof. destruct xs; [ congruence | reflexivity ]. Qed.

Lemma last_item_fin (xs : list R) :
  xs <> [] -> last_item (map Fin xs) = Ok (Fin (last xs 0)).
Proof.
  intro Hne. unfold last_item.
  destruct (exists_last Hne) as (ys & y & ->).
  rewrite map_app, rev_app_distr, last_last. reflexivity.
Qed.

Lemma Forall_hd (P : R -> Prop) (xs : list R) :
  xs <> [] -> Forall P xs -> P (hd 0 xs).
Proof. destruct xs; [ congruence | ]. intros _ Hall. now inversion Hall. Qed.

Lemma Forall_last (P : R -> Prop) (xs : list R) :
  xs <> [] -> Forall P xs -> P (last xs 0).
Proof.
  intros Hne Hall. destruct (exists_last Hne) as (ys & y & ->).
  rewrite last_last. apply Forall_app in Hall as [_ Hy]. now inversion Hy.
Qed.

(** C6.  On a non-empty vector of positive reals [x] and a non-empty
    vector of positive times [t], [guestimate_gamma] returns
    [clip(ln(x[0] / (x[-1] + 1e-6)) / t[-1], 1e-3, 1e3)], a finite value
    between [1e-3] and [1e3]. *)
Theorem guestimate_gamma_clipped (xs ts : list R) :
  xs <> [] -> ts <> [] ->
  Forall (fun x => 0 < x) xs -> Forall (fun t => 0 < t) ts ->
  let g := Rmin (Rmax (ln (hd 0 xs / (last xs 0 + 1e-6)) / last ts 0) 1e-3)
             1e3 in
  guestimate_gamma (map Fin xs) (map Fin ts) = Ok (Fin g)
  /\ 1e-3 <= g <= 1e3.
Proof.
  intros Hx Ht Hxs Hts g.
  pose proof (Forall_hd _ _ Hx Hxs) as Hfirst.
  pose proof (Forall_last _ _ Hx Hxs) as Hlast.
  pose proof (Forall_last _ _ Ht Hts) as Htl.
  cbv beta in Hfirst, Hlast, Htl.
  split; [ | apply clip_range; lra ].
  unfold guestimate_gamma.
  rewrite (getitem_first_fin _ Hx), (last_item_fin _ Hx), (last_item_fin _ Ht).
  cbn [bind F.add].
  rewrite div_fin by lra.
  rewrite log_fin by (apply Rdiv_lt_0_compat; lra).
  rewrite div_fin by lra.
  now rewrite clip_fin.
Qed.

Lemma guestimate_gamma_clipped_witness :
  ([8; 2] <> [] /\ [1; 2] <> []
   /\ Forall (fun x => 0 < x) [8; 2] /\ Forall (fun t => 0 < t) [1; 2])
  /\ exists g, guestimate_gamma [Fin 8; Fin 2] [Fin 1; Fin 2] = Ok (Fin g)
               /\ 1e-3 <= g <= 1e3.
Proof.
  assert (Hx : [8; 2] <> []) by discriminate.
  assert (Ht : [1; 2] <> []) by discriminate.
  assert (Hxs : Forall (fun x => 0 < x) [8; 2]) by (repeat constructor; lra).
  assert (Hts : Forall (fun t => 0 < t) [1; 2]) by (repeat constructor; lra).
  split; [ auto | ].
  eexists. exact (guestimate_gamma_clipped [8; 2] [1; 2] Hx Ht Hxs Hts).
Defined.

(** ** Broadcasting on arrays of one shape *)

Lemma bcast1_same {A B C} (f : A -> B -> C) xs ys :
  length xs = length ys ->
  bcast1 f xs ys = Ok (map (fun xy => f (fst xy) (snd xy)) (combine xs ys)).
Proof. intro E. unfold bcast1. now rewrite E, Nat.eqb_refl. Qed.

Lemma bcast2_same {A B C} (f : A -> B -> C) X Y :
  same_shape X Y ->
  bcast2 f X Y
  = Ok (map (fun rows => map (fun xy => f (fst xy) (snd xy))
                           (combine (fst rows) (snd rows)))
            (combine X Y)).
Proof.
  intro Hs. unfold bcast2.
  rewrite bcast1_same by exact (Forall2_length Hs). cbn [bind].
  induction Hs as [| r r' X Y Hr Hs IH]; simpl; [ reflexivity | ].
  rewrite bcast1_same by exact Hr. cbn [bind]. now rewrite IH.
Qed.

Lemma same_shape_map_r {A B C} (g : B -> C) (X : list (list A)) Y :
  same_shape X Y -> same_shape X (map (map g) Y).
Proof.
  induction 1; simpl; constructor; [ now rewrite length_map | assumption ].
Qed.

(** ** The residual function *)

Lemma resolve_method_chooses {Sim : Type} `{Simulator Sim}
    method (s : kinetic_estimation Sim) :
  methods (simulator s) <> [] ->
  exists w,
    resolve_method method s
    = Returns (chosen_method (simulator s) method) s w.
Proof.
  intro Hm.
  unfold resolve_method, chosen_method, PyM.bind, PyM.get; simpl.
  destruct (existsb _ _); simpl; [ eexists; reflexivity | ].
  destruct (methods (simulator s)); [ congruence | ].
  simpl. eexists; reflexivity.
Qed.

Lemma scrubbed_is_residual (a b : float64) :
  F.sub (nan_to_zero (log1p a)) b = residual a b.
Proof.
  unfold residual, nan_to_zero, log1p.
  now destruct (F.log (F.add a (Fin 1))).
Qed.

Lemma residual_rows (X : matrix) : forall Y : matrix,
  map (fun rows =>
         map (fun xy => F.sub (fst xy) (snd xy))
             (combine (fst rows) (snd rows)))
      (combine (scrub_nan (normalize_data X)) Y)
  = pairwise residual X Y.
Proof.
  unfold scrub_nan, normalize_data, pairwise.
  induction X as [| r X IH]; intros [| d Y]; simpl; try reflexivity.
  f_equal; [ | apply IH ].
  clear. revert d. induction r as [| a r IHr]; intros [| b d];
    simpl; try reflexivity.
  f_equal; [ apply scrubbed_is_residual | apply IHr ].
Qed.

Lemma pairwise_on_target {A} (f : A -> float64 -> float64)
    (X : list (list A)) : forall Y : matrix,
  pairwise f X (normalize_data Y)
  = pairwise (fun a b => f a (normalised_datum b)) X Y.
Proof.
  unfold pairwise, normalize_data.
  induction X as [| r X IH]; intros [| d Y]; simpl; try reflexivity.
  f_equal; [ | apply IH ].
  clear. revert d. induction r as [| a r IHr]; intros [| b d];
    simpl; try reflexivity.
  f_equal. apply IHr.
Qed.

(** C4.  With normalisation on, on a simulator that declares its
    methods, and data of the shape of the extracted trajectory, [f_lsq]
    returns, flattened row after row, one entry per simulated value: the
    logarithm of the value plus one, or zero where that is NaN, minus the
    datum.  The function [fit_lsq] minimises is the same with the
    logarithm of the datum plus one in place of the datum, the transform
    applied to the simulated values. *)
Theorem f_lsq_is_normalised_residual
    {Sim : Type} `{Simulator Sim}
    (ex : extractor Sim) (s : kinetic_estimation Sim)
    (params t p x0 : vec) (x_data : matrix) (method : option string) :
  methods (simulator s) <> [] ->
  assemble_kin_params s params = Ok p ->
  assemble_x0 s params = Ok x0 ->
  let sim' := integrate t (Some x0)
                (Some (chosen_method (simulator s) method))
                (set_params p (simulator s)) in
  let traj := extract ex sim' in
  same_shape traj x_data ->
  (exists w,
      f_lsq ex params t x_data method true s
      = Returns (entrywise residual traj x_data) (with_simulator sim' s) w)
  /\ (exists w,
         fit_objective ex t x_data method true params s
         = Returns
             (entrywise (fun a b => residual a (normalised_datum b))
                traj x_data)
             (with_simulator sim' s) w).
Proof.
  intros Hmethods Hp Hx0 sim' traj Hshape.
  destruct (resolve_method_chooses method s Hmethods) as (w & Hm).
  assert (Hf : forall data : matrix,
             same_shape traj data ->
             f_lsq ex params t data method true s
             = Returns (entrywise residual traj data)
                 (with_simulator sim' s) (w ++ [])).
  { intros data Hd. unfold f_lsq.
    unfold PyM.bind at 1. rewrite Hm.
    unfold set_params_m, update_simulator, PyM.bind, PyM.get, PyM.lift,
      PyM.ret.
    rewrite Hp. cbn [simulator with_simulator].
    change (assemble_x0 (with_simulator (set_params p (simulator s)) s) params)
      with (assemble_x0 s params).
    rewrite Hx0. cbn [simulator with_simulator].
    fold sim'. fold traj.
    assert (Hsub : bcast2 F.sub (scrub_nan (normalize_data traj)) data
                   = Ok (pairwise residual traj data)).
    { rewrite <- residual_rows. apply bcast2_same.
      unfold scrub_nan, normalize_data.
      clear - Hd. induction Hd; simpl; constructor;
        [ now rewrite !length_map | assumption ]. }
    rewrite Hsub. reflexivity. }
  split.
  - eexists. now apply Hf.
  - unfold fit_objective, fit_target.
    rewrite Hf by now apply same_shape_map_r.
    eexists. f_equal. unfold entrywise at 1.
    fold (pairwise residual traj (normalize_data x_data)).
    now rewrite pairwise_on_target.
Qed.

Lemma f_lsq_is_normalised_residual_witness :
  let s := init [(Fin 0, Fin 0); (Fin 0, Fin 1)] [(Fin (-5), Fin 10)]
             (constant_model_at []) in
  let params := [Fin 0.5; Fin (-2)] in
  let t := [Fin 0; Fin 1] in
  let x_data := [[Fin 1; Fin 2]] in
  (methods (simulator s) <> []
   /\ assemble_kin_params s params = Ok [Fin 0; Fin 0.5]
   /\ assemble_x0 s params = Ok [Fin (-2)]
   /\ same_shape [[Fin (-2); Fin (-2)]] x_data)
  /\ F.log (F.add (Fin (-2)) (Fin 1)) = NaN
  /\ exists w s',
       f_lsq extract_data_from_simulator params t x_data None true s
       = Returns [Fin (0 - 1); Fin (0 - 2)] s' w.
Proof.
  intros s params t x_data.
  assert (Hp : assemble_kin_params s params = Ok [Fin 0; Fin 0.5]).
  { unfold s. rewrite init_assemble_kin.
    unfold free_ranges, fixed_slots, is_fixed; simpl. Rdecide. reflexivity. }
  assert (Hx0 : assemble_x0 s params = Ok [Fin (-2)]).
  { unfold assemble_x0, s. rewrite init_x0_slots.
    cbn [n_kin_params init].
    unfold free_ranges, fixed_slots, is_fixed; simpl. Rdecide. reflexivity. }
  assert (Hshape : same_shape [[Fin (-2); Fin (-2)]] x_data).
  { repeat constructor. }
  assert (Hm : methods (simulator s) <> []) by discriminate.
  assert (Hnan : F.log (F.add (Fin (-2)) (Fin 1)) = NaN).
  { simpl. Rdecide. reflexivity. }
  split; [ auto | ]. split; [ exact Hnan | ].
  pose proof (f_lsq_is_normalised_residual extract_data_from_simulator
                s params t [Fin 0; Fin 0.5] [Fin (-2)] x_data None Hm Hp Hx0)
    as Hres.
  simpl in Hres. destruct (Hres Hshape) as [(w & Hw) _].
  exists w. eexists. rewrite Hw. f_equal.
  unfold x_data, entrywise, residual; cbn [map combine concat fst snd app].
  rewrite Hnan. reflexivity.
Defined.

(** ** Sums and products of finite doubles *)

Lemma fold_add_fin (l : list R) : forall a,
  fold_left F.add (map Fin l) (Fin a) = Fin (a + Rsum l).
Proof.
  induction l as [| x l IH]; intro a; simpl.
  - f_equal. lra.
  - rewrite IH. f_equal. unfold Rsum. lra.
Qed.

Lemma sum_fin (l : list R) : F.sum (map Fin l) = Fin (Rsum l).
Proof. unfold F.sum. rewrite fold_add_fin. f_equal. lra. Qed.



Lemma pow_fin (a : R) (n : nat) : F.pow (Fin a) n = Fin (a ^ n).
Proof. induction n as [| n IH]; simpl; [ | rewrite IH ]; reflexivity. Qed.





Lemma two_pi_pos : 0 < 2 * PI.
Proof. pose proof PI_RGT_0. lra. Qed.


(** ** Arrays of one shape *)

Lemma bcast2_pairwise {A B C} (f : A -> B -> C) X Y :
  same_shape X Y -> bcast2 f X Y = Ok (pairwise f X Y).
Proof. apply bcast2_same. Qed.

Lemma same_shape_pairwise {A B C D} (f : A -> B -> C)
    (X : list (list A)) (Y : list (list B)) (Z : list (list D)) :
  same_shape X Y -> same_shape X Z -> same_shape (pairwise f X Y) Z.
Proof.
  unfold same_shape, pairwise. intro HXY. revert Z.
  induction HXY as [| r r' X Y Hr _ IH]; intros Z HXZ;
    inversion HXZ as [| ? d ? Z' Hd HXZ']; subst; simpl; constructor.
  - rewrite length_map, length_combine, <- Hr, Nat.min_id. exact Hd.
  - now apply IH.
Qed.

Lemma same_shape_map_both {A B C D} (f : A -> C) (g : B -> D)
    (X : list (list A)) (Y : list (list B)) :
  same_shape X Y -> same_shape (map (map f) X) (map (map g) Y).
Proof.
  induction 1; simpl; constructor; [ now rewrite !length_map | assumption ].
Qed.

Section OnFinite.

(** An operation on doubles that computes a real operation on finite
    arguments, the second one satisfying [Q]. *)
Variables (f : float64 -> float64 -> float64) (fr : R -> R -> R)
          (Q : R -> Prop).
Hypothesis f_fin : forall x y, Q y -> f (Fin x) (Fin y) = Fin (fr x y).

Lemma zip_fin (r d : list R) :
  Forall Q d ->
  map (fun xy => f (fst xy) (snd xy)) (combine (map Fin r) (map Fin d))
  = map Fin (map (fun xy => fr (fst xy) (snd xy)) (combine r d)).
Proof.
  intro Hd. revert r.
  induction Hd as [| y d Hy _ IH]; intros [| x r]; simpl; try reflexivity.
  now rewrite f_fin, IH.
Qed.

Lemma pairwise_fin (X Y : list (list R)) :
  Forall (Forall Q) Y ->
  pairwise f (map (map Fin) X) (map (map Fin) Y)
  = map (map Fin) (pairwise fr X Y).
Proof.
  intro HY. revert X. unfold pairwise.
  induction HY as [| d Y Hd _ IH]; intros [| r X]; simpl; try reflexivity.
  now rewrite zip_fin, IH.
Qed.

End OnFinite.

Lemma entrywise_concat {A B C} (f : A -> B -> C) X Y :
  entrywise f X Y = concat (pairwise f X Y).
Proof. reflexivity. Qed.

Lemma flatten_fin (X : list (list R)) :
  flatten (map (map Fin) X) = map Fin (concat X).
Proof. unfold flatten. now rewrite concat_map. Qed.


(** ** The power of [2 pi] against the largest double *)

Lemma atan_between_partial_sums (x : R) (N : nat) :
  0 < x < 1 ->
  sum_f_R0 (tg_alt (Ratan_seq x)) (S (2 * N)) <= atan x
  <= sum_f_R0 (tg_alt (Ratan_seq x)) (2 * N).
Proof.
  intro Hx. rewrite (atan_eq_ps_atan x Hx). unfold ps_atan.
  destruct (Ratan.in_int x) as [Hin | Hout]; [ | exfalso; apply Hout; lra ].
  destruct (ps_atan_exists_1 x Hin) as [v Hv].
  apply alternated_series_ineq; [ | | exact Hv ].
  - apply Ratan_seq_decreasing. lra.
  - apply Ratan_seq_converging. lra.
Qed.

(** From Machin's formula and the first terms of the arctangent series. *)
Lemma PI_between : 3.14 < PI < 3.142.
Proof.
  pose proof Machin_4_5_239 as HM.
  assert (H5 : 0 < / 5 < 1) by lra.
  assert (H239 : 0 < / 239 < 1) by lra.
  pose proof (atan_between_partial_sums (/ 5) 1 H5) as [_ Hup5].
  pose proof (atan_between_partial_sums (/ 5) 0 H5) as [Hlo5 _].
  pose proof (atan_between_partial_sums (/ 239) 0 H239) as [Hlo239 Hup239].
  unfold tg_alt, Ratan_seq in *. simpl in *.
  lra.
Qed.

Lemma pow_ratio (a b : Z) (n : nat) :
  (IZR a / IZR b) ^ n = IZR (a ^ Z.of_nat n) / IZR (b ^ Z.of_nat n).
Proof.
  destruct (Z.eq_dec b 0) as [-> | Hb].
  - destruct n as [| n].
    + simpl. unfold Rdiv. rewrite Rinv_1. lra.
    + rewrite Z.pow_0_l by lia. unfold Rdiv. rewrite Rinv_0, !Rmult_0_r.
      apply pow_i. lia.
  - assert (IZR b <> 0) by (now apply not_0_IZR).
    unfold Rdiv. rewrite Rpow_mult_distr, pow_inv, !pow_IZR. reflexivity.
Qed.

Lemma ratio_le (a b c : Z) :
  (0 <? b)%Z = true -> (a <=? c * b)%Z = true -> IZR a / IZR b <= IZR c.
Proof.
  intros Hb Hle. apply Z.ltb_lt in Hb. apply Z.leb_le in Hle.
  assert (Hpos : 0 < IZR b) by now apply (IZR_lt 0).
  apply IZR_le in Hle. rewrite mult_IZR in Hle.
  apply Rmult_le_reg_r with (IZR b); [ exact Hpos | ].
  unfold Rdiv. rewrite Rmult_assoc, Rinv_l, Rmult_1_r; [ exact Hle | lra ].
Qed.

Lemma ratio_gt (a b c : Z) :
  (0 <? b)%Z = true -> (c * b <? a)%Z = true -> IZR c < IZR a / IZR b.
Proof.
  intros Hb Hlt. apply Z.ltb_lt in Hb. apply Z.ltb_lt in Hlt.
  assert (Hpos : 0 < IZR b) by now apply (IZR_lt 0).
  apply IZR_lt in Hlt. rewrite mult_IZR in Hlt.
  apply Rmult_lt_reg_r with (IZR b); [ exact Hpos | ].
  unfold Rdiv. rewrite Rmult_assoc, Rinv_l, Rmult_1_r; [ exact Hlt | lra ].
Qed.

(** [(2 pi)^386] is about [1.25e308], below the largest double. *)
Lemma two_pi_pow_386 : (2 * PI) ^ 386 <= float_max.
Proof.
  destruct PI_between as [Hlo Hhi].
  apply Rle_trans with ((IZR 1571 / IZR 250) ^ 386).
  - apply pow_incr. lra.
  - rewrite pow_ratio. unfold float_max.
    apply ratio_le; vm_compute; reflexivity.
Qed.

(** [(2 pi)^387] is about [7.9e308], above it. *)
Lemma two_pi_pow_387 : float_max < (2 * PI) ^ 387.
Proof.
  destruct PI_between as [Hlo Hhi].
  apply Rlt_le_trans with ((IZR 157 / IZR 25) ^ 387).
  - rewrite pow_ratio. unfold float_max.
    apply ratio_gt; vm_compute; reflexivity.
  - apply pow_incr. lra.
Qed.

Lemma two_pi_pow_fits (n : nat) :
  (n <= 386)%nat <-> (2 * PI) ^ n <= float_max.
Proof.
  assert (H1 : 1 <= 2 * PI) by (destruct PI_between; lra).
  split.
  - intro Hn. apply Rle_trans with ((2 * PI) ^ 386);
      [ now apply Rle_pow | apply two_pi_pow_386 ].
  - intro Hle. destruct (le_lt_dec n 386) as [| Hgt]; [ assumption | ].
    exfalso. pose proof two_pi_pow_387 as H387.
    assert ((2 * PI) ^ 387 <= (2 * PI) ^ n)
      by (apply Rle_pow; [ exact H1 | lia ]).
    lra.
Qed.

Lemma two_pi_pow (n : nat) : F.pow two_pi n = Fin ((2 * PI) ^ n).
Proof. unfold two_pi. cbn [F.mul]. apply pow_fin. Qed.

Lemma float_pow_two_pi_fits (n : nat) :
  (n <= 386)%nat -> float_pow two_pi n = Ok (Fin ((2 * PI) ^ n)).
Proof.
  intro Hn. unfold float_pow. rewrite two_pi_pow.
  apply two_pi_pow_fits in Hn.
  pose proof (pow_lt _ n two_pi_pos) as Hpos.
  rewrite Rabs_pos_eq by lra.
  unfold Rltb. destruct (Rlt_dec float_max ((2 * PI) ^ n)); [ lra | easy ].
Qed.

Lemma float_pow_two_pi_overflows (n : nat) :
  (386 < n)%nat -> float_pow two_pi n = Raise OverflowError.
Proof.
  intro Hn. unfold float_pow. rewrite two_pi_pow.
  pose proof (pow_lt _ n two_pi_pos) as Hpos.
  rewrite Rabs_pos_eq by lra.
  unfold Rltb. destruct (Rlt_dec float_max ((2 * PI) ^ n)) as [| Hno];
    [ reflexivity | ].
  exfalso. assert (Hle : (n <= 386)%nat) by (apply two_pi_pow_fits; lra). lia.
Qed.

Lemma gaussian_likelihood_fits (sig : matrix) (err : vec) :
  (length err <= 386)%nat ->
  gaussian_likelihood sig err
  = Ok (likelihood_from (Fin ((2 * PI) ^ length err)) sig err).
Proof.
  intro Hn. unfold gaussian_likelihood.
  now rewrite float_pow_two_pi_fits.
Qed.

Lemma gaussian_likelihood_overflows (sig : matrix) (err : vec) :
  (386 < length err)%nat ->
  gaussian_likelihood sig err = Raise OverflowError.
Proof.
  intro Hn. unfold gaussian_likelihood.
  now rewrite float_pow_two_pi_overflows.
Qed.

(** ** Number of entries *)

Lemma same_shape_entries {A B} (X : list (list A)) (Y : list (list B)) :
  same_shape X Y -> length (concat X) = length (concat Y).
Proof.
  induction 1 as [| r r' X Y Hr _ IH]; simpl; [ reflexivity | ].
  now rewrite !length_app, Hr, IH.
Qed.

Lemma pairwise_entries {A B C} (f : A -> B -> C) X Y :
  same_shape X Y -> length (concat (pairwise f X Y)) = length (concat X).
Proof.
  unfold pairwise.
  induction 1 as [| r r' X Y Hr _ IH]; simpl; [ reflexivity | ].
  rewrite !length_app, IH, length_map, length_combine, <- Hr, Nat.min_id.
  reflexivity.
Qed.

(** ** Goodness of fit *)

Lemma is_zero_iff (s : float64) : is_zero s = true <-> s = Fin 0.
Proof.
  unfold is_zero. destruct s as [| | | r]; simpl; try (split; discriminate).
  rewrite Reqb_true. split; [ now intros -> | now intros [= ->] ].
Qed.

Lemma zero_to_one_not_zero (s : float64) : is_zero (zero_to_one s) = false.
Proof.
  unfold zero_to_one. destruct (is_zero s) eqn:E; [ | exact E ].
  unfold is_zero; simpl. apply Reqb_false. lra.
Qed.

Lemma nonzero_sigma_fin (s : R) : zero_to_one (Fin s) = Fin (nonzero_sigma s).
Proof.
  unfold zero_to_one, is_zero, nonzero_sigma, F.eqb, Reqb.
  now destruct (Req_dec_T s 0).
Qed.




(** What the code writes over a deviation is what the specification asks
    for. *)
Lemma zero_to_one_is_one_for_zero (s : float64) :
  zero_to_one s = one_for_zero s.
Proof.
  destruct s as [| | | r]; try reflexivity. apply nonzero_sigma_fin.
Qed.


Lemma existsb_is_zero (S : matrix) :
  existsb is_zero (flatten S) = true
  <-> Exists (Exists (fun s => s = Fin 0)) S.
Proof.
  unfold flatten. rewrite existsb_exists. split.
  - intros (s & Hin & Hs). apply in_concat in Hin as (row & Hrow & Hin).
    apply Exists_exists. exists row. split; [ exact Hrow | ].
    apply Exists_exists. exists s. split; [ exact Hin | ].
    now apply is_zero_iff.
  - intro HE. apply Exists_exists in HE as (row & Hrow & HE).
    apply Exists_exists in HE as (s & Hin & Hs).
    exists s. split; [ | now apply is_zero_iff ].
    apply in_concat. now exists row.
Qed.

Section GoodnessFacts.

Context {Sim : Type}.

Variables (g : GoodnessOfFit Sim) (M S P : matrix).
Hypothesis mean_ready : mean g = Some M.
Hypothesis sigm_ready : sigm g = Some S.
Hypothesis pred_ready : pred g = Some P.
Hypothesis mean_shape : same_shape P M.
Hypothesis sigm_shape : same_shape P S.

(** [sig] and [err] as both likelihood methods compute them. *)
Lemma sig_and_err_prepared :
  let zero := existsb is_zero (flatten S) in
  let sig := if zero then map (map one_for_zero) S else S in
  sig_and_err g
  = Returns (sig, entrywise F.div (pairwise F.sub P M) sig) g
      (if zero then [zero_sigma_warning] else []).
Proof.
  intros zero sig. unfold sig_and_err, PyM.bind, PyM.get, PyM.lift,
    PyM.ret, PyM.warn, prepared.
  rewrite sigm_ready, pred_ready, mean_ready. fold zero.
  assert (E : map (map zero_to_one) S = map (map one_for_zero) S).
  { apply map_ext. intro row. apply map_ext.
    apply zero_to_one_is_one_for_zero. }
  rewrite E.
  assert (Hsig : same_shape (pairwise F.sub P M) sig).
  { apply same_shape_pairwise; [ exact mean_shape | ].
    unfold sig. destruct zero; [ | exact sigm_shape ].
    now apply same_shape_map_r. }
  unfold sig in *. destruct zero; simpl;
    rewrite (bcast2_pairwise F.sub _ _ mean_shape); cbn [bind];
    rewrite (bcast2_pairwise F.div _ _ Hsig); reflexivity.
Qed.

(** The number of scaled residuals is the number of stored deviations. *)
Lemma err_entries (sig : matrix) :
  same_shape P sig ->
  length (entrywise F.div (pairwise F.sub P M) sig) = length (flatten S).
Proof.
  intro Hsig. rewrite entrywise_concat, pairwise_entries.
  - rewrite pairwise_entries by exact mean_shape.
    now apply same_shape_entries.
  - now apply same_shape_pairwise.
Qed.

End GoodnessFacts.

(** ** Likelihood and log-likelihood on finite arrays *)






Section PreparedFinite.

Context {Sim : Type}.

Variables (g : GoodnessOfFit Sim) (M S P : list (list R)).
Hypothesis mean_ready : mean g = Some (map (map Fin) M).
Hypothesis sigm_ready : sigm g = Some (map (map Fin) S).
Hypothesis pred_ready : pred g = Some (map (map Fin) P).
Hypothesis mean_shape : same_shape P M.
Hypothesis sigm_shape : same_shape P S.
Hypothesis sigma_nonneg : Forall (Forall (fun s => 0 <= s)) S.

Let sig : list (list R) := map (map nonzero_sigma) S.
Let err : list R := entrywise Rdiv (pairwise Rminus P M) sig.





End PreparedFinite.



(** ** Distinct time points *)

Lemma float_eqb_iff (x y : float64) :
  F.isnan x = false -> (F.eqb x y = true <-> x = y).
Proof.
  intro Hx. split.
  - intro E. now apply float_eqb_eq in E.
  - intros <-. destruct x; simpl; try reflexivity; try discriminate.
    apply Reqb_refl.
Qed.

Lemma unique_incl (t : vec) : incl (unique t) t.
Proof.
  induction t as [| x t IH]; simpl; [ easy | ].
  intros y [<- | Hy]; [ now left | right ].
  apply filter_In in Hy as [Hy _]. now apply IH.
Qed.

Lemma unique_covers (t : vec) :
  Forall (fun x => F.isnan x = false) t -> incl t (unique t).
Proof.
  induction 1 as [| x t Hx _ IH]; [ easy | ].
  intros y [<- | Hy]; simpl; [ now left | ].
  destruct (float64_eq_dec x y) as [<- | Hne]; [ now left | right ].
  apply filter_In. split; [ now apply IH | ].
  apply negb_true_iff. apply not_true_is_false.
  intro E. apply Hne. now apply float_eqb_iff.
Qed.

Lemma NoDup_filter {A} (p : A -> bool) (l : list A) :
  NoDup l -> NoDup (filter p l).
Proof.
  induction 1 as [| x l Hx _ IH]; simpl; [ constructor | ].
  destruct (p x); [ constructor | ]; try assumption.
  intro Hin. apply Hx. now apply filter_In in Hin.
Qed.

Lemma unique_NoDup (t : vec) :
  Forall (fun x => F.isnan x = false) t -> NoDup (unique t).
Proof.
  induction 1 as [| x t Hx _ IH]; simpl; constructor.
  - intro Hin. apply filter_In in Hin as [_ Hne].
    apply negb_true_iff in Hne.
    rewrite (proj2 (float_eqb_iff x x Hx) eq_refl) in Hne. discriminate.
  - now apply NoDup_filter.
Qed.

Lemma unique_counts_distinct (t : vec) :
  Forall (fun x => F.isnan x = false) t ->
  length (unique t) = distinct_count t.
Proof.
  intro Ht. unfold distinct_count. apply Nat.le_antisymm.
  - apply NoDup_incl_length; [ now apply unique_NoDup | ].
    intros x Hx. apply nodup_In. now apply unique_incl.
  - apply NoDup_incl_length; [ apply NoDup_nodup | ].
    intros x Hx. apply nodup_In in Hx. now apply unique_covers.
Qed.

(** ** Transposition *)

Section Transposition.

Context {A : Type}.

Lemma zip_cons_nil (row : list A) :
  zip_cons row [] = map (fun x => [x]) row.
Proof. induction row as [| x row IH]; simpl; [ | rewrite IH ]; reflexivity. Qed.

Lemma zip_cons_length (row : list A) : forall cols,
  length (zip_cons row cols) = length row.
Proof.
  induction row as [| x row IH]; intros [| c cols]; simpl;
    try rewrite IH; reflexivity.
Qed.

Lemma zip_cons_columns (row : list A) : forall cols n,
  length row = length cols ->
  Forall (fun c => length c = n) cols ->
  Forall (fun c => length c = S n) (zip_cons row cols).
Proof.
  induction row as [| x row IH]; intros [| c cols] n Hlen Hcols;
    simpl in *; try discriminate; constructor.
  - inversion Hcols; subst. reflexivity.
  - inversion Hcols; subst. apply IH; [ lia | assumption ].
Qed.

(** The transpose of a [m] by [k] array, [m > 0], is [k] by [m]. *)
Lemma transpose_shape k (X : list (list A)) :
  rectangular k X -> X <> [] ->
  length (transpose X) = k /\ rectangular (length X) (transpose X).
Proof.
  unfold rectangular.
  induction 1 as [| row X Hrow HX IH]; intros Hne; [ congruence | ].
  simpl. destruct X as [| row' X'].
  - simpl. rewrite zip_cons_nil, length_map. split; [ exact Hrow | ].
    apply Forall_map, Forall_forall. reflexivity.
  - destruct IH as [Hk Hcols]; [ discriminate | ].
    split; [ now rewrite zip_cons_length | ].
    apply zip_cons_columns; [ congruence | exact Hcols ].
Qed.

Lemma transpose_singletons (row : list A) :
  row <> [] -> transpose (map (fun x => [x]) row) = [row].
Proof.
  induction row as [| x row IH]; intro Hne; [ congruence | ].
  simpl. destruct row as [| y row]; [ reflexivity | ].
  rewrite IH by discriminate. reflexivity.
Qed.

Lemma transpose_zip_cons (row : list A) : forall cols,
  length row = length cols -> cols <> [] ->
  transpose (zip_cons row cols) = row :: transpose cols.
Proof.
  induction row as [| x row IH]; intros [| c cols] Hlen Hne;
    simpl in *; try discriminate; try congruence.
  destruct cols as [| c' cols].
  - destruct row; [ | discriminate ]. reflexivity.
  - rewrite IH by (simpl in *; try lia; discriminate). reflexivity.
Qed.

Lemma transpose_involutive k (X : list (list A)) :
  (0 < k)%nat -> rectangular k X -> transpose (transpose X) = X.
Proof.
  intros Hk HX. unfold rectangular in HX.
  induction HX as [| row X Hrow HX IH]; [ reflexivity | ].
  simpl. destruct X as [| row' X'].
  - simpl. rewrite zip_cons_nil. apply transpose_singletons.
    destruct row; [ simpl in Hrow; lia | discriminate ].
  - destruct (transpose_shape k (row' :: X') HX) as [Hlen _];
      [ discriminate | ].
    rewrite transpose_zip_cons.
    + now rewrite IH.
    + congruence.
    + intro E. rewrite E in Hlen. simpl in Hlen. lia.
Qed.

End Transposition.

Lemma zip_cons_map {A B} (f : A -> B) (row : list A) : forall cols,
  zip_cons (map f row) (map (map f) cols) = map (map f) (zip_cons row cols).
Proof.
  induction row as [| x row IH]; intros [| c cols]; simpl; try reflexivity.
  - f_equal. apply (IH []).
  - f_equal. apply IH.
Qed.

Lemma transpose_map {A B} (f : A -> B) (X : list (list A)) :
  transpose (map (map f) X) = map (map f) (transpose X).
Proof.
  induction X as [| row X IH]; simpl; [ reflexivity | ].
  now rewrite IH, zip_cons_map.
Qed.

(** ** Rescaling rows *)

Lemma sequence_map_ok {A B} (f : A -> result B) (g : A -> B) (l : list A) :
  Forall (fun x => f x = Ok (g x)) l -> sequence (map f l) = Ok (map g l).
Proof.
  induction 1 as [| x l Hx _ IH]; simpl; [ reflexivity | ].
  now rewrite Hx, IH.
Qed.

Lemma column_over_zip_cons s scale (row : list R) : forall cols,
  map (column_over (s :: scale)) (zip_cons row cols)
  = zip_cons (map (fun x => x / s) row) (map (column_over scale) cols).
Proof.
  induction row as [| x row IH]; intros [| c cols]; simpl; try reflexivity.
  - f_equal. apply (IH []).
  - f_equal. apply IH.
Qed.

Lemma column_over_transpose (X : list (list R)) : forall scale,
  length scale = length X ->
  map (column_over scale) (transpose X) = transpose (rescaled X scale).
Proof.
  unfold rescaled.
  induction X as [| row X IH]; intros [| s scale] Hlen;
    simpl in *; try discriminate; try reflexivity.
  rewrite column_over_zip_cons, IH by lia. reflexivity.
Qed.

Lemma rescaled_rectangular k (X : list (list R)) : forall scale,
  rectangular k X -> rectangular k (rescaled X scale).
Proof.
  unfold rectangular, rescaled.
  induction X as [| row X IH]; intros [| s scale] HX; simpl;
    try constructor; inversion HX; subst.
  - now rewrite length_map.
  - now apply IH.
Qed.

Lemma rectangular_same_shape {A B} k (X : list (list A)) (Y : list (list B)) :
  rectangular k X -> rectangular k Y -> length X = length Y ->
  same_shape X Y.
Proof.
  unfold rectangular, same_shape. intro HX. revert Y.
  induction HX as [| r X Hr _ IH]; intros [| r' Y] HY Hlen;
    simpl in *; try discriminate; constructor; inversion HY; subst.
  - congruence.
  - apply IH; [ assumption | lia ].
Qed.

Lemma rescaled_length (X : list (list R)) scale :
  length scale = length X -> length (rescaled X scale) = length X.
Proof.
  intro E. unfold rescaled.
  rewrite length_map, length_combine, E. apply Nat.min_id.
Qed.

Lemma scale_rows_fin k (X : list (list R)) (scale : list R) :
  (0 < k)%nat -> rectangular k X -> length scale = length X ->
  Forall (fun s => s <> 0) scale ->
  scale_rows (map (map Fin) X) (map Fin scale)
  = Ok (map (map Fin) (rescaled X scale)).
Proof.
  intros Hk HX Hlen Hscale. unfold scale_rows, bcast_rows.
  rewrite transpose_map, map_map.
  rewrite (sequence_map_ok _
             (fun col => map Fin (column_over scale col))).
  - cbn [bind]. f_equal.
    rewrite <- map_map, transpose_map. f_equal.
    rewrite column_over_transpose by exact Hlen.
    apply (transpose_involutive k); [ exact Hk | ].
    now apply rescaled_rectangular.
  - destruct X as [| row X]; [ constructor | ].
    destruct (transpose_shape k (row :: X) HX) as [_ Hcols];
      [ discriminate | ].
    eapply Forall_impl; [ | exact Hcols ]. intros col Hcol.
    rewrite bcast1_same by (rewrite !length_map; congruence).
    f_equal. unfold column_over.
    apply (zip_fin F.div Rdiv (fun s => s <> 0)); [ | exact Hscale ].
    intros x y Hy. now apply div_fin.
Qed.

(** ** Row maxima *)

Lemma fold_maximum_fin (row : list R) : forall x,
  fold_left F.maximum (map Fin row) (Fin x) = Fin (fold_left Rmax row x).
Proof.
  induction row as [| y row IH]; intro x; [ reflexivity | ].
  cbn [map fold_left]. now rewrite maximum_fin, IH.
Qed.

Lemma max_axis1_fin k (X : list (list R)) :
  (0 < k)%nat -> rectangular k X ->
  max_axis1 (map (map Fin) X) = Ok (map Fin (map row_maximum X)).
Proof.
  intros Hk HX. unfold max_axis1. rewrite !map_map.
  apply sequence_map_ok.
  eapply Forall_impl; [ | exact HX ]. intros row Hrow.
  destruct row as [| x row]; [ simpl in Hrow; lia | ].
  unfold row_max, row_maximum. cbn [map hd tl].
  now rewrite fold_maximum_fin.
Qed.

(** ** The statistic *)

Lemma pairwise_compose {A B C D} (f : A -> B -> C) (h : C -> D)
    (g : D -> B -> D) (X : list (list A)) : forall Y,
  pairwise g (map (map h) (pairwise f X Y)) Y
  = pairwise (fun x y => g (h (f x y)) y) X Y.
Proof.
  unfold pairwise.
  induction X as [| r X IH]; intros [| d Y]; simpl; try reflexivity.
  f_equal; [ | apply IH ].
  clear. revert d. induction r as [| a r IHr]; intros [| b d]; simpl;
    try reflexivity.
  f_equal. apply IHr.
Qed.

Lemma pearson_statistic_fin (O E : list (list R)) :
  same_shape O E -> Forall (Forall (fun e => e <> 0)) E ->
  pearson_statistic (map (map Fin) O) (map (map Fin) E)
  = Ok (Fin (chi_square O E)).
Proof.
  intros Hshape HE. unfold pearson_statistic.
  rewrite bcast2_pairwise by now apply same_shape_map_both.
  cbn [bind].
  rewrite (pairwise_fin F.sub Rminus (fun _ => True)) by
    (try (intros; reflexivity);
     apply Forall_forall; intros; apply Forall_forall; auto).
  rewrite map_map.
  rewrite (map_ext (fun row => map square (map Fin row))
                   (fun row => map Fin (map (fun d => d ^ 2) row))).
  2:{ intro row. rewrite !map_map. apply map_ext. intro d.
      unfold square. apply pow_fin. }
  rewrite <- (map_map (map (fun d => d ^ 2)) (map Fin)).
  rewrite bcast2_pairwise.
  2:{ apply same_shape_map_both.
      clear - Hshape. unfold same_shape in *.
      induction Hshape as [| r r' X Y Hr _ IH]; simpl; constructor;
        [ | exact IH ].
      now rewrite !length_map, length_combine, <- Hr, Nat.min_id. }
  cbn [bind].
  rewrite (pairwise_fin F.div Rdiv (fun e => e <> 0)); [ | | exact HE ].
  2:{ intros x y Hy. now apply div_fin. }
  rewrite flatten_fin, sum_fin. do 2 f_equal.
  unfold chi_square. rewrite entrywise_concat. f_equal. f_equal.
  apply (pairwise_compose Rminus (fun d => d ^ 2) Rdiv).
Qed.

Lemma rescaled_nonzero (X : list (list R)) : forall scale,
  Forall (Forall (fun e => e <> 0)) X -> Forall (fun m => m <> 0) scale ->
  Forall (Forall (fun e => e <> 0)) (rescaled X scale).
Proof.
  unfold rescaled.
  induction X as [| row X IH]; intros [| m scale] HX Hscale; simpl;
    try constructor; inversion HX; inversion Hscale; subst.
  - apply Forall_map. eapply Forall_impl; [ | eassumption ].
    intros e He. simpl. unfold Rdiv.
    apply Rmult_integral_contrapositive_currified;
      [ exact He | now apply Rinv_neq_0_compat ].
  - now apply IH.
Qed.

(** C3.  On a NaN-free time vector, finite data [O] and a finite model
    prediction [E] of the same rectangular shape, with non-zero expected
    values (and non-zero row maxima when rescaling), [test_chi2] returns
    [(p, c2, df)]: [c2] is the sum over entries of
    [(observed - expected)^2 / expected], taken on the arrays divided row
    by row by the row maxima of the data when [normalize] is set; [df] is
    the number of distinct time points minus the number of free
    parameters minus one; [p] is one minus the chi-square CDF of [c2] at
    [df]. *)
Theorem test_chi2_returns_pearson_statistic
    {Sim : Type} `{Simulator Sim} (cdf : float64 -> Z -> float64)
    (s : kinetic_estimation Sim) (t : vec) (x_data : ndarray)
    (species : option (list nat)) (method : string) (normalize : bool)
    (O E : list (list R)) (k : nat) :
  let sim' := integrate t None (Some method) (simulator s) in
  atleast_2d x_data = map (map Fin) O ->
  select_species (transpose (sim_x sim')) species = Ok (map (map Fin) E) ->
  Forall (fun x => F.isnan x = false) t ->
  (0 < k)%nat -> rectangular k O -> rectangular k E ->
  length O = length E ->
  (normalize = true -> Forall (fun m => m <> 0) (map row_maximum O)) ->
  Forall (Forall (fun e => e <> 0)) E ->
  let scale := map row_maximum O in
  let O' := if normalize then rescaled O scale else O in
  let E' := if normalize then rescaled E scale else E in
  let c2 := Fin (chi_square O' E') in
  let df := (Z.of_nat (distinct_count t) - Z.of_nat (n_params s) - 1)%Z in
  test_chi2 cdf t x_data species method normalize s
  = Returns (F.sub (Fin 1) (cdf c2 df), c2, df) (with_simulator sim' s) [].
Proof.
  intros sim' Hdata Hmodel Ht Hk HO HE Hlen Hmax Hexp scale O' E' c2 df.
  assert (Hstat : pearson_statistic (map (map Fin) O') (map (map Fin) E')
                  = Ok c2).
  { apply pearson_statistic_fin.
    - unfold O', E'. destruct normalize.
      + apply (rectangular_same_shape k);
          try now apply rescaled_rectangular.
        unfold scale.
        rewrite !rescaled_length; rewrite ?length_map; congruence.
      + now apply (rectangular_same_shape k).
    - unfold E'. destruct normalize; [ | exact Hexp ].
      apply rescaled_nonzero; [ exact Hexp | now apply Hmax ]. }
  unfold test_chi2, PyM.bind, PyM.get, PyM.lift, PyM.ret, update_simulator.
  cbn [simulator with_simulator extract extract_data_from_simulator
         n_params].
  fold sim'. rewrite Hmodel, Hdata.
  assert (Hnorm : chi2_arrays (map (map Fin) O) (map (map Fin) E) normalize
                  = Ok (map (map Fin) O', map (map Fin) E')).
  { unfold chi2_arrays, O', E'. destruct normalize; [ | reflexivity ].
    specialize (Hmax eq_refl).
    rewrite (max_axis1_fin k) by assumption. cbn [bind].
    fold scale.
    rewrite (scale_rows_fin k), (scale_rows_fin k);
      try assumption; try reflexivity;
      unfold scale; rewrite length_map; congruence. }
  rewrite Hnorm. cbn [fst snd]. rewrite Hstat.
  rewrite (unique_counts_distinct t Ht). reflexivity.
Qed.


Lemma test_chi2_returns_pearson_statistic_witness :
  let s := init [(Fin 0, Fin 0); (Fin 0, Fin 1)] [(Fin 2, Fin 2)]
             (constant_model_at [Fin 2]) in
  let t := [Fin 0; Fin 1; Fin 1] in
  let O := [[1; 2; 4]] in
  let E := [[2; 2; 2]] in
  let cdf := fun (_ : float64) (_ : Z) => Fin 0.5 in
  (Forall (fun x => F.isnan x = false) t
   /\ rectangular 3 O /\ rectangular 3 E
   /\ Forall (fun m => m <> 0) (map row_maximum O)
   /\ Forall (Forall (fun e => e <> 0)) E)
  /\ exists p c2 df s',
       test_chi2 cdf t (Arr1 [Fin 1; Fin 2; Fin 4]) None "matrix" true s
       = Returns (p, c2, df) s' [].
Proof.
  intros s t O E cdf.
  assert (Ht : Forall (fun x => F.isnan x = false) t) by repeat constructor.
  assert (HO : rectangular 3 O) by repeat constructor.
  assert (HE : rectangular 3 E) by repeat constructor.
  assert (Hmax : Forall (fun m => m <> 0) (map row_maximum O)).
  { repeat constructor. unfold row_maximum; simpl.
    unfold Rmax. repeat destruct (Rle_dec _ _); lra. }
  assert (Hexp : Forall (Forall (fun e => e <> 0)) E).
  { repeat constructor; lra. }
  split; [ auto 6 | ].
  do 4 eexists.
  apply (test_chi2_returns_pearson_statistic cdf s t
           (Arr1 [Fin 1; Fin 2; Fin 4]) None "matrix" true O E 3);
    try assumption; try reflexivity; try lia.
  intros _. exact Hmax.
Defined.

(** ** A specification without free parameters *)

Section AllFixed.

Context {Sim : Type} `{Simulator Sim}.

Variables (param_ranges x0_ranges : list range) (sim : Sim).
Hypothesis kin_fixed : Forall (fun r => is_fixed r = true) param_ranges.
Hypothesis x0_fixed : Forall (fun r => is_fixed r = true) x0_ranges.

Lemma free_ranges_none (rs : list range) :
  Forall (fun r => is_fixed r = true) rs -> free_ranges rs = [].
Proof.
  unfold free_ranges.
  induction 1 as [| r rs Hr _ IH]; simpl; [ reflexivity | ].
  now rewrite Hr.
Qed.

(** With every range pinned there is nothing to optimise: no free
    parameter, empty bounds, and the uniform sampler gives [samples]
    empty rows.  What the optimiser does with an empty start is its
    own. *)
Lemma all_fixed_leaves_nothing_free lhs rand samples :
  let s := init param_ranges x0_ranges sim in
  n_params s = 0%nat
  /\ get_bound s 0 = Ok [] /\ get_bound s 1 = Ok []
  /\ sample_p0 lhs rand s samples "uniform" = Ok (repeat [] samples).
Proof.
  intro s. unfold s, get_bound, sample_p0.
  cbn [init n_params ranges].
  rewrite !free_ranges_none by assumption. simpl.
  repeat split.
  generalize 0%nat.
  induction samples as [| n IH]; intro k; simpl; [ reflexivity | ].
  now rewrite IH.
Qed.

End AllFixed.

(** * Further properties of the estimator *)

(** ** The bounds handed to the optimiser *)

Lemma count_nan_app (a b : vec) :
  count_nan (a ++ b) = (count_nan a + count_nan b)%nat.
Proof. unfold count_nan. now rewrite filter_app, length_app. Qed.

Lemma free_ranges_free (rs : list range) :
  Forall (fun r => is_fixed r = false) (free_ranges rs).
Proof.
  unfold free_ranges. apply Forall_forall. intros r Hr.
  apply filter_In in Hr as [_ Hr]. now apply negb_true_iff in Hr.
Qed.

Lemma get_bound_loop_axis (rs : list range) (axis : Z) :
  (axis < -2 \/ 1 < axis)%Z -> rs <> [] ->
  get_bound_loop rs (length rs) axis = Raise IndexError.
Proof.
  destruct rs as [| r rs]; [ congruence | ]. intros Ha _.
  cbn [length get_bound_loop]. unfold range_axis.
  destruct axis as [| [a | a |] | [a | [a | a |] |]]; try lia; reflexivity.
Qed.

Lemma get_bound_loop_from_end (rs : list range) :
  get_bound_loop rs (length rs) (-2) = Ok (map fst rs)
  /\ get_bound_loop rs (length rs) (-1) = Ok (map snd rs).
Proof.
  induction rs as [| r rs [IH2 IH1]]; [ split; reflexivity | ].
  cbn [length get_bound_loop map]. rewrite IH2, IH1. split; reflexivity.
Qed.

Lemma free_ends_differ (rs : list range) :
  Forall (fun r => is_fixed r = false) rs ->
  Forall2 (fun l h => F.eqb l h = false) (map fst rs) (map snd rs).
Proof. induction 1; simpl; constructor; assumption. Qed.

Section Reached.

Context {Sim : Type} `{Simulator Sim}.

Variables (param_ranges x0_ranges : list range) (sim : Sim).
Variable s : kinetic_estimation Sim.
Hypothesis reached : reachable (init param_ranges x0_ranges sim) s.

Lemma reached_ranges :
  ranges s = free_ranges param_ranges ++ free_ranges x0_ranges.
Proof.
  pose proof (reachable_keeps_partition _ _ reached) as E.
  unfold partition in E. now injection E.
Qed.

Lemma reached_fixed_parameters :
  fixed_parameters s = fixed_slots param_ranges ++ fixed_slots x0_ranges.
Proof.
  pose proof (reachable_keeps_partition _ _ reached) as E.
  unfold partition in E. now injection E.
Qed.

Lemma reached_n_tot : n_tot_kin_params s = length param_ranges.
Proof.
  pose proof (reachable_keeps_partition _ _ reached) as E.
  unfold partition in E. now injection E.
Qed.

Lemma reached_n_kin :
  n_kin_params s = length (free_ranges param_ranges).
Proof.
  pose proof (reachable_keeps_partition _ _ reached) as E.
  unfold partition in E. now injection E.
Qed.

Lemma reached_n_params : n_params s = length (ranges s).
Proof.
  pose proof (reachable_keeps_partition _ _ reached) as E.
  unfold partition in E. injection E as E1 _ _ _ E5.
  rewrite E5, E1. reflexivity.
Qed.

Lemma reached_assemble_kin (v : vec) :
  assemble_kin_params s v
  = assign_where_nan (fixed_slots param_ranges)
      (firstn (length (free_ranges param_ranges)) v).
Proof.
  rewrite (assemble_kin_params_partition _ _ v
             (reachable_keeps_partition _ _ reached)).
  apply init_assemble_kin.
Qed.

Lemma reached_assemble_x0 (v : vec) :
  assemble_x0 s v
  = assign_where_nan (fixed_slots x0_ranges)
      (skipn (length (free_ranges param_ranges)) v).
Proof.
  rewrite (assemble_x0_partition _ _ v
             (reachable_keeps_partition _ _ reached)).
  unfold assemble_x0. now rewrite init_x0_slots.
Qed.

Lemma reached_get_bound_low : get_bound s 0 = Ok (map fst (ranges s)).
Proof.
  unfold get_bound. rewrite reached_n_params. apply get_bound_loop_low.
Qed.

Lemma reached_get_bound_high : get_bound s 1 = Ok (map snd (ranges s)).
Proof.
  unfold get_bound. rewrite reached_n_params. apply get_bound_loop_high.
Qed.

End Reached.

(** X1.  At any time after construction, [get_bound(0)] and
    [get_bound(1)] return one entry per free parameter, as many as there
    are NaN sentinels in [fixed_parameters], and no lower bound equals its
    upper bound: a pinned parameter never reaches the optimiser.  The axis
    is an index into a row of two entries, which Python also counts from
    the end: [-2] gives the lower bounds again and [-1] the upper ones.
    Every other axis raises IndexError as soon as there is a free
    parameter. *)
Theorem get_bound_gives_open_intervals
    {Sim : Type} `{Simulator Sim}
    (param_ranges x0_ranges : list range) (sim : Sim)
    (s : kinetic_estimation Sim) :
  reachable (init param_ranges x0_ranges sim) s ->
  exists lo hi,
    get_bound s 0 = Ok lo /\ get_bound s 1 = Ok hi
    /\ get_bound s (-2) = Ok lo /\ get_bound s (-1) = Ok hi
    /\ length lo = n_params s /\ length hi = n_params s
    /\ count_nan (fixed_parameters s) = n_params s
    /\ Forall2 (fun l h => F.eqb l h = false) lo hi
    /\ (forall axis, (axis < -2 \/ 1 < axis)%Z -> n_params s <> 0%nat ->
          get_bound s axis = Raise IndexError).
Proof.
  intro Hreach.
  pose proof (reached_n_params _ _ _ _ Hreach) as Hn.
  pose proof (reached_ranges _ _ _ _ Hreach) as Hr.
  destruct (get_bound_loop_from_end (ranges s)) as [Hm2 Hm1].
  exists (map fst (ranges s)), (map snd (ranges s)).
  split; [ now apply reached_get_bound_low with param_ranges x0_ranges sim | ].
  split; [ now apply reached_get_bound_high with param_ranges x0_ranges sim | ].
  split; [ unfold get_bound; now rewrite Hn | ].
  split; [ unfold get_bound; now rewrite Hn | ].
  split; [ now rewrite length_map | ].
  split; [ now rewrite length_map | ].
  split; [ | split ].
  - rewrite (reached_fixed_parameters _ _ _ _ Hreach), count_nan_app,
      !count_nan_fixed_slots, Hn, Hr, length_app. reflexivity.
  - apply free_ends_differ. rewrite Hr.
    apply Forall_app; split; apply free_ranges_free.
  - intros axis Ha Hpos. unfold get_bound. rewrite Hn.
    apply get_bound_loop_axis; [ exact Ha | ].
    intro E. apply Hpos. now rewrite Hn, E.
Qed.

Lemma get_bound_gives_open_intervals_witness :
  let s := init [(Fin 0, Fin 0); (Fin 0, Fin 1)] [(Fin 10, Fin 10)]
             (constant_model_at [Fin 10]) in
  reachable s s
  /\ exists lo hi,
       get_bound s 0 = Ok lo /\ get_bound s 1 = Ok hi
       /\ get_bound s (-2) = Ok lo /\ get_bound s (-1) = Ok hi
       /\ Forall2 (fun l h => F.eqb l h = false) lo hi.
Proof.
  intro s. split; [ apply reach_init | ].
  destruct (get_bound_gives_open_intervals
              [(Fin 0, Fin 0); (Fin 0, Fin 1)] [(Fin 10, Fin 10)]
              (constant_model_at [Fin 10]) s (reach_init _))
    as (lo & hi & Hlo & Hhi & Hlo' & Hhi' & _ & _ & _ & Hopen & _).
  exists lo, hi. auto 6.
Defined.

(** ** Reading the free positions back *)

Lemma fixed_not_nan (r : range) : is_fixed r = true -> F.isnan (fst r) = false.
Proof. unfold is_fixed. intro E. now apply float_eqb_eq in E. Qed.

Lemma free_values_fill (rs : list range) : forall vals,
  length vals = length (free_ranges rs) ->
  free_values rs (fill_nan (fixed_slots rs) vals) = vals.
Proof.
  unfold free_values, fixed_slots, free_ranges.
  induction rs as [| r rs IH]; intros vals Hlen;
    cbn [map filter fill_nan combine length] in *.
  - destruct vals; [ reflexivity | discriminate ].
  - destruct (is_fixed r) eqn:E; cbn [negb] in *.
    + rewrite (fixed_not_nan r E).
      cbn [combine filter fst]. rewrite E. cbn [negb]. now apply IH.
    + cbn [F.isnan].
      destruct vals as [| v vals]; [ discriminate | ].
      cbn [combine filter fst]. rewrite E. cbn [negb map snd].
      f_equal. apply IH. simpl in Hlen. lia.
Qed.

Lemma free_values_broadcast (rs : list range) (v : float64) :
  free_values rs (map (fun x => if F.isnan x then v else x) (fixed_slots rs))
  = repeat v (length (free_ranges rs)).
Proof.
  unfold free_values, fixed_slots, free_ranges.
  induction rs as [| r rs IH]; cbn [map filter combine length repeat];
    [ reflexivity | ].
  destruct (is_fixed r) eqn:E; cbn [negb filter fst].
  - rewrite (fixed_not_nan r E), E. cbn [negb]. exact IH.
  - rewrite E. cbn [F.isnan negb map snd length repeat]. now rewrite IH.
Qed.

Lemma free_values_assign (rs : list range) (vals q : vec) :
  assign_where_nan (fixed_slots rs) vals = Ok q ->
  length vals = length (free_ranges rs) ->
  free_values rs q = vals.
Proof.
  unfold assign_where_nan. intros Hq Hlen.
  destruct vals as [| v [| v' vals]].
  - destruct (Nat.eqb _ _); [ | discriminate ]. injection Hq as <-.
    now apply free_values_fill.
  - injection Hq as <-. now rewrite free_values_broadcast, <- Hlen.
  - destruct (Nat.eqb _ _); [ | discriminate ]. injection Hq as <-.
    now apply free_values_fill.
Qed.

(** X2.  Assembling is inverted by reading the free positions: for a
    free-parameter vector of the right length, the free positions of the
    kinetic vector followed by the free positions of the initial
    conditions are the vector that was passed in, entry for entry. *)
Theorem free_positions_carry_the_free_vector
    {Sim : Type} `{Simulator Sim}
    (param_ranges x0_ranges : list range) (sim : Sim)
    (s : kinetic_estimation Sim) (v : vec) :
  reachable (init param_ranges x0_ranges sim) s ->
  length v = n_params s ->
  exists p q,
    assemble_kin_params s v = Ok p /\ assemble_x0 s v = Ok q
    /\ free_values param_ranges p ++ free_values x0_ranges q = v.
Proof.
  intros Hreach Hv.
  rewrite (reached_n_params _ _ _ _ Hreach),
    (reached_ranges _ _ _ _ Hreach), length_app in Hv.
  rewrite (reached_assemble_kin _ _ _ _ Hreach),
    (reached_assemble_x0 _ _ _ _ Hreach).
  set (n := length (free_ranges param_ranges)) in *.
  assert (Hk : length (firstn n v) = length (free_ranges param_ranges)).
  { rewrite length_firstn. fold n. lia. }
  assert (Hx : length (skipn n v) = length (free_ranges x0_ranges)).
  { rewrite length_skipn. lia. }
  destruct (assign_where_nan_total (fixed_slots param_ranges) (firstn n v))
    as (p & Hp & _).
  { now rewrite count_nan_fixed_slots. }
  destruct (assign_where_nan_total (fixed_slots x0_ranges) (skipn n v))
    as (q & Hq & _).
  { now rewrite count_nan_fixed_slots. }
  exists p, q. split; [ exact Hp | split; [ exact Hq | ] ].
  rewrite (free_values_assign _ _ _ Hp Hk), (free_values_assign _ _ _ Hq Hx).
  apply firstn_skipn.
Qed.

Lemma free_positions_carry_the_free_vector_witness :
  let pr := [(Fin 0, Fin 0); (Fin 0, Fin 1)] in
  let xr := [(Fin 0, Fin 10); (Fin 7, Fin 7)] in
  let s := init pr xr (constant_model_at []) in
  let v := [Fin 0.5; Fin 3] in
  (reachable s s /\ length v = n_params s)
  /\ exists p q,
       assemble_kin_params s v = Ok p /\ assemble_x0 s v = Ok q
       /\ free_values pr p ++ free_values xr q = v.
Proof.
  intros pr xr s v.
  assert (Hn : length v = n_params s).
  { unfold s, pr, xr. cbn [init n_params]. unfold free_ranges, is_fixed.
    simpl. Rdecide. reflexivity. }
  split; [ split; [ apply reach_init | exact Hn ] | ].
  exact (free_positions_carry_the_free_vector pr xr (constant_model_at [])
           s v (reach_init _) Hn).
Defined.

(** ** Vectors of the wrong length *)

Lemma fill_nan_nothing (p : vec) :
  count_nan p = 0%nat -> forall vals, fill_nan p vals = p.
Proof.
  unfold count_nan.
  induction p as [| x p IH]; intros Hc vals; simpl in *; [ reflexivity | ].
  destruct (F.isnan x); simpl in Hc; [ discriminate | ].
  now rewrite IH.
Qed.

Lemma broadcast_nothing (p : vec) (a : float64) :
  count_nan p = 0%nat -> map (fun x => if F.isnan x then a else x) p = p.
Proof.
  unfold count_nan.
  induction p as [| x p IH]; intros Hc; simpl in *; [ reflexivity | ].
  destruct (F.isnan x); simpl in Hc; [ discriminate | ].
  now rewrite IH.
Qed.

(** X3.  [assemble_kin_params] reads only the first [n_kin_params]
    entries of its argument.  It returns a full vector when the argument
    has at least that many entries, and also when it has exactly one: a
    single value is written into every free kinetic slot, however many
    there are.  In every other case it raises ValueError, and [set_params]
    raises with it before the simulator is touched. *)
Theorem assemble_kin_params_accepts
    {Sim : Type} `{Simulator Sim}
    (param_ranges x0_ranges : list range) (sim : Sim)
    (s : kinetic_estimation Sim) (v : vec) :
  reachable (init param_ranges x0_ranges sim) s ->
  ((n_kin_params s <= length v)%nat \/ length v = 1%nat ->
     exists p, assemble_kin_params s v = Ok p
               /\ length p = length param_ranges)
  /\ (~ ((n_kin_params s <= length v)%nat \/ length v = 1%nat) ->
        assemble_kin_params s v = Raise ValueError
        /\ set_params_m v s = Raises ValueError s [])
  /\ (forall a,
        assemble_kin_params s [a]
        = Ok (map (fun x => if F.isnan x then a else x)
                  (fixed_slots param_ranges))).
Proof.
  intro Hreach.
  pose proof (reached_n_kin _ _ _ _ Hreach) as Hk.
  assert (Hone : forall a,
             assemble_kin_params s [a]
             = Ok (map (fun x => if F.isnan x then a else x)
                       (fixed_slots param_ranges))).
  { intro a. rewrite (reached_assemble_kin _ _ _ _ Hreach).
    destruct (length (free_ranges param_ranges)) eqn:E; simpl.
    - unfold assign_where_nan. simpl.
      rewrite count_nan_fixed_slots, E. simpl.
      rewrite fill_nan_nothing, broadcast_nothing;
        try reflexivity; now rewrite count_nan_fixed_slots.
    - now rewrite firstn_nil. }
  split; [ | split; [ | exact Hone ] ].
  - intros [Hlen | Hlen].
    + rewrite (reached_assemble_kin _ _ _ _ Hreach).
      destruct (assign_where_nan_total (fixed_slots param_ranges)
                  (firstn (length (free_ranges param_ranges)) v))
        as (p & Hp & Hl).
      { rewrite count_nan_fixed_slots, length_firstn. lia. }
      exists p. split; [ exact Hp | ]. now rewrite Hl, fixed_slots_length.
    + destruct v as [| a [| b v]]; try discriminate.
      rewrite Hone. eexists. split; [ reflexivity | ].
      now rewrite length_map, fixed_slots_length.
  - intro Hno.
    assert (Hraise : assemble_kin_params s v = Raise ValueError).
    { rewrite (reached_assemble_kin _ _ _ _ Hreach).
      rewrite firstn_all2 by lia.
      unfold assign_where_nan. rewrite count_nan_fixed_slots, <- Hk.
      destruct v as [| a [| b v]].
      - destruct (Nat.eqb_spec (length (@nil float64)) (n_kin_params s))
          as [E |]; [ | reflexivity ].
        exfalso. apply Hno. left. rewrite <- E. lia.
      - exfalso. apply Hno. now right.
      - destruct (Nat.eqb_spec (length (a :: b :: v)) (n_kin_params s))
          as [E |]; [ | reflexivity ].
        exfalso. apply Hno. left. rewrite <- E. lia. }
    split; [ exact Hraise | ].
    unfold set_params_m, PyM.bind, PyM.get, PyM.lift. now rewrite Hraise.
Qed.

Lemma assemble_kin_params_accepts_witness :
  let s := init [(Fin 0, Fin 1); (Fin 2, Fin 2); (Fin 0, Fin 5)] []
             (constant_model_at []) in
  reachable s s
  /\ assemble_kin_params s [Fin 0.5]
     = Ok (map (fun x => if F.isnan x then Fin 0.5 else x)
               (fixed_slots [(Fin 0, Fin 1); (Fin 2, Fin 2); (Fin 0, Fin 5)])).
Proof.
  intro s. split; [ apply reach_init | ].
  destruct (assemble_kin_params_accepts
              [(Fin 0, Fin 1); (Fin 2, Fin 2); (Fin 0, Fin 5)] []
              (constant_model_at []) s [Fin 0.5] (reach_init _))
    as (_ & _ & Hone).
  exact (Hone (Fin 0.5)).
Defined.

(** ** Starting points *)

Lemma rescale_at_least_low (r : range) (x : float64) :
  finite_range r -> unit_draw x -> at_least_low r (rescale r x).
Proof.
  intros (lo & hi & -> & Hle) (u & -> & Hu).
  unfold at_least_low, rescale; simpl. apply Rleb_true. nra.
Qed.

Lemma random_row_at_least_low (rand : nat -> float64) (rs : list range) :
  Forall finite_range rs -> (forall k, unit_draw (rand k)) ->
  forall k, exists row,
    random_row rand rs (length rs) k = Ok row
    /\ Forall2 at_least_low rs row.
Proof.
  intros Hrs Hrand.
  induction Hrs as [| r rs Hr _ IH]; intro k; simpl.
  - exists []. split; [ reflexivity | constructor ].
  - destruct (IH (S k)) as (row & -> & Hrow). simpl.
    eexists. split; [ reflexivity | ].
    constructor; [ now apply rescale_at_least_low | exact Hrow ].
Qed.

Lemma rescale_row_at_least_low (rs : list range) :
  Forall finite_range rs ->
  forall row, length row = length rs -> Forall unit_draw row ->
  exists row',
    rescale_row rs (length rs) row = Ok row'
    /\ Forall2 at_least_low rs row'.
Proof.
  induction 1 as [| r rs Hr _ IH]; intros row Hlen Hrow.
  - destruct row; [ | discriminate ].
    exists []. split; [ reflexivity | constructor ].
  - destruct row as [| x row]; [ discriminate | ].
    inversion Hrow as [| ? ? Hx Hrest]; subst.
    destruct (IH row) as (row' & E & Hin); [ simpl in Hlen; lia | exact Hrest | ].
    simpl. rewrite E. simpl.
    eexists. split; [ reflexivity | ].
    constructor; [ now apply rescale_at_least_low | exact Hin ].
Qed.

Lemma sequence_map_all {A B} (f : A -> result B) (Q : B -> Prop)
    (l : list A) :
  Forall (fun x => exists y, f x = Ok y /\ Q y) l ->
  exists ys, sequence (map f l) = Ok ys
             /\ length ys = length l /\ Forall Q ys.
Proof.
  induction 1 as [| x l (y & Hy & HQ) _ (ys & E & Hl & Hall)]; simpl.
  - exists []. repeat split. constructor.
  - rewrite Hy, E. simpl. exists (y :: ys).
    split; [ reflexivity | split; [ simpl; now rewrite Hl | ] ].
    now constructor.
Qed.

Lemma at_least_low_bounds (rs : list range) (row : vec) :
  Forall2 at_least_low rs row ->
  Forall2 (fun l x => F.leb l x = true) (map fst rs) row.
Proof. induction 1; simpl; constructor; assumption. Qed.

(** X4.  With finite ranges given low end first, draws from [[0, 1)],
    and a Latin hypercube design of [n_params] columns with entries in
    [[0, 1)], [sample_p0] returns one row per sample and one entry per
    free parameter, none of them below the lower bound [get_bound(0)]
    reports for it, whichever method is asked for.  (Nothing is said of
    the upper bounds: there the last place of the double decides.) *)
Theorem sample_p0_not_below_lower_bounds
    {Sim : Type} `{Simulator Sim}
    (param_ranges x0_ranges : list range) (sim : Sim)
    (s : kinetic_estimation Sim)
    (lhs : nat -> nat -> matrix) (rand : nat -> float64)
    (samples : nat) (method : string) :
  reachable (init param_ranges x0_ranges sim) s ->
  Forall finite_range (ranges s) ->
  (forall k, unit_draw (rand k)) ->
  Forall (fun row => length row = n_params s /\ Forall unit_draw row)
         (lhs samples (n_params s)) ->
  exists P lo,
    sample_p0 lhs rand s samples method = Ok P
    /\ get_bound s 0 = Ok lo
    /\ Forall (Forall2 (fun l x => F.leb l x = true) lo) P
    /\ length P = (if String.eqb method "lhs"
                   then length (lhs samples (n_params s))
                   else samples).
Proof.
  intros Hreach Hfin Hrand Hlhs.
  pose proof (reached_n_params _ _ _ _ Hreach) as Hn.
  pose proof (reached_get_bound_low _ _ _ _ Hreach) as Hlo.
  unfold sample_p0. destruct (String.eqb method "lhs").
  - destruct (sequence_map_all
                (rescale_row (ranges s) (n_params s))
                (Forall2 at_least_low (ranges s))
                (lhs samples (n_params s))) as (P & E & Hl & Hall).
    { eapply Forall_impl; [ | exact Hlhs ]. intros row [Hlen Hrow].
      rewrite Hn in *. now apply rescale_row_at_least_low. }
    exists P, (map fst (ranges s)).
    split; [ exact E | split; [ exact Hlo | split; [ | exact Hl ] ] ].
    eapply Forall_impl; [ | exact Hall ]. apply at_least_low_bounds.
  - destruct (sequence_map_all
                (fun n => random_row rand (ranges s) (n_params s)
                            (n * n_params s))
                (Forall2 at_least_low (ranges s))
                (seq 0 samples)) as (P & E & Hl & Hall).
    { apply Forall_forall. intros n _. rewrite Hn.
      now apply random_row_at_least_low. }
    exists P, (map fst (ranges s)). rewrite length_seq in Hl.
    split; [ exact E | split; [ exact Hlo | split; [ | exact Hl ] ] ].
    eapply Forall_impl; [ | exact Hall ]. apply at_least_low_bounds.
Qed.

Lemma sample_p0_not_below_lower_bounds_witness :
  let s := init [(Fin 0, Fin 0); (Fin 1, Fin 3)] [(Fin 0, Fin 10)]
             (constant_model_at []) in
  let lhs := fun n m : nat => repeat (repeat (Fin 0.5) m) n in
  let rand := fun _ : nat => Fin 0.25 in
  (reachable s s /\ Forall finite_range (ranges s)
   /\ (forall k, unit_draw (rand k))
   /\ Forall (fun row => length row = n_params s /\ Forall unit_draw row)
        (lhs 3%nat (n_params s)))
  /\ exists P lo,
       sample_p0 lhs rand s 3 "uniform" = Ok P
       /\ get_bound s 0 = Ok lo
       /\ Forall (Forall2 (fun l x => F.leb l x = true) lo) P
       /\ length P = 3%nat.
Proof.
  intros s lhs rand.
  assert (Hfin : Forall finite_range (ranges s)).
  { unfold s. cbn [init ranges]. unfold free_ranges, is_fixed. simpl.
    Rdecide. simpl.
    repeat constructor; [ exists 1, 3 | exists 0, 10 ];
      (split; [ reflexivity | lra ]). }
  assert (Hrand : forall k, unit_draw (rand k)).
  { intro k. exists 0.25. split; [ reflexivity | lra ]. }
  assert (Hlhs : Forall (fun row => length row = n_params s
                                    /\ Forall unit_draw row)
                   (lhs 3%nat (n_params s))).
  { apply Forall_forall. intros row Hin. unfold lhs in Hin.
    apply repeat_spec in Hin. subst row.
    split; [ apply repeat_length | ].
    apply Forall_forall. intros x Hx. apply repeat_spec in Hx. subst x.
    exists 0.5. split; [ reflexivity | lra ]. }
  split; [ auto using reach_init | ].
  exact (sample_p0_not_below_lower_bounds
           [(Fin 0, Fin 0); (Fin 1, Fin 3)] [(Fin 0, Fin 10)]
           (constant_model_at []) s lhs rand 3 "uniform"
           (reach_init _) Hfin Hrand Hlhs).
Defined.

(** ** The stored fit *)

Section FitKept.

Context {Sim : Type} `{Simulator Sim}.

Variable c : option vec * option float64.

Let J (s : kinetic_estimation Sim) : Prop := stored_fit s = c.

Lemma update_simulator_keeps_fit f : preserves J (update_simulator f).
Proof. intros s Hs; exact Hs. Qed.

Hint Resolve update_simulator_keeps_fit : effects.

Lemma set_params_keeps_fit params : preserves J (set_params_m params).
Proof. unfold set_params_m; chain. Qed.

Lemma resolve_method_keeps_fit method : preserves J (resolve_method method).
Proof. unfold resolve_method; chain. Qed.

Hint Resolve set_params_keeps_fit resolve_method_keeps_fit : effects.

Lemma f_lsq_keeps_fit ex params t x_data method normalize :
  preserves J (f_lsq ex params t x_data method normalize).
Proof. unfold f_lsq; chain. Qed.

Lemma fit_loop_keeps_fit ls f bounds p0 n :
  client ls -> (forall p, preserves J (f p)) ->
  forall i, preserves J (fit_loop ls f bounds p0 i n).
Proof.
  intros Hls Hf; induction n as [| n IH]; intro i; simpl.
  - auto with effects.
  - chain.
Qed.

Lemma test_chi2_keeps_fit cdf t x_data species method normalize :
  preserves J (test_chi2 cdf t x_data species method normalize).
Proof. unfold test_chi2; chain. Qed.

End FitKept.

Section Triples.

Context {St : Type}.

Lemma triple_bind {A B} (P : St -> Prop) (m : Py St A) (k : A -> Py St B)
    (Q : A -> St -> Prop) (R : B -> St -> Prop) (E : St -> Prop) :
  triple P m Q E -> (forall a, triple (Q a) (k a) R E) ->
  triple P (PyM.bind m k) R E.
Proof.
  intros Hm Hk s Hs. unfold PyM.bind. specialize (Hm s Hs).
  destruct (m s) as [a s' w | e s' w]; [ | exact Hm ].
  specialize (Hk a s' Hm). destruct (k a s'); exact Hk.
Qed.

Lemma triple_preserves {A} (I : St -> Prop) (m : Py St A) :
  preserves I m -> triple I m (fun _ => I) I.
Proof.
  intros Hm s Hs. specialize (Hm s Hs). destruct (m s); exact Hm.
Qed.

End Triples.

Lemma stay_put_client {Sim : Type} `{Simulator Sim} :
  client (stay_put (Sim := Sim)).
Proof.
  intros I f x0 b Hf. unfold stay_put.
  apply preserves_bind; [ apply Hf | intro; apply preserves_ret ].
Qed.

(** X5.  [set_params], [f_lsq] and [test_chi2] never touch the stored
    fit: whether they return or raise, [popt] and [cost] are what they
    were. *)
Theorem stored_fit_survives_other_methods
    {Sim : Type} `{Simulator Sim} (s : kinetic_estimation Sim)
    (ex : extractor Sim) (cdf : float64 -> Z -> float64)
    (params t : vec) (x_data : matrix) (x_obs : ndarray)
    (species : option (list nat)) (method : option string) (m : string)
    (normalize : bool) :
  stored_fit (final (set_params_m params s)) = stored_fit s
  /\ stored_fit (final (f_lsq ex params t x_data method normalize s))
     = stored_fit s
  /\ stored_fit (final (test_chi2 cdf t x_obs species m normalize s))
     = stored_fit s.
Proof.
  split; [ | split ].
  - now apply (set_params_keeps_fit (stored_fit s)).
  - now apply (f_lsq_keeps_fit (stored_fit s)).
  - now apply (test_chi2_keeps_fit (stored_fit s)).
Qed.

Lemma fit_lsq_contract
    {Sim : Type} `{Simulator Sim} (c : option vec * option float64)
    (ex : extractor Sim) (lhs : nat -> nat -> matrix) (rand : nat -> float64)
    (ls : (vec -> Py (kinetic_estimation Sim) vec) -> vec -> vec * vec ->
          Py (kinetic_estimation Sim) (vec * float64))
    (t : vec) (x_data : matrix) (p0 : option starts) (n_p0 : nat)
    (bounds : option (vec * vec)) (sample_method : string)
    (method : option string) (normalize : bool) :
  client ls ->
  triple (fun s => stored_fit s = c)
    (fit_lsq ex lhs rand ls t x_data p0 n_p0 bounds sample_method method
       normalize)
    (fun r s' => stored_fit s' = (Some (fst r), Some (snd r)))
    (fun s' => stored_fit s' = c).
Proof.
  intro Hls.
  set (J := fun s' : kinetic_estimation Sim => stored_fit s' = c).
  unfold fit_lsq.
  apply triple_bind with (Q := fun _ => J);
    [ apply triple_preserves, preserves_get | intro self ].
  apply triple_bind with (Q := fun _ => J);
    [ apply triple_preserves, preserves_lift | intro p0n ].
  apply triple_bind with (Q := fun _ => J);
    [ apply triple_preserves, preserves_lift | intro bnds ].
  apply triple_bind with (Q := fun _ => J).
  { apply triple_preserves. apply fit_loop_keeps_fit; [ exact Hls | ].
    intro p. apply f_lsq_keeps_fit. }
  intro fits.
  apply triple_bind with (Q := fun _ => J);
    [ apply triple_preserves, preserves_lift | intro i_min ].
  apply triple_bind with (Q := fun _ => J);
    [ apply triple_preserves, preserves_lift | intro best ].
  intros s' _. reflexivity.
Qed.

(** X6.  [fit_lsq] stores exactly what it returns: when it returns
    [(x, c)], [popt] is [x], [cost] is [c] and [get_SSE] gives [c]; when it
    raises, at whatever point, the previously stored fit is untouched.  The
    optimiser is any client of the residual function. *)
Theorem fit_lsq_stores_what_it_returns
    {Sim : Type} `{Simulator Sim} (s : kinetic_estimation Sim)
    (ex : extractor Sim) (lhs : nat -> nat -> matrix) (rand : nat -> float64)
    (ls : (vec -> Py (kinetic_estimation Sim) vec) -> vec -> vec * vec ->
          Py (kinetic_estimation Sim) (vec * float64))
    (t : vec) (x_data : matrix) (p0 : option starts) (n_p0 : nat)
    (bounds : option (vec * vec)) (sample_method : string)
    (method : option string) (normalize : bool) :
  client ls ->
  match fit_lsq ex lhs rand ls t x_data p0 n_p0 bounds sample_method method
          normalize s with
  | Returns r s' _ =>
      popt s' = Some (fst r) /\ cost s' = Some (snd r)
      /\ get_SSE s' = Some (snd r)
  | Raises _ s' _ => stored_fit s' = stored_fit s
  end.
Proof.
  intro Hls.
  pose proof (fit_lsq_contract (stored_fit s) ex lhs rand ls t x_data p0 n_p0
                bounds sample_method method normalize Hls s eq_refl) as Hrun.
  destruct (fit_lsq ex lhs rand ls t x_data p0 n_p0 bounds sample_method
              method normalize s) as [r s' w | e s' w]; [ | exact Hrun ].
  unfold stored_fit in Hrun. injection Hrun as Hp Hc.
  unfold get_SSE. auto.
Qed.

Lemma fit_lsq_stores_what_it_returns_witness :
  let s := init [(Fin 0, Fin 0); (Fin 0, Fin 1)] [(Fin 0, Fin 10)]
             (constant_model_at []) in
  client (stay_put (Sim := constant_model))
  /\ match fit_lsq extract_data_from_simulator (fun _ _ => []) (fun _ => Fin 0)
             stay_put [Fin 0; Fin 1] [[Fin 1; Fin 2]]
             (Some (One [Fin 0.5; Fin 3])) 1 None "lhs" None true s with
     | Returns r s' _ => popt s' = Some (fst r) /\ cost s' = Some (snd r)
     | Raises _ s' _ => stored_fit s' = stored_fit s
     end.
Proof.
  intro s. split; [ apply stay_put_client | ].
  pose proof (fit_lsq_stores_what_it_returns s extract_data_from_simulator
                (fun _ _ => []) (fun _ => Fin 0) stay_put
                [Fin 0; Fin 1] [[Fin 1; Fin 2]]
                (Some (One [Fin 0.5; Fin 3])) 1 None "lhs" None true
                stay_put_client) as Hfit.
  destruct (fit_lsq _ _ _ _ _ _ _ _ _ _ _ _ s); [ | exact Hfit ].
  destruct Hfit as (Hp & Hc & _). auto.
Defined.

(** ** The fit that is kept *)

Lemma leb_trans (x y z : float64) :
  F.leb x y = true -> F.leb y z = true -> F.leb x z = true.
Proof.
  destruct x, y, z; simpl; try discriminate; try reflexivity.
  intros H1 H2. apply Rleb_true in H1, H2. apply Rleb_true. lra.
Qed.

Lemma leb_total (x y : float64) :
  F.isnan x = false -> F.isnan y = false ->
  F.leb x y = false -> F.leb y x = true.
Proof.
  destruct x, y; simpl; try discriminate; try reflexivity.
  intros _ _ E. apply Rleb_false in E. apply Rleb_true. lra.
Qed.

Lemma better_spec (x b : float64) :
  F.isnan x = false -> F.isnan b = false ->
  better x b = negb (F.leb b x).
Proof. destruct x, b; simpl; try discriminate; reflexivity. Qed.

Lemma argmin_from_least (l : vec) : forall bi b i,
  F.isnan b = false -> Forall (fun x => F.isnan x = false) l ->
  exists m,
    ((argmin_from bi b i l = bi /\ m = b)
     \/ ((i <= argmin_from bi b i l)%nat
         /\ nth_error l (argmin_from bi b i l - i) = Some m))
    /\ F.leb m b = true
    /\ Forall (fun x => F.leb m x = true) l.
Proof.
  induction l as [| x l IH]; intros bi b i Hb Hl.
  - exists b. split; [ now left | ].
    split; [ now apply leb_refl | constructor ].
  - inversion Hl as [| ? ? Hx Hl']; subst. cbn [argmin_from].
    rewrite better_spec by assumption.
    destruct (F.leb b x) eqn:E; cbn [negb].
    + destruct (IH bi b (S i) Hb Hl') as (m & Hj & Hmb & Hall).
      exists m. split; [ | split; [ exact Hmb | ] ].
      * destruct Hj as [Hj | [Hge Hj]]; [ now left | right ].
        split; [ lia | ].
        replace (argmin_from bi b (S i) l - i)%nat
          with (S (argmin_from bi b (S i) l - S i)) by lia.
        exact Hj.
      * constructor; [ now apply leb_trans with b | exact Hall ].
    + pose proof (leb_total b x Hb Hx E) as Hxb.
      destruct (IH i x (S i) Hx Hl') as (m & Hj & Hmx & Hall).
      exists m. split; [ right | split ].
      * destruct Hj as [[Hj ->] | [Hge Hj]].
        -- rewrite Hj, Nat.sub_diag. split; [ lia | reflexivity ].
        -- split; [ lia | ].
           replace (argmin_from i x (S i) l - i)%nat
             with (S (argmin_from i x (S i) l - S i)) by lia.
           exact Hj.
      * now apply leb_trans with x.
      * constructor; assumption.
Qed.

Lemma argmin_least (costs : vec) :
  costs <> [] -> Forall (fun x => F.isnan x = false) costs ->
  exists i m,
    argmin costs = Ok i /\ nth_error costs i = Some m
    /\ Forall (fun x => F.leb m x = true) costs.
Proof.
  destruct costs as [| c l]; [ congruence | ]. intros _ Hall.
  inversion Hall as [| ? ? Hc Hl]; subst.
  destruct (argmin_from_least l 0%nat c 1%nat Hc Hl) as (m & Hj & Hmc & Hle).
  exists (argmin_from 0%nat c 1%nat l), m.
  split; [ reflexivity | split ].
  - destruct Hj as [[-> ->] | [Hge Hj]]; [ reflexivity | ].
    replace (argmin_from 0%nat c 1%nat l)
      with (S (argmin_from 0%nat c 1%nat l - 1)) by lia.
    exact Hj.
  - constructor; assumption.
Qed.

Lemma fit_loop_length {Sim : Type} `{Simulator Sim}
    (ls : (vec -> Py (kinetic_estimation Sim) vec) -> vec -> vec * vec ->
          Py (kinetic_estimation Sim) (vec * float64))
    f b p0 n :
  forall i s fits s1 w,
    fit_loop ls f b p0 i n s = Returns fits s1 w -> length fits = n.
Proof.
  induction n as [| n IH]; intros i s fits s1 w Hrun.
  - injection Hrun as <- _ _. reflexivity.
  - cbn [fit_loop] in Hrun. unfold PyM.bind, PyM.lift, PyM.ret in Hrun.
    destruct (getitem p0 i) as [start | e]; [ | discriminate ].
    destruct (ls f start b s) as [r s2 w2 | e s2 w2]; [ | discriminate ].
    destruct (fit_loop ls f b p0 (S i) n s2) as [rs s3 w3 | e s3 w3] eqn:E;
      [ | discriminate ].
    injection Hrun as <- _ _. simpl. f_equal. now apply IH in E.
Qed.

(** X7.  Given a stack of starting points and explicit bounds, when the
    optimisations all return and no cost is NaN, [fit_lsq] returns one of
    the optimiser's answers, its cost is below or equal to the cost of
    every other answer, and that answer is what is stored; the warnings
    are those of the optimisations. *)
Theorem fit_lsq_keeps_the_cheapest_fit
    {Sim : Type} `{Simulator Sim} (s s1 : kinetic_estimation Sim)
    (ex : extractor Sim) (lhs : nat -> nat -> matrix) (rand : nat -> float64)
    (ls : (vec -> Py (kinetic_estimation Sim) vec) -> vec -> vec * vec ->
          Py (kinetic_estimation Sim) (vec * float64))
    (t : vec) (x_data : matrix) (ps : list vec) (n_p0 : nat)
    (b : vec * vec) (sample_method : string)
    (method : option string) (normalize : bool)
    (fits : list (vec * float64)) (w : list string) :
  ps <> [] ->
  fit_loop ls (fit_objective ex t x_data method normalize) b ps 0 (length ps) s
  = Returns fits s1 w ->
  Forall (fun r => F.isnan (snd r) = false) fits ->
  exists best,
    fit_lsq ex lhs rand ls t x_data (Some (Many ps)) n_p0 (Some b)
      sample_method method normalize s
    = Returns best (with_fit (fst best) (snd best) s1) w
    /\ In best fits
    /\ Forall (fun r => F.leb (snd best) (snd r) = true) fits.
Proof.
  intros Hps Hloop Hcost.
  pose proof (fit_loop_length _ _ _ _ _ _ _ _ _ _ Hloop) as Hlen.
  destruct (argmin_least (map snd fits)) as (i & m & Hi & Hnth & Hmin).
  { destruct fits; [ | discriminate ].
    destruct ps; [ congruence | discriminate ]. }
  { now apply Forall_map. }
  rewrite nth_error_map in Hnth.
  destruct (nth_error fits i) as [best |] eqn:Hbest; [ | discriminate ].
  injection Hnth as <-.
  exists best. split; [ | split ].
  - unfold fit_lsq, PyM.bind, PyM.get, PyM.lift, PyM.ret.
    cbn [fst snd]. rewrite Hloop, Hi. unfold getitem. rewrite Hbest.
    cbn [app]. now rewrite !app_nil_r.
  - now apply nth_error_In with i.
  - now apply Forall_map in Hmin.
Qed.

Lemma fit_lsq_keeps_the_cheapest_fit_witness :
  let s := init [(Fin 0, Fin 1)] [] (constant_model_at []) in
  let ls := fun (_ : vec -> Py (kinetic_estimation constant_model) vec)
                (x0 : vec) (_ : vec * vec) =>
              PyM.ret (St := kinetic_estimation constant_model)
                (x0, F.dot x0 x0) in
  let ps := [[Fin 3]; [Fin 1]; [Fin 2]] in
  let fits := [([Fin 3], F.dot [Fin 3] [Fin 3]);
               ([Fin 1], F.dot [Fin 1] [Fin 1]);
               ([Fin 2], F.dot [Fin 2] [Fin 2])] in
  (ps <> []
   /\ Forall (fun r : vec * float64 => F.isnan (snd r) = false) fits)
  /\ exists best,
       fit_lsq extract_data_from_simulator (fun _ _ => []) (fun _ => Fin 0)
         ls [Fin 0] [[Fin 1]] (Some (Many ps)) 1 (Some ([Fin 0], [Fin 1]))
         "lhs" None true s
       = Returns best (with_fit (fst best) (snd best) s) []
       /\ In best fits.
Proof.
  intros s ls ps fits.
  assert (Hps : ps <> []) by discriminate.
  assert (Hfits : Forall (fun r : vec * float64 => F.isnan (snd r) = false)
                    fits) by (repeat constructor).
  split; [ auto | ].
  destruct (fit_lsq_keeps_the_cheapest_fit s s extract_data_from_simulator
              (fun _ _ => []) (fun _ => Fin 0) ls [Fin 0] [[Fin 1]] ps 1
              ([Fin 0], [Fin 1]) "lhs" None true fits [] Hps eq_refl Hfits)
    as (best & Hrun & Hin & _).
  exists best. auto.
Defined.

(** X8.  Without a starting point there is nothing to choose from:
    given an empty stack of starts, or asked to draw zero starts with the
    uniform sampler, [fit_lsq] raises ValueError without running the
    optimiser, and the object is left as it was. *)
Theorem fit_lsq_without_start_raises
    {Sim : Type} `{Simulator Sim}
    (param_ranges x0_ranges : list range) (sim : Sim)
    (s : kinetic_estimation Sim)
    (ex : extractor Sim) (lhs : nat -> nat -> matrix) (rand : nat -> float64)
    (ls : (vec -> Py (kinetic_estimation Sim) vec) -> vec -> vec * vec ->
          Py (kinetic_estimation Sim) (vec * float64))
    (t : vec) (x_data : matrix) (n_p0 : nat)
    (bounds : option (vec * vec)) (sample_method : string)
    (method : option string) (normalize : bool) :
  reachable (init param_ranges x0_ranges sim) s ->
  fit_lsq ex lhs rand ls t x_data (Some (Many [])) n_p0 bounds sample_method
    method normalize s
  = Raises ValueError s []
  /\ (String.eqb sample_method "lhs" = false ->
      fit_lsq ex lhs rand ls t x_data None 0 bounds sample_method
        method normalize s
      = Raises ValueError s []).
Proof.
  intro Hreach.
  pose proof (reached_get_bound_low _ _ _ _ Hreach) as Hlo.
  pose proof (reached_get_bound_high _ _ _ _ Hreach) as Hhi.
  split; [ | intro Hsm ];
    unfold fit_lsq, PyM.bind, PyM.get, PyM.lift, PyM.ret, sample_p0;
    rewrite ?Hsm; destruct bounds as [b |]; rewrite ?Hlo, ?Hhi; reflexivity.
Qed.

Lemma fit_lsq_without_start_raises_witness :
  let s := init [(Fin 0, Fin 1)] [] (constant_model_at []) in
  reachable s s
  /\ fit_lsq extract_data_from_simulator (fun _ _ => []) (fun _ => Fin 0)
       stay_put [Fin 0] [[Fin 1]] (Some (Many [])) 1 None "lhs" None true s
     = Raises ValueError s [].
Proof.
  intro s. split; [ apply reach_init | ].
  destruct (fit_lsq_without_start_raises [(Fin 0, Fin 1)] []
              (constant_model_at []) s extract_data_from_simulator
              (fun _ _ => []) (fun _ => Fin 0) stay_put [Fin 0] [[Fin 1]] 1
              None "lhs" None true (reach_init _)) as [Hrun _].
  exact Hrun.
Defined.

(** ** The guesses *)

Lemma last_item_nonempty {A} (l : list A) :
  l <> [] -> exists y, last_item l = Ok y.
Proof.
  intro Hne. destruct (exists_last Hne) as (ys & y & ->).
  exists y. unfold last_item. now rewrite rev_app_distr.
Qed.

Lemma clip_between (y : float64) (lo hi : R) :
  lo <= hi ->
  F.clip y (Fin lo) (Fin hi) = NaN
  \/ exists g, F.clip y (Fin lo) (Fin hi) = Fin g /\ lo <= g <= hi.
Proof.
  intro Hle. destruct y as [| | | a].
  - now left.
  - right. exists lo. unfold F.clip. cbn [F.maximum F.leb].
    rewrite minimum_fin. split; [ | lra ].
    f_equal. now apply Rmin_left.
  - right. exists hi. unfold F.clip. cbn. split; [ reflexivity | lra ].
  - right. rewrite clip_fin. eexists. split; [ reflexivity | ].
    now apply clip_range.
Qed.

(** X9.  [guestimate_gamma] raises IndexError exactly when the data or
    the time vector is empty.  Whatever the numbers otherwise, the guess
    is either NaN or a finite value between [1e-3] and [1e3]: never zero,
    never negative, never infinite. *)
Theorem guestimate_gamma_is_nan_or_clipped (x t : vec) :
  match guestimate_gamma x t with
  | Ok g =>
      x <> [] /\ t <> []
      /\ (g = NaN \/ exists r, g = Fin r /\ 1e-3 <= r <= 1e3)
  | Raise e => e = IndexError /\ (x = [] \/ t = [])
  end.
Proof.
  unfold guestimate_gamma.
  destruct x as [| a x]; [ simpl; auto | ].
  unfold getitem at 1. cbn [nth_error bind].
  destruct (last_item_nonempty (a :: x)) as (xl & ->); [ discriminate | ].
  cbn [bind].
  destruct t as [| b t]; [ simpl; auto | ].
  destruct (last_item_nonempty (b :: t)) as (tl & ->); [ discriminate | ].
  cbn [bind].
  split; [ discriminate | split; [ discriminate | ] ].
  apply clip_between. lra.
Qed.

(** X10.  On data that does not decay, the first value being positive
    and at most the last one (plus the [1e-6] of the formula), with a
    positive last time, the guess is exactly the floor [1e-3]. *)
Theorem guestimate_gamma_floor_without_decay (xs ts : list R) :
  xs <> [] -> ts <> [] ->
  0 < hd 0 xs -> hd 0 xs <= last xs 0 + 1e-6 -> 0 < last ts 0 ->
  guestimate_gamma (map Fin xs) (map Fin ts) = Ok (Fin 1e-3).
Proof.
  intros Hx Ht Hfirst Hgrow Htl. unfold guestimate_gamma.
  rewrite (getitem_first_fin _ Hx), (last_item_fin _ Hx), (last_item_fin _ Ht).
  cbn [bind F.add].
  set (d := last xs 0 + 1e-6) in *.
  rewrite div_fin by lra.
  rewrite log_fin by (apply Rdiv_lt_0_compat; lra).
  rewrite div_fin by lra. rewrite clip_fin.
  assert (Hratio : hd 0 xs / d <= 1).
  { apply Rmult_le_reg_r with d; [ lra | ].
    unfold Rdiv. rewrite Rmult_assoc, Rinv_l by lra. lra. }
  assert (Hln : ln (hd 0 xs / d) <= ln 1).
  { destruct Hratio as [Hlt | Heq].
    - left. apply ln_increasing; [ apply Rdiv_lt_0_compat; lra | exact Hlt ].
    - right. now rewrite Heq. }
  rewrite ln_1 in Hln.
  set (L := ln (hd 0 xs / d)) in *.
  assert (Hinv : 0 < / last ts 0) by (apply Rinv_0_lt_compat; lra).
  assert (Hq : L / last ts 0 <= 0) by (unfold Rdiv; nra).
  rewrite Rmax_right by lra. rewrite Rmin_left by lra. reflexivity.
Qed.

Lemma guestimate_gamma_floor_without_decay_witness :
  ([2; 3; 5] <> [] /\ [0; 1; 2] <> []
   /\ 0 < hd 0 [2; 3; 5] /\ hd 0 [2; 3; 5] <= last [2; 3; 5] 0 + 1e-6
   /\ 0 < last [0; 1; 2] 0)
  /\ guestimate_gamma [Fin 2; Fin 3; Fin 5] [Fin 0; Fin 1; Fin 2]
     = Ok (Fin 1e-3).
Proof.
  assert (Hx : [2; 3; 5] <> []) by discriminate.
  assert (Ht : [0; 1; 2] <> []) by discriminate.
  assert (H1 : 0 < hd 0 [2; 3; 5]) by (simpl; lra).
  assert (H2 : hd 0 [2; 3; 5] <= last [2; 3; 5] 0 + 1e-6) by (simpl; lra).
  assert (H3 : 0 < last [0; 1; 2] 0) by (simpl; lra).
  split; [ auto 6 | ].
  exact (guestimate_gamma_floor_without_decay [2; 3; 5] [0; 1; 2]
           Hx Ht H1 H2 H3).
Defined.

Lemma clip_floor (x : float64) (lo : R) :
  F.clip x (Fin lo) PInf = NaN
  \/ F.leb (Fin lo) (F.clip x (Fin lo) PInf) = true.
Proof.
  destruct x as [| | | a].
  - now left.
  - right. unfold F.clip. cbn. apply Rleb_true. lra.
  - right. reflexivity.
  - right. unfold F.clip. rewrite maximum_fin. cbn.
    apply Rleb_true. apply Rmax_r.
Qed.

Lemma max_axis1_total (X : matrix) :
  match max_axis1 X with
  | Ok m => length m = length X /\ ~ In [] X
  | Raise e => e = ValueError /\ In [] X
  end.
Proof.
  unfold max_axis1.
  induction X as [| row X IH]; cbn [map sequence].
  - split; [ reflexivity | intros [] ].
  - destruct row as [| x row]; cbn [row_max bind].
    + split; [ reflexivity | now left ].
    + destruct (sequence (map row_max X)) as [m | e]; cbn [bind].
      * destruct IH as [Hl Hne]. split; [ simpl; now rewrite Hl | ].
        intros [E | Hin]; [ discriminate | now apply Hne ].
      * destruct IH as [-> Hin]. split; [ reflexivity | now right ].
Qed.

(** X11.  On data with at least one row, [guestimate_init_cond] raises
    ValueError exactly when some row has no entry.  Otherwise it returns
    one guess per row, each of them NaN or at least [1e-4]: never zero,
    never negative. *)
Theorem guestimate_init_cond_is_nan_or_floored (X : matrix) :
  X <> [] ->
  match guestimate_init_cond X with
  | Ok x0 =>
      length x0 = length X /\ ~ In [] X
      /\ Forall (fun x => x = NaN \/ F.leb (Fin 1e-4) x = true) x0
  | Raise e => e = ValueError /\ In [] X
  end.
Proof.
  intros _. unfold guestimate_init_cond.
  pose proof (max_axis1_total X) as Hmax.
  destruct (max_axis1 X) as [m | e]; cbn [bind]; [ | exact Hmax ].
  destruct Hmax as [Hl Hne].
  split; [ now rewrite length_map | split; [ exact Hne | ] ].
  apply Forall_map, Forall_forall. intros x _. apply clip_floor.
Qed.

Lemma guestimate_init_cond_is_nan_or_floored_witness :
  let X := [[Fin 0; Fin 0]; [Fin 2; Fin 3]] in
  X <> []
  /\ exists x0,
       guestimate_init_cond X = Ok x0 /\ length x0 = 2%nat
       /\ Forall (fun x => x = NaN \/ F.leb (Fin 1e-4) x = true) x0.
Proof.
  intro X. assert (HX : X <> []) by discriminate.
  split; [ exact HX | ].
  pose proof (guestimate_init_cond_is_nan_or_floored X HX) as Hg.
  destruct (guestimate_init_cond X) as [x0 | e].
  - exists x0. destruct Hg as (Hl & _ & Hall). auto.
  - exfalso. destruct Hg as [_ [E | [E | []]]]; discriminate.
Defined.

Lemma larger_spec (x b : float64) :
  F.isnan x = false -> F.isnan b = false ->
  larger x b = negb (F.leb x b).
Proof. destruct x, b; simpl; try discriminate; reflexivity. Qed.

Lemma argmax_from_greatest (l : vec) : forall bi b i,
  F.isnan b = false -> Forall (fun x => F.isnan x = false) l ->
  exists m,
    ((argmax_from bi b i l = bi /\ m = b)
     \/ ((i <= argmax_from bi b i l)%nat
         /\ nth_error l (argmax_from bi b i l - i) = Some m))
    /\ F.leb b m = true
    /\ Forall (fun x => F.leb x m = true) l.
Proof.
  induction l as [| x l IH]; intros bi b i Hb Hl.
  - exists b. split; [ now left | ].
    split; [ now apply leb_refl | constructor ].
  - inversion Hl as [| ? ? Hx Hl']; subst. cbn [argmax_from].
    rewrite larger_spec by assumption.
    destruct (F.leb x b) eqn:E; cbn [negb].
    + destruct (IH bi b (S i) Hb Hl') as (m & Hj & Hbm & Hall).
      exists m. split; [ | split; [ exact Hbm | ] ].
      * destruct Hj as [Hj | [Hge Hj]]; [ now left | right ].
        split; [ lia | ].
        replace (argmax_from bi b (S i) l - i)%nat
          with (S (argmax_from bi b (S i) l - S i)) by lia.
        exact Hj.
      * constructor; [ now apply leb_trans with b | exact Hall ].
    + pose proof (leb_total x b Hx Hb E) as Hbx.
      destruct (IH i x (S i) Hx Hl') as (m & Hj & Hxm & Hall).
      exists m. split; [ right | split ].
      * destruct Hj as [[Hj ->] | [Hge Hj]].
        -- rewrite Hj, Nat.sub_diag. split; [ lia | reflexivity ].
        -- split; [ lia | ].
           replace (argmax_from i x (S i) l - i)%nat
             with (S (argmax_from i x (S i) l - S i)) by lia.
           exact Hj.
      * now apply leb_trans with x.
      * constructor; assumption.
Qed.

Lemma argmax_greatest (a : vec) :
  a <> [] -> Forall (fun x => F.isnan x = false) a ->
  exists i m,
    argmax a = Ok i /\ nth_error a i = Some m
    /\ Forall (fun x => F.leb x m = true) a.
Proof.
  destruct a as [| c l]; [ congruence | ]. intros _ Hall.
  inversion Hall as [| ? ? Hc Hl]; subst.
  destruct (argmax_from_greatest l 0%nat c 1%nat Hc Hl)
    as (m & Hj & Hcm & Hle).
  exists (argmax_from 0%nat c 1%nat l), m.
  split; [ reflexivity | split ].
  - destruct Hj as [[-> ->] | [Hge Hj]]; [ reflexivity | ].
    replace (argmax_from 0%nat c 1%nat l)
      with (S (argmax_from 0%nat c 1%nat l - 1)) by lia.
    exact Hj.
  - constructor; assumption.
Qed.

(** X12.  On finite data with one time per value, [guestimate_alpha]
    divides the largest value by the time at which it is observed; the
    quotient follows the rules of floating-point division, so that a peak
    at time zero gives an infinity or NaN rather than an error.  On empty
    data it raises ValueError. *)
Theorem guestimate_alpha_reads_the_peak (xs ts : list R) :
  (forall time, guestimate_alpha [] time = Raise ValueError)
  /\ (xs <> [] -> length ts = length xs ->
      exists i m ti,
        nth_error xs i = Some m /\ nth_error ts i = Some ti
        /\ Forall (fun x => x <= m) xs
        /\ guestimate_alpha (map Fin xs) (map Fin ts)
           = Ok (F.div (Fin m) (Fin ti))).
Proof.
  split; [ reflexivity | ]. intros Hx Hlen.
  destruct (argmax_greatest (map Fin xs)) as (i & mf & Hi & Hnth & Hall).
  { destruct xs; [ congruence | discriminate ]. }
  { apply Forall_map, Forall_forall. reflexivity. }
  rewrite nth_error_map in Hnth.
  destruct (nth_error xs i) as [m |] eqn:Hm; [ | discriminate ].
  injection Hnth as <-.
  assert (Hlt : (i < length ts)%nat).
  { rewrite Hlen. apply nth_error_Some. congruence. }
  destruct (nth_error ts i) as [ti |] eqn:Hti;
    [ | apply nth_error_Some in Hlt; congruence ].
  exists i, m, ti.
  split; [ exact Hm | split; [ exact Hti | split ] ].
  - apply Forall_map in Hall.
    eapply Forall_impl; [ | exact Hall ]. intros x Hxm. simpl in Hxm.
    now apply Rleb_true in Hxm.
  - unfold guestimate_alpha. rewrite Hi. cbn [bind]. unfold getitem.
    now rewrite !nth_error_map, Hm, Hti.
Qed.

Lemma guestimate_alpha_reads_the_peak_witness :
  ([1; 6; 4] <> [] /\ length [1; 2; 3] = length [1; 6; 4])
  /\ exists i m ti,
       nth_error [1; 6; 4] i = Some m /\ nth_error [1; 2; 3] i = Some ti
       /\ Forall (fun x => x <= m) [1; 6; 4]
       /\ guestimate_alpha [Fin 1; Fin 6; Fin 4] [Fin 1; Fin 2; Fin 3]
          = Ok (F.div (Fin m) (Fin ti)).
Proof.
  assert (Hx : [1; 6; 4] <> []) by discriminate.
  split; [ auto | ].
  destruct (guestimate_alpha_reads_the_peak [1; 6; 4] [1; 2; 3])
    as [_ Hpeak].
  exact (Hpeak Hx eq_refl).
Defined.

(** ** The residual function: warning and write-through *)

Lemma resolve_method_runs {Sim : Type} `{Simulator Sim}
    method (s : kinetic_estimation Sim) :
  methods (simulator s) <> [] ->
  resolve_method method s
  = Returns (chosen_method (simulator s) method) s
      (method_warnings (simulator s) method).
Proof.
  intro Hm.
  unfold resolve_method, chosen_method, method_warnings, PyM.bind, PyM.get;
    simpl.
  destruct (existsb _ _); simpl; [ reflexivity | ].
  destruct (methods (simulator s)); [ congruence | ]. reflexivity.
Qed.

Lemma resolve_method_undeclared {Sim : Type} `{Simulator Sim}
    method (s : kinetic_estimation Sim) :
  methods (simulator s) = [] ->
  resolve_method method s = Raises IndexError s [].
Proof.
  intro Hm.
  unfold resolve_method, PyM.bind, PyM.get; simpl.
  rewrite Hm. reflexivity.
Qed.

(** X13.  On a simulator that declares its methods, [f_lsq] warns at
    most once, whether it returns or raises afterwards: never when the
    requested method is supported, exactly once when it is not, naming the
    first declared method.  On a simulator that declares no method it
    raises IndexError before anything is set or integrated. *)
Theorem f_lsq_warns_once_about_the_method
    {Sim : Type} `{Simulator Sim}
    (ex : extractor Sim) (s : kinetic_estimation Sim)
    (params t : vec) (x_data : matrix) (method : option string)
    (normalize : bool) :
  (methods (simulator s) <> [] ->
   warnings (f_lsq ex params t x_data method normalize s)
   = method_warnings (simulator s) method)
  /\ (methods (simulator s) = [] ->
      f_lsq ex params t x_data method normalize s = Raises IndexError s []).
Proof.
  split; intro Hm.
  - unfold f_lsq. unfold PyM.bind at 1.
    rewrite (resolve_method_runs method s Hm).
    unfold set_params_m, update_simulator, PyM.bind, PyM.get, PyM.lift,
      PyM.ret.
    destruct (assemble_kin_params s params) as [p | e];
      [ | simpl; now rewrite app_nil_r ].
    cbn [simulator with_simulator].
    change (assemble_x0 (with_simulator (set_params p (simulator s)) s) params)
      with (assemble_x0 s params).
    destruct (assemble_x0 s params) as [x0 | e];
      [ | simpl; now rewrite app_nil_r ].
    cbn [simulator with_simulator].
    destruct normalize;
      match goal with
      | |- context [bcast2 F.sub ?a ?b] => destruct (bcast2 F.sub a b)
      end; simpl; now rewrite app_nil_r.
  - unfold f_lsq. unfold PyM.bind at 1.
    now rewrite (resolve_method_undeclared method s Hm).
Qed.

Lemma f_lsq_warns_once_about_the_method_witness :
  let s := init [(Fin 0, Fin 0); (Fin 0, Fin 1)] [(Fin 0, Fin 10)]
             (constant_model_at []) in
  methods (simulator s) <> []
  /\ warnings (f_lsq extract_data_from_simulator [Fin 0.5; Fin 3]
                 [Fin 0; Fin 1] [[Fin 1; Fin 2]] (Some "euler"%string)
                 true s)
     = [unsupported_method_warning "euler" "matrix"].
Proof.
  intro s.
  assert (Hm : methods (simulator s) <> []) by discriminate.
  split; [ exact Hm | ].
  destruct (f_lsq_warns_once_about_the_method extract_data_from_simulator s
              [Fin 0.5; Fin 3] [Fin 0; Fin 1] [[Fin 1; Fin 2]]
              (Some "euler"%string) true) as [Hw _].
  rewrite (Hw Hm). reflexivity.
Defined.

Lemma f_lsq_runs {Sim : Type} `{Simulator Sim}
    (ex : extractor Sim) (s : kinetic_estimation Sim)
    (params t p x0 : vec) (data : matrix) (method : option string)
    (normalize : bool) :
  methods (simulator s) <> [] ->
  assemble_kin_params s params = Ok p ->
  assemble_x0 s params = Ok x0 ->
  let sim' := integrate t (Some x0)
                (Some (chosen_method (simulator s) method))
                (set_params p (simulator s)) in
  let traj := extract ex sim' in
  let ret := scrub_nan (if normalize then normalize_data traj else traj) in
  let s' := with_simulator
              (if normalize then sim'
               else write_through ex (scrub_nan traj) sim') s in
  f_lsq ex params t data method normalize s
  = match bcast2 F.sub ret data with
    | Ok r => Returns (flatten r) s' (method_warnings (simulator s) method)
    | Raise e => Raises e s' (method_warnings (simulator s) method)
    end.
Proof.
  intros Hm Hp Hx0 sim' traj ret s'.
  unfold f_lsq. unfold PyM.bind at 1.
  rewrite (resolve_method_runs method s Hm).
  unfold set_params_m, update_simulator, PyM.bind, PyM.get, PyM.lift,
    PyM.ret.
  rewrite Hp. cbn [simulator with_simulator].
  change (assemble_x0 (with_simulator (set_params p (simulator s)) s) params)
    with (assemble_x0 s params).
  rewrite Hx0. cbn [simulator with_simulator].
  fold sim'. fold traj. unfold ret, s'.
  destruct normalize;
    match goal with
    | |- context [bcast2 F.sub ?a ?b] => destruct (bcast2 F.sub a b)
    end; simpl; now rewrite app_nil_r.
Qed.

Lemma scrub_transposed k (X : matrix) :
  (0 < k)%nat -> rectangular k X ->
  transpose (scrub_nan (transpose X)) = scrub_nan X.
Proof.
  intros Hk HX. unfold scrub_nan.
  rewrite <- transpose_map.
  apply (transpose_involutive k); [ exact Hk | ].
  unfold rectangular in *. apply Forall_map.
  eapply Forall_impl; [ | exact HX ]. intros row Hrow.
  now rewrite length_map.
Qed.

(** X14.  The base extractor returns a view on the simulator's
    trajectory.  Without normalisation the NaN scrub of [f_lsq] therefore
    writes through: after the call every NaN of the simulator's own
    trajectory has become 0.  With normalisation the scrub works on a new
    array and the trajectory is left as integrated. *)
Theorem f_lsq_scrubs_the_simulator_unless_normalising
    {Sim : Type} `{Simulator Sim} (s : kinetic_estimation Sim)
    (params t p x0 : vec) (x_data : matrix) (method : option string)
    (k : nat) :
  (forall X sm, sim_x (set_x X sm) = X) ->
  methods (simulator s) <> [] ->
  assemble_kin_params s params = Ok p ->
  assemble_x0 s params = Ok x0 ->
  let sim' := integrate t (Some x0)
                (Some (chosen_method (simulator s) method))
                (set_params p (simulator s)) in
  (0 < k)%nat -> rectangular k (sim_x sim') ->
  sim_x (simulator (final (f_lsq extract_data_from_simulator params t x_data
                             method false s)))
  = scrub_nan (sim_x sim')
  /\ sim_x (simulator (final (f_lsq extract_data_from_simulator params t
                                x_data method true s)))
     = sim_x sim'.
Proof.
  intros Hlaw Hm Hp Hx0 sim' Hk Hrect.
  split.
  - rewrite (f_lsq_runs extract_data_from_simulator s params t p x0 x_data
               method false Hm Hp Hx0).
    cbv zeta. fold sim'.
    match goal with
    | |- context [bcast2 F.sub ?a ?b] => destruct (bcast2 F.sub a b)
    end; cbn [final simulator with_simulator write_through extract
                extract_data_from_simulator];
      rewrite Hlaw; now apply (scrub_transposed k).
  - rewrite (f_lsq_runs extract_data_from_simulator s params t p x0 x_data
               method true Hm Hp Hx0).
    cbv zeta. fold sim'.
    match goal with
    | |- context [bcast2 F.sub ?a ?b] => destruct (bcast2 F.sub a b)
    end; reflexivity.
Qed.

Lemma f_lsq_scrubs_the_simulator_unless_normalising_witness :
  let s := init [(Fin 0, Fin 0); (Fin 0, Fin 1)] [(Fin 0, Fin 10)]
             (constant_model_at []) in
  let params := [Fin 0.5; NaN] in
  let t := [Fin 0; Fin 1] in
  ((forall X sm, sim_x (set_x X sm) = X)
   /\ methods (simulator s) <> []
   /\ assemble_kin_params s params = Ok [Fin 0; Fin 0.5]
   /\ assemble_x0 s params = Ok [NaN])
  /\ sim_x (simulator (final (f_lsq extract_data_from_simulator params t
                                [[Fin 1; Fin 2]] None false s)))
     = [[Fin 0]; [Fin 0]].
Proof.
  intros s params t.
  assert (Hlaw : forall (X : matrix) (sm : constant_model),
             sim_x (set_x X sm) = X) by reflexivity.
  assert (Hm : methods (simulator s) <> []) by discriminate.
  assert (Hp : assemble_kin_params s params = Ok [Fin 0; Fin 0.5]).
  { unfold s. rewrite init_assemble_kin.
    unfold free_ranges, fixed_slots, is_fixed; simpl. Rdecide. reflexivity. }
  assert (Hx0 : assemble_x0 s params = Ok [NaN]).
  { unfold assemble_x0, s. rewrite init_x0_slots.
    cbn [n_kin_params init].
    unfold free_ranges, fixed_slots, is_fixed; simpl. Rdecide. reflexivity. }
  split; [ auto | ].
  pose proof (f_lsq_scrubs_the_simulator_unless_normalising s params t
                [Fin 0; Fin 0.5] [NaN] [[Fin 1; Fin 2]] None 1
                Hlaw Hm Hp Hx0) as Hscrub.
  cbv zeta in Hscrub.
  destruct Hscrub as [Hfalse _]; [ lia | repeat constructor | ].
  rewrite Hfalse. reflexivity.
Defined.

(** ** Accessors that index the stored fit *)

Lemma free_ranges_all (rs : list range) :
  Forall (fun r => is_fixed r = false) rs -> free_ranges rs = rs.
Proof.
  unfold free_ranges.
  induction 1 as [| r rs Hr _ IH]; simpl; [ reflexivity | ].
  now rewrite Hr, IH.
Qed.

Lemma fixed_slots_all_free (rs : list range) :
  Forall (fun r => is_fixed r = false) rs ->
  fixed_slots rs = map (fun _ => NaN) rs.
Proof.
  unfold fixed_slots.
  induction 1 as [| r rs Hr _ IH]; simpl; [ reflexivity | ].
  now rewrite Hr, IH.
Qed.

Lemma fill_all_nan {A} (rs : list A) : forall vals,
  length vals = length rs ->
  fill_nan (map (fun _ => NaN) rs) vals = vals.
Proof.
  induction rs as [| r rs IH]; intros [| v vals] Hlen; simpl in *;
    try discriminate; [ reflexivity | ].
  f_equal. apply IH. lia.
Qed.

Lemma assign_all_free (rs : list range) (vals : vec) :
  Forall (fun r => is_fixed r = false) rs ->
  length vals = length rs ->
  assign_where_nan (fixed_slots rs) vals = Ok vals.
Proof.
  intros Hfree Hlen. rewrite (fixed_slots_all_free rs Hfree).
  unfold assign_where_nan.
  assert (Hc : count_nan (map (fun _ : range => NaN) rs) = length rs).
  { unfold count_nan. clear. induction rs; simpl; [ reflexivity | ].
    now rewrite IHrs. }
  destruct vals as [| v [| v' vals]].
  - rewrite Hc, <- Hlen. simpl. now rewrite fill_all_nan.
  - destruct rs as [| r [| r' rs]]; try discriminate. reflexivity.
  - rewrite Hc, <- Hlen, Nat.eqb_refl. now rewrite fill_all_nan.
Qed.

Lemma pinned_fixed (n : nat) :
  Forall (fun r => is_fixed r = true) (pinned n).
Proof.
  unfold pinned. apply Forall_forall. intros r Hr.
  apply repeat_spec in Hr. subst r. apply Reqb_refl.
Qed.

Lemma free_ranges_shorter (rs : list range) :
  Exists (fun r => is_fixed r = true) rs ->
  (length (free_ranges rs) < length rs)%nat.
Proof.
  unfold free_ranges.
  induction 1 as [r rs Hr | r rs _ IH]; simpl.
  - rewrite Hr. simpl.
    pose proof (filter_length_le (fun r => negb (is_fixed r)) rs). lia.
  - destruct (negb (is_fixed r)); simpl; lia.
Qed.

(** X15.  For [Estimation_MomentKin], when none of the six kinetic
    parameters is pinned, a stored fit of [n_params] entries has exactly
    six entries, [export_parameters] returns it unchanged, and the
    accessors read the parameter they are named after: [get_alpha_a],
    [get_alpha_i], [get_beta] and [get_gamma] give entries 2 to 5, and the
    two half-lives are [ln 2] over beta and over gamma. *)
Theorem MomentKin_accessors_right_when_nothing_is_pinned
    {Sim : Type} `{Simulator Sim}
    (a b alpha_a alpha_i beta gamma : bound_arg) (sim : Sim)
    (s : kinetic_estimation Sim) (v : vec) :
  reachable (Estimation_MomentKin_init a b alpha_a alpha_i beta gamma sim) s ->
  Forall (fun x => is_fixed (as_range x) = false)
         [a; b; alpha_a; alpha_i; beta; gamma] ->
  popt s = Some v -> length v = n_params s ->
  exists va vb vaa vai vbe vga,
    v = [va; vb; vaa; vai; vbe; vga]
    /\ get_opt_kin_params s = Ok (Some v)
    /\ get_alpha_a s = Ok vaa /\ get_alpha_i s = Ok vai
    /\ MomentKin_get_beta s = Ok vbe /\ MomentKin_get_gamma s = Ok vga
    /\ MomentKin_calc_spl_half_life s = Ok (half_life vbe)
    /\ MomentKin_calc_deg_half_life s = Ok (half_life vga).
Proof.
  unfold Estimation_MomentKin_init. intros Hreach Hfree Hpopt Hlen.
  set (pr := map as_range [a; b; alpha_a; alpha_i; beta; gamma]) in *.
  assert (Hpr : Forall (fun r => is_fixed r = false) pr).
  { unfold pr. now apply Forall_map. }
  assert (Hn : n_params s = 6%nat).
  { rewrite (reached_n_params _ _ _ _ Hreach),
      (reached_ranges _ _ _ _ Hreach), length_app.
    rewrite (free_ranges_all pr Hpr).
    rewrite (free_ranges_none (pinned 7) (pinned_fixed 7)). reflexivity. }
  rewrite Hn in Hlen.
  destruct v as [| va [| vb [| vaa [| vai [| vbe [| vga [| ? ?]]]]]]];
    try discriminate.
  exists va, vb, vaa, vai, vbe, vga.
  assert (Hkin : assemble_kin_params s [va; vb; vaa; vai; vbe; vga]
                 = Ok [va; vb; vaa; vai; vbe; vga]).
  { rewrite (reached_assemble_kin _ _ _ _ Hreach).
    rewrite (free_ranges_all pr Hpr).
    change (firstn (length pr) [va; vb; vaa; vai; vbe; vga])
      with [va; vb; vaa; vai; vbe; vga].
    now apply assign_all_free. }
  split; [ reflexivity | ].
  split; [ unfold get_opt_kin_params; now rewrite Hpopt, Hkin | ].
  unfold MomentKin_calc_spl_half_life, MomentKin_calc_deg_half_life,
    MomentKin_get_beta, MomentKin_get_gamma, get_alpha_a, get_alpha_i,
    popt_item.
  rewrite Hpopt. repeat split; reflexivity.
Qed.

Lemma MomentKin_accessors_right_when_nothing_is_pinned_witness :
  let free := Bounds (Fin 0) (Fin 1) in
  let s0 := Estimation_MomentKin_init free free free free free free
              (constant_model_at []) in
  let v := [Fin 0.1; Fin 0.2; Fin 0.3; Fin 0.4; Fin 0.5; Fin 0.6] in
  let s := with_fit v (Fin 0) s0 in
  (Forall (fun x => is_fixed (as_range x) = false)
          [free; free; free; free; free; free]
   /\ popt s = Some v /\ length v = n_params s)
  /\ MomentKin_get_gamma s = Ok (Fin 0.6)
  /\ MomentKin_calc_deg_half_life s = Ok (half_life (Fin 0.6)).
Proof.
  intros free s0 v s.
  assert (Hfree : Forall (fun x => is_fixed (as_range x) = false)
                    [free; free; free; free; free; free]).
  { repeat constructor; apply Reqb_false; lra. }
  assert (Hreach : reachable s0 s).
  { apply reach_call with s0; [ apply reach_init | ].
    pose proof (call_fit_lsq s0 extract_data_from_simulator (fun _ _ => [])
                  (fun _ => Fin 0)
                  (fun _ _ _ => PyM.ret (v, Fin 0))
                  [] [] (Some (One v)) 1 (Some ([], [])) "lhs" None true)
      as Hcall.
    apply Hcall. intros I f x0 b _. apply preserves_ret. }
  assert (Hlen : length v = n_params s).
  { cbn [s with_fit n_params s0 Estimation_MomentKin_init init].
    unfold free_ranges, is_fixed, pinned. simpl. Rdecide. reflexivity. }
  split; [ auto | ].
  destruct (MomentKin_accessors_right_when_nothing_is_pinned
              free free free free free free (constant_model_at []) s v
              Hreach Hfree eq_refl Hlen)
    as (va & vb & vaa & vai & vbe & vga & Hv & _ & _ & _ & _ & Hg & _ & Hh).
  injection Hv as <- <- <- <- <- <-. auto.
Defined.

(** X16.  For [Estimation_MomentKin], as soon as one of the six kinetic
    parameters is pinned, a stored fit of [n_params] entries has at most
    five entries: [get_gamma] and [calc_deg_half_life] raise IndexError,
    although [export_parameters] returns all six kinetic parameters. *)
Theorem MomentKin_get_gamma_fails_when_something_is_pinned
    {Sim : Type} `{Simulator Sim}
    (a b alpha_a alpha_i beta gamma : bound_arg) (sim : Sim)
    (s : kinetic_estimation Sim) (v : vec) :
  reachable (Estimation_MomentKin_init a b alpha_a alpha_i beta gamma sim) s ->
  Exists (fun x => is_fixed (as_range x) = true)
         [a; b; alpha_a; alpha_i; beta; gamma] ->
  popt s = Some v -> length v = n_params s ->
  MomentKin_get_gamma s = Raise IndexError
  /\ MomentKin_calc_deg_half_life s = Raise IndexError
  /\ exists kin, get_opt_kin_params s = Ok (Some kin) /\ length kin = 6%nat.
Proof.
  unfold Estimation_MomentKin_init. intros Hreach Hpin Hpopt Hlen.
  set (pr := map as_range [a; b; alpha_a; alpha_i; beta; gamma]) in *.
  assert (Hpr : Exists (fun r => is_fixed r = true) pr).
  { unfold pr. now apply Exists_map. }
  pose proof (free_ranges_shorter pr Hpr) as Hshort.
  change (length pr) with 6%nat in Hshort.
  assert (Hn : n_params s = length (free_ranges pr)).
  { rewrite (reached_n_params _ _ _ _ Hreach),
      (reached_ranges _ _ _ _ Hreach), length_app.
    rewrite (free_ranges_none (pinned 7) (pinned_fixed 7)). simpl. lia. }
  assert (Hg : MomentKin_get_gamma s = Raise IndexError).
  { unfold MomentKin_get_gamma, popt_item, getitem. rewrite Hpopt.
    assert (Hnone : nth_error v 5 = None) by (apply nth_error_None; lia).
    now rewrite Hnone. }
  split; [ exact Hg | split ].
  - unfold MomentKin_calc_deg_half_life. now rewrite Hg.
  - unfold get_opt_kin_params. rewrite Hpopt.
    rewrite (reached_assemble_kin _ _ _ _ Hreach).
    destruct (assign_where_nan_total (fixed_slots pr)
                (firstn (length (free_ranges pr)) v)) as (kin & Hkin & Hl).
    { rewrite count_nan_fixed_slots, length_firstn. lia. }
    exists kin. rewrite Hkin. split; [ reflexivity | ].
    now rewrite Hl, fixed_slots_length.
Qed.

Lemma MomentKin_get_gamma_fails_when_something_is_pinned_witness :
  let free := Bounds (Fin 0) (Fin 1) in
  let s0 := Estimation_MomentKin_init (Scalar (Fin 2)) free free free free
              free (constant_model_at []) in
  let v := [Fin 0.2; Fin 0.3; Fin 0.4; Fin 0.5; Fin 0.6] in
  let s := with_fit v (Fin 0) s0 in
  (Exists (fun x => is_fixed (as_range x) = true)
          [Scalar (Fin 2); free; free; free; free; free]
   /\ popt s = Some v /\ length v = n_params s)
  /\ MomentKin_get_gamma s = Raise IndexError.
Proof.
  intros free s0 v s.
  assert (Hpin : Exists (fun x => is_fixed (as_range x) = true)
                   [Scalar (Fin 2); free; free; free; free; free]).
  { constructor. apply Reqb_refl. }
  assert (Hreach : reachable s0 s).
  { apply reach_call with s0; [ apply reach_init | ].
    pose proof (call_fit_lsq s0 extract_data_from_simulator (fun _ _ => [])
                  (fun _ => Fin 0)
                  (fun _ _ _ => PyM.ret (v, Fin 0))
                  [] [] (Some (One v)) 1 (Some ([], [])) "lhs" None true)
      as Hcall.
    apply Hcall. intros I f x0 b _. apply preserves_ret. }
  assert (Hlen : length v = n_params s).
  { cbn [s with_fit n_params s0 Estimation_MomentKin_init init].
    unfold free_ranges, is_fixed, pinned. simpl. Rdecide. reflexivity. }
  split; [ auto | ].
  destruct (MomentKin_get_gamma_fails_when_something_is_pinned
              (Scalar (Fin 2)) free free free free free
              (constant_model_at []) s v Hreach Hpin eq_refl Hlen)
    as (Hg & _).
  exact Hg.
Defined.

Lemma times_one_fixed (x : float64) :
  F.isnan x = false ->
  F.eqb (F.mul x (Fin 1)) (F.mul x (Fin 1)) = true
  /\ F.eqb (F.mul (Fin 1) x) (F.mul (Fin 1) x) = true
  /\ F.isnan (F.mul x (Fin 1)) = false
  /\ F.isnan (F.mul (Fin 1) x) = false.
Proof.
  destruct x as [| | | r]; try discriminate; intros _; simpl;
    unfold F.scale_inf; Rdecide; simpl; repeat split; auto.
Qed.

Lemma assign_one_free_after_one_pinned (a g x : float64) :
  F.isnan a = false -> F.isnan x = false ->
  assign_where_nan [a; NaN] [g] = Ok [a; g]
  /\ assign_where_nan [x] [] = Ok [x].
Proof.
  destruct a; try discriminate; destruct x; try discriminate;
    intros _ _; split; reflexivity.
Qed.

(** X17.  For [Estimation_DeterministicKinNosp] built with a pinned
    alpha, a free gamma and a scalar initial condition, a stored fit has a
    single entry, the fitted gamma.  [export_parameters] reports the
    pinned alpha and that gamma, but [get_alpha] returns the fitted gamma
    and [get_gamma], like [calc_half_life], raises IndexError: the
    accessors index the free-parameter vector as if nothing were
    pinned. *)
Theorem DeterministicKinNosp_accessors_shift_when_alpha_is_pinned
    {Sim : Type} `{Simulator Sim}
    (alpha low high x0 : float64) (sim : Sim)
    (s : kinetic_estimation Sim) (v : vec) :
  reachable (Estimation_DeterministicKinNosp_init (Scalar alpha)
               (Bounds low high) (X0_scalar x0) sim) s ->
  F.isnan alpha = false -> F.eqb low high = false -> F.isnan x0 = false ->
  popt s = Some v -> length v = n_params s ->
  exists g,
    v = [g]
    /\ get_opt_kin_params s = Ok (Some [F.mul alpha (Fin 1); g])
    /\ get_opt_x0_params s = Ok (Some [F.mul (Fin 1) x0])
    /\ DeterministicKinNosp_get_alpha s = Ok g
    /\ DeterministicKinNosp_get_gamma s = Raise IndexError
    /\ DeterministicKinNosp_calc_half_life s = Raise IndexError.
Proof.
  unfold Estimation_DeterministicKinNosp_init.
  intros Hreach Ha Hg Hx Hpopt Hlen.
  destruct (times_one_fixed alpha Ha) as (Ha1 & _ & Ha2 & _).
  destruct (times_one_fixed x0 Hx) as (_ & Hx1 & _ & Hx2).
  cbn [map as_range] in Hreach.
  set (pr := [(F.mul alpha (Fin 1), F.mul alpha (Fin 1)); (low, high)]) in *.
  set (xr := [(F.mul (Fin 1) x0, F.mul (Fin 1) x0)]) in *.
  assert (Hfree : free_ranges pr = [(low, high)]).
  { unfold free_ranges, pr, is_fixed. cbn [filter fst snd].
    now rewrite Ha1, Hg. }
  assert (Hslots : fixed_slots pr = [F.mul alpha (Fin 1); NaN]).
  { unfold fixed_slots, pr, is_fixed. cbn [map fst snd].
    now rewrite Ha1, Hg. }
  assert (Hxfree : free_ranges xr = []).
  { unfold free_ranges, xr, is_fixed. cbn [filter fst snd]. now rewrite Hx1. }
  assert (Hxslots : fixed_slots xr = [F.mul (Fin 1) x0]).
  { unfold fixed_slots, xr, is_fixed. cbn [map fst snd]. now rewrite Hx1. }
  rewrite (reached_n_params pr xr sim s Hreach),
    (reached_ranges pr xr sim s Hreach), Hfree, Hxfree in Hlen.
  destruct v as [| g [| ? ?]]; try discriminate.
  exists g. split; [ reflexivity | ].
  destruct (assign_one_free_after_one_pinned (F.mul alpha (Fin 1)) g
              (F.mul (Fin 1) x0) Ha2 Hx2) as [Hk Hx0].
  unfold get_opt_kin_params, get_opt_x0_params,
    DeterministicKinNosp_calc_half_life, DeterministicKinNosp_get_alpha,
    DeterministicKinNosp_get_gamma, popt_item.
  rewrite Hpopt, (reached_assemble_kin pr xr sim s Hreach),
    (reached_assemble_x0 pr xr sim s Hreach), Hfree, Hslots, Hxslots.
  cbn [length firstn skipn]. rewrite Hk, Hx0.
  repeat split; reflexivity.
Qed.

Lemma DeterministicKinNosp_accessors_shift_when_alpha_is_pinned_witness :
  let s0 := Estimation_DeterministicKinNosp_init (Scalar (Fin 2))
              (Bounds (Fin 0) (Fin 1)) (X0_scalar (Fin 0))
              (constant_model_at []) in
  let v := [Fin 0.3] in
  let s := with_fit v (Fin 0) s0 in
  (F.isnan (Fin 2) = false /\ F.eqb (Fin 0) (Fin 1) = false
   /\ F.isnan (Fin 0) = false /\ popt s = Some v /\ length v = n_params s)
  /\ DeterministicKinNosp_get_alpha s = Ok (Fin 0.3)
  /\ DeterministicKinNosp_get_gamma s = Raise IndexError.
Proof.
  intros s0 v s.
  assert (Hg : F.eqb (Fin 0) (Fin 1) = false) by (apply Reqb_false; lra).
  assert (Hreach : reachable s0 s).
  { apply reach_call with s0; [ apply reach_init | ].
    pose proof (call_fit_lsq s0 extract_data_from_simulator (fun _ _ => [])
                  (fun _ => Fin 0)
                  (fun _ _ _ => PyM.ret (v, Fin 0))
                  [] [] (Some (One v)) 1 (Some ([], [])) "lhs" None true)
      as Hcall.
    apply Hcall. intros I f x0 b _. apply preserves_ret. }
  assert (Hlen : length v = n_params s).
  { cbn [s with_fit n_params s0 Estimation_DeterministicKinNosp_init init].
    unfold free_ranges, is_fixed. simpl. Rdecide. reflexivity. }
  split; [ auto 6 | ].
  destruct (DeterministicKinNosp_accessors_shift_when_alpha_is_pinned
              (Fin 2) (Fin 0) (Fin 1) (Fin 0) (constant_model_at []) s v
              Hreach eq_refl Hg eq_refl eq_refl Hlen)
    as (g & Hv & _ & _ & Hga & Hgg & _).
  injection Hv as <-. auto.
Defined.

(** ** The automatic fit of [Estimation_MomentDegNosp] *)

Lemma guestimate_gamma_range (x t : vec) (g : float64) :
  guestimate_gamma x t = Ok g ->
  g = NaN \/ exists r, g = Fin r /\ 1e-3 <= r <= 1e3.
Proof.
  unfold guestimate_gamma.
  destruct (getitem x 0); [ | discriminate ].
  destruct (last_item x); [ | discriminate ].
  destruct (last_item t); [ | discriminate ].
  cbn [bind]. intro E. injection E as <-. apply clip_between. lra.
Qed.

Lemma guestimate_init_cond_range (X : matrix) (x0 : vec) :
  guestimate_init_cond X = Ok x0 ->
  Forall (fun x => x = NaN \/ F.leb (Fin 1e-4) x = true) x0.
Proof.
  unfold guestimate_init_cond.
  destruct (max_axis1 X); [ | discriminate ].
  cbn [bind]. intro E. injection E as <-.
  apply Forall_map, Forall_forall. intros x _. apply clip_floor.
Qed.

Lemma hundredfold_free (x : float64) (lo : R) :
  0 < lo -> F.isnan x = false -> F.leb (Fin lo) x = true ->
  is_fixed (hundredfold x) = false /\ within (hundredfold x) x.
Proof.
  intros Hlo Hx Hle. destruct x as [| | | r]; try discriminate.
  - unfold hundredfold, is_fixed, within; simpl.
    unfold F.scale_inf. Rdecide. simpl. auto.
  - simpl in Hle. apply Rleb_true in Hle.
    unfold hundredfold, is_fixed, within; simpl.
    split; [ apply Reqb_false; lra | split; apply Rleb_true; lra ].
Qed.

Lemma auto_fit_guesses_free {Sim : Type} `{Simulator Sim}
    (fresh : Sim) (time : vec) (x_data : matrix)
    (e : Estimation_Degradation Sim) (p0 : vec) :
  MomentDegNosp_auto_fit_setup fresh time x_data = Ok (e, p0) ->
  Forall (fun x => F.isnan x = false) p0 ->
  exists ga0 x0,
    p0 = ga0 :: x0
    /\ e = DeterministicDegNosp_initialize
             (Bounds (Fin 0) (F.mul (Fin 1e2) ga0)) (map hundredfold x0) fresh
    /\ Forall (fun x => is_fixed (hundredfold x) = false
                        /\ within (hundredfold x) x) p0.
Proof.
  unfold MomentDegNosp_auto_fit_setup. intros Hsetup Hnan.
  destruct (getitem x_data 0) as [row0 |]; [ | discriminate ].
  cbn [bind] in Hsetup.
  destruct (guestimate_gamma row0 time) as [ga0 |] eqn:Eg; [ | discriminate ].
  cbn [bind] in Hsetup.
  destruct (guestimate_init_cond x_data) as [x0 |] eqn:Ex; [ | discriminate ].
  cbn [bind] in Hsetup. injection Hsetup as <- <-.
  exists ga0, x0. split; [ reflexivity | split; [ reflexivity | ] ].
  inversion Hnan as [| ? ? Hg Hx0]; subst.
  constructor.
  - destruct (guestimate_gamma_range _ _ _ Eg) as [-> | (r & -> & Hr)];
      [ discriminate | ].
    apply hundredfold_free with 1e-3; [ lra | reflexivity | ].
    apply Rleb_true. lra.
  - pose proof (guestimate_init_cond_range _ _ Ex) as Hfloor.
    clear - Hfloor Hx0.
    induction Hfloor as [| x x0 Hx _ IH]; [ constructor | ].
    inversion Hx0 as [| ? ? Hn Hrest]; subst.
    constructor; [ | now apply IH ].
    destruct Hx as [-> | Hle]; [ discriminate | ].
    apply hundredfold_free with 1e-4; [ lra | exact Hn | exact Hle ].
Qed.

Section Hundredfold.

Context {Sim : Type} `{Simulator Sim}.

Variables (fresh : Sim) (ga0 : float64) (x0 : vec).

Hypothesis guesses_free :
  Forall (fun x => is_fixed (hundredfold x) = false
                   /\ within (hundredfold x) x) (ga0 :: x0).

Let s : kinetic_estimation Sim :=
  estimation (DeterministicDegNosp_initialize
                (Bounds (Fin 0) (F.mul (Fin 1e2) ga0))
                (map hundredfold x0) fresh).

Lemma hundredfold_x0_free :
  Forall (fun r => is_fixed r = false) (map hundredfold x0).
Proof.
  inversion guesses_free as [| ? ? _ Hx0]; subst.
  apply Forall_map. eapply Forall_impl; [ | exact Hx0 ].
  now intros x [Hf _].
Qed.

Lemma hundredfold_kin_free :
  free_ranges [(Fin 0, Fin 0); hundredfold ga0] = [hundredfold ga0].
Proof.
  inversion guesses_free as [| ? ? [Hg _] _]; subst.
  unfold free_ranges. cbn [filter].
  replace (is_fixed (Fin 0, Fin 0)) with true
    by (symmetry; apply Reqb_refl).
  now rewrite Hg.
Qed.

Lemma hundredfold_kin_slots :
  fixed_slots [(Fin 0, Fin 0); hundredfold ga0] = [Fin 0; NaN].
Proof.
  inversion guesses_free as [| ? ? [Hg _] _]; subst.
  unfold fixed_slots. cbn [map].
  replace (is_fixed (Fin 0, Fin 0)) with true
    by (symmetry; apply Reqb_refl).
  now rewrite Hg.
Qed.

Lemma hundredfold_ranges : ranges s = map hundredfold (ga0 :: x0).
Proof.
  unfold s, DeterministicDegNosp_initialize, Estimation_Degradation_init.
  cbn [estimation init ranges as_range].
  change (Fin 0, F.mul (Fin 1e2) ga0) with (hundredfold ga0).
  rewrite hundredfold_kin_free.
  now rewrite (free_ranges_all _ hundredfold_x0_free).
Qed.

Lemma hundredfold_n_params : n_params s = length (ga0 :: x0).
Proof.
  rewrite (reached_n_params _ _ _ s (reach_init _)), hundredfold_ranges.
  apply length_map.
Qed.

Lemma hundredfold_get_bound :
  get_bound s 0 = Ok (map (fun _ => Fin 0) (ga0 :: x0))
  /\ get_bound s 1 = Ok (map (F.mul (Fin 1e2)) (ga0 :: x0)).
Proof.
  rewrite (reached_get_bound_low _ _ _ s (reach_init _)),
    (reached_get_bound_high _ _ _ s (reach_init _)), hundredfold_ranges.
  now rewrite !map_map.
Qed.

Lemma hundredfold_assemble :
  assemble_kin_params s (ga0 :: x0) = Ok [Fin 0; ga0]
  /\ assemble_x0 s (ga0 :: x0) = Ok x0.
Proof.
  unfold s, DeterministicDegNosp_initialize, Estimation_Degradation_init.
  cbn [estimation as_range].
  change (Fin 0, F.mul (Fin 1e2) ga0) with (hundredfold ga0).
  rewrite (reached_assemble_kin _ _ _ _ (reach_init _)),
    (reached_assemble_x0 _ _ _ _ (reach_init _)).
  rewrite hundredfold_kin_free, hundredfold_kin_slots.
  cbn [length firstn skipn].
  split; [ reflexivity | ].
  apply assign_all_free; [ exact hundredfold_x0_free | ].
  now rewrite length_map.
Qed.

End Hundredfold.

(** X18.  The start of [Estimation_MomentDegNosp.auto_fit] fits its own
    bounds.  Whenever the guesses are computed and none is NaN, the
    estimator initialised from them has every guessed parameter free, with
    range [[0, 100 * guess]]; the start [hstack((ga0, x0))] has one entry
    per free parameter and lies within these ranges; assembled, it gives
    the kinetic vector [[0, ga0]], alpha pinned at zero, and the initial
    conditions [x0]. *)
Theorem auto_fit_starts_inside_its_own_bounds
    {Sim : Type} `{Simulator Sim}
    (fresh : Sim) (time : vec) (x_data : matrix)
    (e : Estimation_Degradation Sim) (p0 : vec) :
  MomentDegNosp_auto_fit_setup fresh time x_data = Ok (e, p0) ->
  Forall (fun x => F.isnan x = false) p0 ->
  ranges (estimation e) = map hundredfold p0
  /\ n_params (estimation e) = length p0
  /\ Forall2 within (ranges (estimation e)) p0
  /\ exists ga0 x0,
       p0 = ga0 :: x0
       /\ assemble_kin_params (estimation e) p0 = Ok [Fin 0; ga0]
       /\ assemble_x0 (estimation e) p0 = Ok x0.
Proof.
  intros Hsetup Hnan.
  destruct (auto_fit_guesses_free fresh time x_data e p0 Hsetup Hnan)
    as (ga0 & x0 & -> & -> & Hfree).
  pose proof (hundredfold_ranges fresh ga0 x0 Hfree) as Hr.
  split; [ exact Hr | ].
  split; [ now apply hundredfold_n_params | ].
  split.
  - rewrite Hr. apply Forall2_map_l.
    clear - Hfree. induction Hfree as [| x l [_ Hin] _ IH]; constructor;
      assumption.
  - exists ga0, x0. split; [ reflexivity | ].
    now apply hundredfold_assemble.
Qed.

Lemma decaying_example_guesses :
  exists e p0,
    MomentDegNosp_auto_fit_setup (constant_model_at [])
      [Fin 0; Fin 1; Fin 2] [[Fin 8; Fin 4; Fin 2]] = Ok (e, p0)
    /\ Forall (fun x => F.isnan x = false) p0.
Proof.
  destruct (MomentDegNosp_auto_fit_setup (constant_model_at [])
              [Fin 0; Fin 1; Fin 2] [[Fin 8; Fin 4; Fin 2]])
    as [[e p0] | err] eqn:Hsetup.
  2:{ exfalso. revert Hsetup.
      unfold MomentDegNosp_auto_fit_setup, guestimate_gamma,
        guestimate_init_cond, max_axis1.
      cbn. discriminate. }
  exists e, p0. split; [ reflexivity | ].
  revert Hsetup.
  unfold MomentDegNosp_auto_fit_setup, guestimate_gamma,
    guestimate_init_cond, max_axis1.
  cbn [getitem nth_error bind last_item rev app map sequence row_max
         fold_left].
  intro E. injection E as _ <-.
  constructor.
  - Rdecide.
    rewrite log_fin by (apply Rdiv_lt_0_compat; lra).
    rewrite div_fin by lra. now rewrite clip_fin.
  - constructor; [ | constructor ].
    Rdecide.
    rewrite maximum_fin. unfold F.clip. rewrite maximum_fin. reflexivity.
Qed.

Lemma auto_fit_starts_inside_its_own_bounds_witness :
  let time := [Fin 0; Fin 1; Fin 2] in
  let x_data := [[Fin 8; Fin 4; Fin 2]] in
  let fresh := constant_model_at [] in
  exists e p0,
    (MomentDegNosp_auto_fit_setup fresh time x_data = Ok (e, p0)
     /\ Forall (fun x => F.isnan x = false) p0)
    /\ n_params (estimation e) = length p0
    /\ Forall2 within (ranges (estimation e)) p0.
Proof.
  intros time x_data fresh.
  destruct decaying_example_guesses as (e & p0 & Hsetup & Hnan).
  exists e, p0. split; [ auto | ].
  destruct (auto_fit_starts_inside_its_own_bounds fresh time x_data e p0
              Hsetup Hnan) as (_ & Hn & Hin & _).
  auto.
Defined.

Lemma fit_lsq_one_start {Sim : Type} `{Simulator Sim}
    (ex : extractor Sim) (lhs : nat -> nat -> matrix) (rand : nat -> float64)
    (ls : (vec -> Py (kinetic_estimation Sim) vec) -> vec -> vec * vec ->
          Py (kinetic_estimation Sim) (vec * float64))
    (t : vec) (x_data : matrix) (p : vec) (n_p0 : nat)
    (sample_method : string) (method : option string) (normalize : bool)
    (s : kinetic_estimation Sim) (lo hi : vec) :
  get_bound s 0 = Ok lo -> get_bound s 1 = Ok hi ->
  fit_lsq ex lhs rand ls t x_data (Some (One p)) n_p0 None sample_method
    method normalize s
  = match ls (fit_objective ex t x_data method normalize) p (lo, hi) s with
    | Returns r s' w => Returns r (with_fit (fst r) (snd r) s') w
    | Raises e s' w => Raises e s' w
    end.
Proof.
  intros Hlo Hhi.
  unfold fit_lsq, PyM.bind, PyM.get, PyM.lift, PyM.ret.
  rewrite Hlo, Hhi. cbn [bind fst snd fit_loop].
  unfold PyM.bind, PyM.lift, PyM.ret. cbn [getitem nth_error].
  destruct (ls _ p (lo, hi) s) as [r s' w | e s' w]; simpl;
    now rewrite ?app_nil_r.
Qed.

(** X19.  [Estimation_MomentDegNosp.auto_fit] is one bounded fit from
    the guess.  When the guesses cannot be computed it raises and the
    object is untouched.  Otherwise, no guess being NaN, the object is
    initialised anew and the optimiser runs exactly once, from the guessed
    start, between the bounds zero and a hundred times the start; its
    answer is stored and returned, and if it raises the object stays
    initialised but without a fit. *)
Theorem auto_fit_runs_one_bounded_fit
    {Sim : Type} `{Simulator Sim}
    (fresh : Sim) (lhs : nat -> nat -> matrix) (rand : nat -> float64)
    (ls : (vec -> Py (kinetic_estimation Sim) vec) -> vec -> vec * vec ->
          Py (kinetic_estimation Sim) (vec * float64))
    (time : vec) (x_data : matrix) (sample_method : string)
    (method : option string) (normalize : bool)
    (self : Estimation_Degradation Sim) :
  (forall err,
      MomentDegNosp_auto_fit_setup fresh time x_data = Raise err ->
      MomentDegNosp_auto_fit fresh lhs rand ls time x_data sample_method
        method normalize self
      = Raises err self [])
  /\ (forall e p0,
        MomentDegNosp_auto_fit_setup fresh time x_data = Ok (e, p0) ->
        Forall (fun x => F.isnan x = false) p0 ->
        MomentDegNosp_auto_fit fresh lhs rand ls time x_data sample_method
          method normalize self
        = match ls (fit_objective extract_data_from_simulator time x_data
                      method normalize)
                  p0 (map (fun _ => Fin 0) p0, map (F.mul (Fin 1e2)) p0)
                  (estimation e) with
          | Returns r s' w =>
              Returns r {| kin_param_keys := ["alpha"; "gamma"]%string;
                           estimation := with_fit (fst r) (snd r) s' |} w
          | Raises err s' w =>
              Raises err {| kin_param_keys := ["alpha"; "gamma"]%string;
                            estimation := s' |} w
          end).
Proof.
  split.
  - intros err Hsetup. unfold MomentDegNosp_auto_fit. now rewrite Hsetup.
  - intros e p0 Hsetup Hnan.
    unfold MomentDegNosp_auto_fit. rewrite Hsetup.
    destruct (auto_fit_guesses_free fresh time x_data e p0 Hsetup Hnan)
      as (ga0 & x0 & -> & -> & Hfree).
    destruct (hundredfold_get_bound fresh ga0 x0 Hfree) as [Hlo Hhi].
    rewrite (fit_lsq_one_start _ _ _ _ _ _ _ _ _ _ _ _ _ _ Hlo Hhi).
    destruct (ls _ _ _ _) as [r s' w | err s' w]; reflexivity.
Qed.

Lemma auto_fit_runs_one_bounded_fit_witness :
  let time := [Fin 0; Fin 1; Fin 2] in
  let x_data := [[Fin 8; Fin 4; Fin 2]] in
  let fresh := constant_model_at [] in
  let self := DeterministicDegNosp_initialize (Scalar (Fin 1)) [] fresh in
  exists e p0,
    (MomentDegNosp_auto_fit_setup fresh time x_data = Ok (e, p0)
     /\ Forall (fun x => F.isnan x = false) p0)
    /\ MomentDegNosp_auto_fit fresh (fun _ _ => []) (fun _ => Fin 0) stay_put
         time x_data "lhs" None false self
       = match stay_put (fit_objective extract_data_from_simulator time
                           x_data None false)
                 p0 (map (fun _ => Fin 0) p0, map (F.mul (Fin 1e2)) p0)
                 (estimation e) with
         | Returns r s' w =>
             Returns r {| kin_param_keys := ["alpha"; "gamma"]%string;
                          estimation := with_fit (fst r) (snd r) s' |} w
         | Raises err s' w =>
             Raises err {| kin_param_keys := ["alpha"; "gamma"]%string;
                           estimation := s' |} w
         end.
Proof.
  intros time x_data fresh self.
  destruct decaying_example_guesses as (e & p0 & Hsetup & Hnan).
  exists e, p0. split; [ auto | ].
  destruct (auto_fit_runs_one_bounded_fit fresh (fun _ _ => [])
              (fun _ => Fin 0) stay_put time x_data "lhs" None false self)
    as [_ Hrun].
  exact (Hrun e p0 Hsetup Hnan).
Defined.

(** ** Rescaling by the row maxima *)

Lemma Rmax_scale (a b m : R) :
  0 < m -> Rmax (a / m) (b / m) = Rmax a b / m.
Proof.
  intro Hm. assert (Hinv : 0 < / m) by now apply Rinv_0_lt_compat.
  unfold Rmax, Rdiv.
  destruct (Rle_dec (a * / m) (b * / m)), (Rle_dec a b);
    try reflexivity; exfalso; nra.
Qed.

Lemma fold_max_scale (m : R) (l : list R) : forall a,
  0 < m ->
  fold_left Rmax (map (fun x => x / m) l) (a / m) = fold_left Rmax l a / m.
Proof.
  induction l as [| x l IH]; intros a Hm; simpl; [ reflexivity | ].
  now rewrite Rmax_scale, IH.
Qed.

Lemma row_maximum_scale (m : R) (row : list R) :
  0 < m -> row <> [] ->
  row_maximum (map (fun x => x / m) row) = row_maximum row / m.
Proof.
  intros Hm Hne. destruct row as [| x row]; [ congruence | ].
  unfold row_maximum. cbn [map hd tl]. now apply fold_max_scale.
Qed.

Lemma fold_max_ge (l : list R) : forall a,
  a <= fold_left Rmax l a
  /\ Forall (fun x => x <= fold_left Rmax l a) l.
Proof.
  induction l as [| x l IH]; intro a; simpl.
  - split; [ lra | constructor ].
  - destruct (IH (Rmax a x)) as [Hinit Hall].
    pose proof (Rmax_l a x). pose proof (Rmax_r a x).
    split; [ lra | constructor; [ lra | exact Hall ] ].
Qed.

Lemma row_maximum_ge (row : list R) :
  Forall (fun x => x <= row_maximum row) row.
Proof.
  destruct row as [| x row]; [ constructor | ].
  unfold row_maximum. cbn [hd tl].
  destruct (fold_max_ge row x) as [Hinit Hall].
  now constructor.
Qed.

Lemma rescaled_by_own_maxima (X : list (list R)) :
  rescaled X (map row_maximum X)
  = map (fun row => map (fun x => x / row_maximum row) row) X.
Proof.
  unfold rescaled. induction X as [| row X IH]; simpl; [ reflexivity | ].
  now rewrite IH.
Qed.

(** X20.  [GoodnessOfFit.normalize] without a given scale divides every
    row of the data and the matching row of the model by the largest
    datum of the row.  On finite arrays of one rectangular shape whose
    row maxima are positive, every row of the normalised data has maximum
    exactly 1 and no entry above 1. *)
Theorem normalize_puts_row_maxima_at_one
    (k : nat) (X Mo : list (list R)) :
  (0 < k)%nat -> rectangular k X -> rectangular k Mo ->
  length Mo = length X ->
  Forall (fun row => 0 < row_maximum row) X ->
  let scale := map row_maximum X in
  normalize (map (map Fin) X) (map (map Fin) Mo) None
  = Ok (map (map Fin) (rescaled X scale), map (map Fin) (rescaled Mo scale))
  /\ Forall (fun row => row_maximum row = 1
                        /\ Forall (fun x => x <= 1) row)
            (rescaled X scale).
Proof.
  intros Hk HX HMo Hlen Hpos scale.
  assert (Hscale : Forall (fun s => s <> 0) scale).
  { unfold scale. apply Forall_map.
    eapply Forall_impl; [ | exact Hpos ]. intros row Hrow. cbv beta. lra. }
  split.
  - unfold normalize. rewrite (max_axis1_fin k) by assumption.
    cbn [bind]. fold scale.
    pose proof (scale_rows_fin k X scale Hk HX) as HsX.
    pose proof (scale_rows_fin k Mo scale Hk HMo) as HsM.
    unfold scale_rows in HsX, HsM.
    rewrite HsX, HsM; try assumption; try reflexivity;
      unfold scale; rewrite length_map; congruence.
  - unfold scale. rewrite rescaled_by_own_maxima.
    apply Forall_map. apply Forall_forall. intros row Hin.
    assert (Hm : 0 < row_maximum row).
    { rewrite Forall_forall in Hpos. now apply Hpos. }
    assert (Hne : row <> []).
    { unfold rectangular in HX. rewrite Forall_forall in HX.
      specialize (HX row Hin). destruct row; [ simpl in HX; lia | discriminate ]. }
    split.
    + rewrite row_maximum_scale by assumption. now field_simplify; try lra.
    + apply Forall_map.
      eapply Forall_impl; [ | apply row_maximum_ge ]. intros x Hx. cbv beta in *.
      apply Rmult_le_reg_r with (row_maximum row); [ exact Hm | ].
      unfold Rdiv. rewrite Rmult_assoc, Rinv_l by lra. lra.
Qed.

Lemma normalize_puts_row_maxima_at_one_witness :
  let X := [[2; 4]; [1; 5]] in
  let Mo := [[3; 3]; [4; 4]] in
  ((0 < 2)%nat /\ rectangular 2 X /\ rectangular 2 Mo
   /\ length Mo = length X
   /\ Forall (fun row => 0 < row_maximum row) X)
  /\ Forall (fun row => row_maximum row = 1)
            (rescaled X (map row_maximum X)).
Proof.
  intros X Mo.
  assert (Hk : (0 < 2)%nat) by lia.
  assert (HX : rectangular 2 X) by repeat constructor.
  assert (HMo : rectangular 2 Mo) by repeat constructor.
  assert (Hpos : Forall (fun row => 0 < row_maximum row) X).
  { repeat constructor; unfold row_maximum; simpl; unfold Rmax;
      destruct (Rle_dec _ _); lra. }
  split; [ auto 6 | ].
  destruct (normalize_puts_row_maxima_at_one 2 X Mo Hk HX HMo eq_refl Hpos)
    as [_ Hrows].
  eapply Forall_impl; [ | exact Hrows ]. now intros row [Hrow _].
Defined.

(** ** The likelihood at a perfect prediction *)








(** ** The warning about zero deviations *)

(** The warnings of the likelihood are those of [sig] and [err], whether
    the power overflows or not. *)
Lemma likelihood_warnings {Sim : Type} (g : GoodnessOfFit Sim)
    (se : matrix * vec) (w : list string) :
  sig_and_err g = Returns se g w ->
  warnings (calc_gaussian_likelihood g) = w.
Proof.
  intro Hse. unfold calc_gaussian_likelihood, PyM.bind, PyM.lift.
  rewrite Hse.
  destruct (gaussian_likelihood (fst se) (snd se)); cbn [warnings];
    apply app_nil_r.
Qed.

(** X22.  On prepared arrays of one shape, each likelihood method warns
    exactly when some stored standard deviation equals zero.  When none
    does, the methods compute with the stored deviations as they are and
    without a warning: [calc_gaussian_loglikelihood] returns, and so does
    [calc_gaussian_likelihood] on at most 386 entries. *)
Theorem likelihood_warns_exactly_on_a_zero_sigma
    {Sim : Type} (g : GoodnessOfFit Sim) (M S P : matrix) :
  mean g = Some M -> sigm g = Some S -> pred g = Some P ->
  same_shape P M -> same_shape P S ->
  let zero := Exists (Exists (fun s => s = Fin 0)) S in
  let err := entrywise F.div (pairwise F.sub P M) S in
  (warnings (calc_gaussian_likelihood g) = [zero_sigma_warning] <-> zero)
  /\ (warnings (calc_gaussian_loglikelihood g) = [zero_sigma_warning]
      <-> zero)
  /\ (~ zero ->
      calc_gaussian_loglikelihood g
      = Returns (gaussian_loglikelihood S err) g []
      /\ ((length (flatten S) <= 386)%nat ->
          calc_gaussian_likelihood g
          = Returns (likelihood_from (Fin ((2 * PI) ^ length err)) S err)
              g [])).
Proof.
  intros Hmean Hsigm Hpred HM HS zero err.
  pose proof (sig_and_err_prepared g M S P Hmean Hsigm Hpred HM HS) as Hse.
  cbv zeta in Hse.
  pose proof (existsb_is_zero S) as Hiff. fold zero in Hiff.
  rewrite (likelihood_warnings g _ _ Hse).
  unfold calc_gaussian_loglikelihood, PyM.bind, PyM.ret.
  rewrite Hse. cbn [fst snd warnings].
  destruct (existsb is_zero (flatten S)) eqn:E; cbn [app].
  - assert (Hz : zero) by now apply Hiff.
    split; [ tauto | split; [ tauto | ] ]. intro Hn. now elim Hn.
  - assert (Hz : ~ zero).
    { intro Hz. apply Hiff in Hz. discriminate. }
    split; [ | split ].
    + split; [ discriminate | tauto ].
    + split; [ discriminate | tauto ].
    + intros _. split; [ reflexivity | ]. intro Hn.
      assert (Hlen : (length err <= 386)%nat).
      { unfold err. now rewrite (err_entries M S P HM HS S HS). }
      unfold calc_gaussian_likelihood, PyM.bind, PyM.lift.
      rewrite Hse. cbn [fst snd]. fold err.
      now rewrite (gaussian_likelihood_fits S err Hlen).
Qed.

Lemma likelihood_warns_exactly_on_a_zero_sigma_witness :
  let M := [[Fin 1; Fin 2]] in
  let S := [[Fin 0.25; Fin 0.5]] in
  let P := [[Fin 1.5; Fin 2]] in
  let g := {| gof_simulator := constant_model_at [];
              mean := Some M; sigm := Some S; pred := Some P |} in
  (same_shape P M /\ same_shape P S
   /\ ~ Exists (Exists (fun s => s = Fin 0)) S
   /\ (length (flatten S) <= 386)%nat)
  /\ warnings (calc_gaussian_likelihood g) = []
  /\ warnings (calc_gaussian_loglikelihood g) = [].
Proof.
  intros M S P g.
  assert (H1 : same_shape P M) by repeat constructor.
  assert (H2 : same_shape P S) by repeat constructor.
  assert (H3 : ~ Exists (Exists (fun s => s = Fin 0)) S).
  { intro Hex. inversion Hex as [? ? Hrow | ? ? Hrest]; subst.
    - inversion Hrow as [? ? Hs | ? ? Hrow']; subst.
      + injection Hs as Hs. lra.
      + inversion Hrow' as [? ? Hs | ? ? Hnil]; subst.
        * injection Hs as Hs. lra.
        * inversion Hnil.
    - inversion Hrest. }
  assert (H4 : (length (flatten S) <= 386)%nat) by (simpl; lia).
  split; [ auto | ].
  destruct (likelihood_warns_exactly_on_a_zero_sigma g M S P
              eq_refl eq_refl eq_refl H1 H2) as (_ & _ & Hquiet).
  destruct (Hquiet H3) as [Hll Hl]. rewrite (Hl H4), Hll.
  split; reflexivity.
Defined.

(** ** The size at which the likelihood overflows *)

(** X26.  On prepared arrays of one shape, whatever their values,
    [calc_gaussian_likelihood] returns when there are at most 386 entries
    and raises OverflowError when there are more: its power
    [(2 pi)^n] is one of Python floats, and from [n = 387] on it is
    larger than the largest double.  [calc_gaussian_loglikelihood]
    returns for every size.  Neither changes the object. *)
Theorem likelihood_overflows_beyond_386_entries
    {Sim : Type} (g : GoodnessOfFit Sim) (M S P : matrix) :
  mean g = Some M -> sigm g = Some S -> pred g = Some P ->
  same_shape P M -> same_shape P S ->
  ((length (flatten S) <= 386)%nat ->
   exists v w, calc_gaussian_likelihood g = Returns v g w)
  /\ ((386 < length (flatten S))%nat ->
      exists w, calc_gaussian_likelihood g = Raises OverflowError g w)
  /\ exists v w, calc_gaussian_loglikelihood g = Returns v g w.
Proof.
  intros Hmean Hsigm Hpred HM HS.
  pose proof (sig_and_err_prepared g M S P Hmean Hsigm Hpred HM HS) as Hse.
  cbv zeta in Hse.
  set (sig := if existsb is_zero (flatten S)
              then map (map one_for_zero) S else S) in *.
  assert (Hsig : same_shape P sig).
  { unfold sig. destruct (existsb is_zero (flatten S)); [ | exact HS ].
    now apply same_shape_map_r. }
  pose proof (err_entries M S P HM HS sig Hsig) as Hlen.
  unfold calc_gaussian_likelihood, calc_gaussian_loglikelihood, PyM.bind,
    PyM.lift, PyM.ret.
  rewrite Hse. cbn [fst snd].
  split; [ | split ].
  - intro Hn. rewrite gaussian_likelihood_fits by now rewrite Hlen.
    eexists. eexists. reflexivity.
  - intro Hn. rewrite gaussian_likelihood_overflows by now rewrite Hlen.
    eexists. reflexivity.
  - eexists. eexists. reflexivity.
Qed.

Lemma likelihood_overflows_beyond_386_entries_witness :
  let M := [repeat (Fin 1) 387] in
  let S := [repeat (Fin 0.5) 387] in
  let P := [repeat (Fin 1) 387] in
  let g := {| gof_simulator := constant_model_at [];
              mean := Some M; sigm := Some S; pred := Some P |} in
  (same_shape P M /\ same_shape P S /\ (386 < length (flatten S))%nat)
  /\ (exists w, calc_gaussian_likelihood g = Raises OverflowError g w)
  /\ exists v w, calc_gaussian_loglikelihood g = Returns v g w.
Proof.
  intros M S P g.
  assert (H1 : same_shape P M).
  { constructor; [ now rewrite !repeat_length | constructor ]. }
  assert (H2 : same_shape P S).
  { constructor; [ now rewrite !repeat_length | constructor ]. }
  assert (H3 : (386 < length (flatten S))%nat).
  { unfold S, flatten. cbn [concat]. rewrite app_nil_r, repeat_length. lia. }
  split; [ auto | ].
  destruct (likelihood_overflows_beyond_386_entries g M S P
              eq_refl eq_refl eq_refl H1 H2) as (_ & Hover & Hlog).
  split; [ exact (Hover H3) | exact Hlog ].
Defined.

(** ** The chi-square statistic of a perfect fit *)

Lemma Rsum_app (a b : list R) : Rsum (a ++ b) = Rsum a + Rsum b.
Proof.
  unfold Rsum. induction a as [| x a IH]; simpl; [ lra | ].
  rewrite IH. lra.
Qed.

Lemma chi_square_self (X : list (list R)) : chi_square X X = 0.
Proof.
  unfold chi_square, entrywise.
  induction X as [| row X IH]; cbn [combine map concat fst snd];
    [ reflexivity | ].
  rewrite Rsum_app, IH.
  assert (Hrow : Rsum (map (fun xy : R * R => (fst xy - snd xy) ^ 2 / snd xy)
                         (combine row row)) = 0).
  { clear. unfold Rsum.
    induction row as [| x row IHr]; cbn [combine map fold_right fst snd];
      [ reflexivity | ].
    rewrite IHr. unfold Rdiv. ring. }
  rewrite Hrow. lra.
Qed.

(** X23.  When the data equal the model prediction, entry for entry,
    [test_chi2] returns the statistic 0, with or without rescaling, and
    the p-value is one minus the chi-square CDF at 0; the degrees of
    freedom are the number of distinct time points minus the number of
    free parameters minus one. *)
Theorem test_chi2_is_zero_on_a_perfect_fit
    {Sim : Type} `{Simulator Sim} (cdf : float64 -> Z -> float64)
    (s : kinetic_estimation Sim) (t : vec) (x_data : ndarray)
    (species : option (list nat)) (method : string) (normalize : bool)
    (E : list (list R)) (k : nat) :
  let sim' := integrate t None (Some method) (simulator s) in
  atleast_2d x_data = map (map Fin) E ->
  select_species (transpose (sim_x sim')) species = Ok (map (map Fin) E) ->
  Forall (fun x => F.isnan x = false) t ->
  (0 < k)%nat -> rectangular k E ->
  (normalize = true -> Forall (fun m => m <> 0) (map row_maximum E)) ->
  Forall (Forall (fun e => e <> 0)) E ->
  let df := (Z.of_nat (distinct_count t) - Z.of_nat (n_params s) - 1)%Z in
  test_chi2 cdf t x_data species method normalize s
  = Returns (F.sub (Fin 1) (cdf (Fin 0) df), Fin 0, df)
      (with_simulator sim' s) [].
Proof.
  intros sim' Hdata Hmodel Ht Hk HE Hmax Hexp df.
  set (scale := map row_maximum E).
  set (E' := if normalize then rescaled E scale else E).
  assert (Hstat : pearson_statistic (map (map Fin) E') (map (map Fin) E')
                  = Ok (Fin 0)).
  { rewrite pearson_statistic_fin.
    - now rewrite chi_square_self.
    - apply (rectangular_same_shape k); try reflexivity;
        unfold E'; destruct normalize; try assumption;
        now apply rescaled_rectangular.
    - unfold E'. destruct normalize; [ | exact Hexp ].
      apply rescaled_nonzero; [ exact Hexp | now apply Hmax ]. }
  unfold test_chi2, PyM.bind, PyM.get, PyM.lift, PyM.ret, update_simulator.
  cbn [simulator with_simulator extract extract_data_from_simulator
         n_params].
  fold sim'. rewrite Hmodel, Hdata.
  assert (Hnorm : chi2_arrays (map (map Fin) E) (map (map Fin) E) normalize
                  = Ok (map (map Fin) E', map (map Fin) E')).
  { unfold chi2_arrays, E'. destruct normalize; [ | reflexivity ].
    specialize (Hmax eq_refl).
    rewrite (max_axis1_fin k) by assumption. cbn [bind].
    fold scale.
    rewrite (scale_rows_fin k);
      try assumption; try reflexivity;
      unfold scale; now rewrite length_map. }
  rewrite Hnorm. cbn [fst snd]. rewrite Hstat.
  rewrite (unique_counts_distinct t Ht). reflexivity.
Qed.

Lemma test_chi2_is_zero_on_a_perfect_fit_witness :
  let s := init [(Fin 0, Fin 0); (Fin 0, Fin 1)] [(Fin 2, Fin 2)]
             (constant_model_at [Fin 2]) in
  let t := [Fin 0; Fin 1; Fin 1] in
  let E := [[2; 2; 2]] in
  let cdf := fun (_ : float64) (_ : Z) => Fin 0.5 in
  (Forall (fun x => F.isnan x = false) t
   /\ rectangular 3 E
   /\ Forall (fun m => m <> 0) (map row_maximum E)
   /\ Forall (Forall (fun e => e <> 0)) E)
  /\ exists p df s',
       test_chi2 cdf t (Arr1 [Fin 2; Fin 2; Fin 2]) None "matrix" true s
       = Returns (p, Fin 0, df) s' [].
Proof.
  intros s t E cdf.
  assert (Ht : Forall (fun x => F.isnan x = false) t) by repeat constructor.
  assert (HE : rectangular 3 E) by repeat constructor.
  assert (Hmax : Forall (fun m => m <> 0) (map row_maximum E)).
  { repeat constructor. unfold row_maximum; simpl.
    unfold Rmax. repeat destruct (Rle_dec _ _); lra. }
  assert (Hexp : Forall (Forall (fun e => e <> 0)) E).
  { repeat constructor; lra. }
  split; [ auto 6 | ].
  do 3 eexists.
  apply (test_chi2_is_zero_on_a_perfect_fit cdf s t
           (Arr1 [Fin 2; Fin 2; Fin 2]) None "matrix" true E 3);
    try assumption; try reflexivity; try lia.
  intros _. exact Hmax.
Defined.

(** ** The parameters of the mixture estimator *)

Lemma fixed_slots_pinned (n : nat) :
  fixed_slots (pinned n) = repeat (Fin 0) n.
Proof.
  unfold fixed_slots, pinned.
  induction n as [| n IH]; cbn [repeat map]; [ reflexivity | ].
  rewrite IH. unfold is_fixed. cbn [fst snd F.eqb].
  now rewrite Reqb_refl.
Qed.

Lemma fill_after_zeros (n : nat) (p : vec) : forall vals,
  fill_nan (repeat (Fin 0) n ++ p) vals = repeat (Fin 0) n ++ fill_nan p vals.
Proof.
  induction n as [| n IH]; intro vals; simpl; [ reflexivity | ].
  now rewrite IH.
Qed.

Lemma assign_after_zeros (n : nat) (p vals q : vec) :
  assign_where_nan p vals = Ok q ->
  assign_where_nan (repeat (Fin 0) n ++ p) vals
  = Ok (repeat (Fin 0) n ++ q).
Proof.
  unfold assign_where_nan.
  assert (Hc : count_nan (repeat (Fin 0) n ++ p) = count_nan p).
  { rewrite count_nan_app. unfold count_nan.
    replace (filter F.isnan (repeat (Fin 0) n)) with (@nil float64);
      [ reflexivity | ].
    induction n as [| n IH]; simpl; [ reflexivity | exact IH ]. }
  assert (Hm : forall v,
             map (fun x => if F.isnan x then v else x) (repeat (Fin 0) n ++ p)
             = repeat (Fin 0) n
                 ++ map (fun x => if F.isnan x then v else x) p).
  { intro v. rewrite map_app. f_equal.
    induction n as [| n IH]; simpl; [ reflexivity | now rewrite IH ]. }
  rewrite Hc.
  destruct vals as [| v [| v' vals]].
  - destruct (Nat.eqb _ _); [ | discriminate ]. intro E. injection E as <-.
    now rewrite fill_after_zeros.
  - intro E. injection E as <-. now rewrite Hm.
  - destruct (Nat.eqb _ _); [ | discriminate ]. intro E. injection E as <-.
    now rewrite fill_after_zeros.
Qed.

Lemma free_ranges_app (a b : list range) :
  free_ranges (a ++ b) = free_ranges a ++ free_ranges b.
Proof. apply filter_app. Qed.

Lemma fixed_slots_app (a b : list range) :
  fixed_slots (a ++ b) = fixed_slots a ++ fixed_slots b.
Proof. apply map_app. Qed.

(** X24.  The mixture estimator always pins its second kinetic
    parameter, the synthesis rate handed to the second model, and the
    initial conditions of the first model, at zero.  With the declared
    ranges free, a free-parameter vector [(alpha, gamma, x0...)], or
    [(alpha, beta, gamma, x0...)] when beta is given, is assembled into
    the kinetic vector [(alpha, 0, gamma)], or [(alpha, 0, beta, gamma)],
    and into initial conditions that start with [n_species] zeros. *)
Theorem Mixture_pins_what_it_does_not_fit
    {Sim : Type} `{Simulator Sim}
    (n_species : nat) (alpha gamma : bound_arg) (x0 : list range)
    (beta : option bound_arg) (model : Sim)
    (s : kinetic_estimation Sim) (v : vec) :
  reachable (Mixture_KinDeg_NoSwitching_initialize n_species alpha gamma x0
               beta model) s ->
  is_fixed (as_row alpha) = false -> is_fixed (as_row gamma) = false ->
  (forall b, beta = Some b -> is_fixed (as_row b) = false) ->
  Forall (fun r => is_fixed r = false) x0 ->
  length v = n_params s ->
  match beta with
  | None =>
      exists al ga xs,
        v = al :: ga :: xs
        /\ assemble_kin_params s v = Ok [al; Fin 0; ga]
        /\ assemble_x0 s v = Ok (repeat (Fin 0) n_species ++ xs)
  | Some _ =>
      exists al be ga xs,
        v = al :: be :: ga :: xs
        /\ assemble_kin_params s v = Ok [al; Fin 0; be; ga]
        /\ assemble_x0 s v = Ok (repeat (Fin 0) n_species ++ xs)
  end.
Proof.
  unfold Mixture_KinDeg_NoSwitching_initialize.
  intros Hreach Ha Hg Hb Hx0 Hlen.
  assert (Hzero : is_fixed (Fin 0, Fin 0) = true) by apply Reqb_refl.
  assert (Hxfree : free_ranges (pinned n_species ++ x0) = x0).
  { rewrite free_ranges_app,
      (free_ranges_none _ (pinned_fixed n_species)).
    now apply free_ranges_all. }
  assert (Hxslots : fixed_slots (pinned n_species ++ x0)
                    = repeat (Fin 0) n_species ++ fixed_slots x0).
  { now rewrite fixed_slots_app, fixed_slots_pinned. }
  assert (Hx : forall xs, length xs = length x0 ->
             assign_where_nan (fixed_slots (pinned n_species ++ x0)) xs
             = Ok (repeat (Fin 0) n_species ++ xs)).
  { intros xs Hxs. rewrite Hxslots. apply assign_after_zeros.
    now apply assign_all_free. }
  destruct beta as [b |].
  - specialize (Hb b eq_refl).
    set (pr := [as_row alpha; (Fin 0, Fin 0); as_row b; as_row gamma]) in *.
    assert (Hfree : free_ranges pr = [as_row alpha; as_row b; as_row gamma]).
    { unfold free_ranges, pr. cbn [filter]. now rewrite Ha, Hzero, Hb, Hg. }
    assert (Hslots : fixed_slots pr = [NaN; Fin 0; NaN; NaN]).
    { unfold fixed_slots, pr. cbn [map]. now rewrite Ha, Hzero, Hb, Hg. }
    rewrite (reached_n_params _ _ _ _ Hreach),
      (reached_ranges _ _ _ _ Hreach), Hfree, Hxfree in Hlen.
    destruct v as [| al [| be [| ga xs]]]; try discriminate.
    exists al, be, ga, xs. split; [ reflexivity | ].
    rewrite (reached_assemble_kin _ _ _ _ Hreach),
      (reached_assemble_x0 _ _ _ _ Hreach), Hfree, Hslots.
    cbn [length firstn skipn].
    split; [ reflexivity | ].
    apply Hx. simpl in Hlen. lia.
  - set (pr := [as_row alpha; (Fin 0, Fin 0); as_row gamma]) in *.
    assert (Hfree : free_ranges pr = [as_row alpha; as_row gamma]).
    { unfold free_ranges, pr. cbn [filter]. now rewrite Ha, Hzero, Hg. }
    assert (Hslots : fixed_slots pr = [NaN; Fin 0; NaN]).
    { unfold fixed_slots, pr. cbn [map]. now rewrite Ha, Hzero, Hg. }
    rewrite (reached_n_params _ _ _ _ Hreach),
      (reached_ranges _ _ _ _ Hreach), Hfree, Hxfree in Hlen.
    destruct v as [| al [| ga xs]]; try discriminate.
    exists al, ga, xs. split; [ reflexivity | ].
    rewrite (reached_assemble_kin _ _ _ _ Hreach),
      (reached_assemble_x0 _ _ _ _ Hreach), Hfree, Hslots.
    cbn [length firstn skipn].
    split; [ reflexivity | ].
    apply Hx. simpl in Hlen. lia.
Qed.

Lemma Mixture_pins_what_it_does_not_fit_witness :
  let alpha := Bounds (Fin 0) (Fin 5) in
  let gamma := Bounds (Fin 0) (Fin 1) in
  let x0 := [(Fin 0, Fin 100)] in
  let s := Mixture_KinDeg_NoSwitching_initialize 1 alpha gamma x0 None
             (constant_model_at []) in
  let v := [Fin 2; Fin 0.5; Fin 30] in
  (reachable s s
   /\ is_fixed (as_row alpha) = false /\ is_fixed (as_row gamma) = false
   /\ Forall (fun r => is_fixed r = false) x0
   /\ length v = n_params s)
  /\ assemble_kin_params s v = Ok [Fin 2; Fin 0; Fin 0.5]
  /\ assemble_x0 s v = Ok [Fin 0; Fin 30].
Proof.
  intros alpha gamma x0 s v.
  assert (Ha : is_fixed (as_row alpha) = false) by (apply Reqb_false; lra).
  assert (Hg : is_fixed (as_row gamma) = false) by (apply Reqb_false; lra).
  assert (Hx0 : Forall (fun r => is_fixed r = false) x0).
  { repeat constructor. apply Reqb_false. lra. }
  assert (Hlen : length v = n_params s).
  { unfold s, Mixture_KinDeg_NoSwitching_initialize. cbn [init n_params].
    unfold free_ranges, is_fixed, pinned. simpl. Rdecide. reflexivity. }
  split; [ auto 6 using reach_init | ].
  pose proof (Mixture_pins_what_it_does_not_fit 1 alpha gamma x0 None
                (constant_model_at []) s v (reach_init _) Ha Hg) as Hmix.
  destruct Hmix as (al & ga & xs & Hv & Hkin & Hini);
    [ discriminate | exact Hx0 | exact Hlen | ].
  injection Hv as <- <- <-. auto.
Defined.

(** ** Fitted or not *)

(** X25.  An estimator is either not fitted or fitted, never in
    between.  At any time after construction, either [popt] and [cost] are
    both [None], and then [get_opt_kin_params], [get_opt_x0_params] and
    [get_SSE] all give [None]; or both are set, to the pair some call of
    [fit_lsq] returned. *)
Theorem popt_and_cost_are_set_together
    {Sim : Type} `{Simulator Sim}
    (param_ranges x0_ranges : list range) (sim : Sim)
    (s : kinetic_estimation Sim) :
  reachable (init param_ranges x0_ranges sim) s ->
  (popt s = None /\ cost s = None
   /\ get_opt_kin_params s = Ok None /\ get_opt_x0_params s = Ok None
   /\ get_SSE s = None)
  \/ (exists x c, popt s = Some x /\ cost s = Some c /\ get_SSE s = Some c).
Proof.
  intro Hreach.
  assert (Hfit : stored_fit s = (None, None)
                 \/ exists x c, stored_fit s = (Some x, Some c)).
  { induction Hreach as [| s s' _ IH Hcall]; [ now left | ].
    destruct Hcall
      as [ s params
         | s ex params t x_data method nz
         | s ex lhs rand ls t x_data p0 n_p0 bounds sm method nz Hls
         | s cdf t x_obs species method nz ].
    - now rewrite (set_params_keeps_fit (stored_fit s) params s eq_refl).
    - now rewrite (f_lsq_keeps_fit (stored_fit s) ex params t x_data method
                     nz s eq_refl).
    - pose proof (fit_lsq_contract (stored_fit s) ex lhs rand ls t x_data p0
                    n_p0 bounds sm method nz Hls s eq_refl) as Hrun.
      destruct (fit_lsq ex lhs rand ls t x_data p0 n_p0 bounds sm method nz s)
        as [r s' w | e s' w]; cbn [final].
      + right. now exists (fst r), (snd r).
      + now rewrite Hrun.
    - now rewrite (test_chi2_keeps_fit (stored_fit s) cdf t x_obs species
                     method nz s eq_refl). }
  unfold stored_fit in Hfit.
  destruct Hfit as [E | (x & c & E)]; injection E as Hp Hc.
  - left. unfold get_opt_kin_params, get_opt_x0_params, get_SSE.
    rewrite Hp, Hc. auto.
  - right. exists x, c. unfold get_SSE. auto.
Qed.

Lemma popt_and_cost_are_set_together_witness :
  let s0 := init [(Fin 0, Fin 0); (Fin 0, Fin 1)] [(Fin 10, Fin 10)]
              (constant_model_at [Fin 10]) in
  let s := final (set_params_m [Fin 0.5] s0) in
  reachable s0 s
  /\ ((popt s = None /\ cost s = None)
      \/ exists x c, popt s = Some x /\ cost s = Some c).
Proof.
  intros s0 s.
  assert (Hr : reachable s0 s).
  { apply reach_call with s0; [ apply reach_init | apply call_set_params ]. }
  split; [ exact Hr | ].
  destruct (popt_and_cost_are_set_together
              [(Fin 0, Fin 0); (Fin 0, Fin 1)] [(Fin 10, Fin 10)]
              (constant_model_at [Fin 10]) s Hr)
    as [(Hp & Hc & _) | (x & c & Hp & Hc & _)].
  - now left.
  - right. now exists x, c.
Defined.
